(** * soniakeys/quant: colour quantizers and ditherers, embedded in Rocq

    The development follows the Go sources:
    - [median/median.go]   median cut quantizer      (Module [Median])
    - the [mean] package   mean cut quantizer        (Module [Mean])
    - [quant.go]           [Dither] and [dither211]  (Module [Dither])
    - the palette file     [sPalette], [TreePalette] (Module [Palette])

    Go integers are modelled as [Z] with the wrap-around of their width
    written out, slices as lists, run-time panics as values of an error
    monad.  Loops carry fuel; every result that is claimed to be produced is
    proved to be produced with the fuel the model passes. *)

From Stdlib Require Import ZArith Lia ZifyNat.
From stdpp Require Import base tactics option list numbers sorting.

Local Open Scope Z_scope.

(** ** Go run time: integers of a fixed width, panics *)

Module Go.

Definition wrap (w : Z) (z : Z) : Z := z mod 2 ^ w.
(** [uint32(z)], [uint16(z)], [uint8(z)], [uint64(z)] *)
Definition uint32 (z : Z) : Z := wrap 32 z.
Definition uint16 (z : Z) : Z := wrap 16 z.
Definition uint8 (z : Z) : Z := wrap 8 z.
Definition uint64 (z : Z) : Z := wrap 64 z.
(** signed conversions, two's complement *)
Definition swrap (w : Z) (z : Z) : Z := (z + 2 ^ (w - 1)) mod 2 ^ w - 2 ^ (w - 1).
Definition int32 (z : Z) : Z := swrap 32 z.
Definition int64 (z : Z) : Z := swrap 64 z.
(** [int] is 64 bits wide on the platforms the package is built for *)
Definition int (z : Z) : Z := swrap 64 z.

Definition MaxUint32 : Z := 2 ^ 32 - 1.
Definition MaxInt64 : Z := 2 ^ 63 - 1.

(** The run-time panics the code can raise. *)
Inductive panic : Set :=
| IndexOutOfRange   (* index out of range *)
| DivideByZero      (* integer divide by zero *)
| MakesliceLen      (* makeslice: len out of range *)
| SliceBounds       (* slice bounds out of range *)
| NilDereference.   (* nil pointer dereference *)

(** A computation returns, panics, or (in the model only) runs out of
    fuel. *)
Inductive result (A : Type) : Type :=
| Ret (a : A)
| Panic (e : panic)
| OutOfFuel.
Arguments Ret {A} a.
Arguments Panic {A} e.
Arguments OutOfFuel {A}.

Definition bind {A B} (m : result A) (k : A -> result B) : result B :=
  match m with
  | Ret a => k a
  | Panic e => Panic e
  | OutOfFuel => OutOfFuel
  end.

(** [l[i]] with Go's bounds check *)
Definition idx {A} (l : list A) (i : Z) : result A :=
  if (i <? 0) || (Z.of_nat (length l) <=? i) then Panic IndexOutOfRange
  else match l !! Z.to_nat i with
       | Some a => Ret a
       | None => Panic IndexOutOfRange
       end.

(** [make([]T, n)] with every element the zero value [z] *)
Definition make {A} (z : A) (n : Z) : result (list A) :=
  if n <? 0 then Panic MakesliceLen else Ret (replicate (Z.to_nat n) z).

(** integer division, truncated toward zero, panics on a zero divisor *)
Definition div (a b : Z) : result Z :=
  if b =? 0 then Panic DivideByZero else Ret (Z.quot a b).

Definition len {A} (l : list A) : Z := Z.of_nat (length l).

End Go.

Export Go.

(** [result] is a monad; stdpp's [x ← m; k] notation sequences it. *)
#[global] Instance result_ret : MRet result := fun A a => Ret a.
#[global] Instance result_bind : MBind result := fun A B k m => Go.bind m k.

(** ** Images *)

(** The three colour channels [Color.RGBA()] returns; every function of the
    package binds the alpha channel to [_]. *)
Record RGB : Set := mkRGB { cr : Z; cg : Z; cb : Z }.

Record Rectangle : Set := mkRect { MinX : Z; MinY : Z; MaxX : Z; MaxY : Z }.

(** [image.Image]: bounds and the colour at a coordinate. *)
Record Image : Type := mkImage { Bounds : Rectangle; At : Z -> Z -> RGB }.

Definition Dx (b : Rectangle) : Z := MaxX b - MinX b.
Definition Dy (b : Rectangle) : Z := MaxY b - MinY b.

(** [Color.RGBA()] returns channels in [0, 0xffff]. *)
Definition chan_ok (v : Z) : Prop := 0 <= v <= 65535.
Definition rgb_ok (c : RGB) : Prop := chan_ok (cr c) /\ chan_ok (cg c) /\ chan_ok (cb c).
Definition img_ok (img : Image) : Prop := forall x y, rgb_ok (At img x y).

(** [type point struct{ x, y int32 }] *)
Definition point : Set := (Z * Z)%type.

Definition colorAt (img : Image) (p : point) : RGB := At img (int p.1) (int p.2).

(** ** The statistics both quantizers compute for a cluster *)

Module Cut.

(** [const ( wr = iota; wg; wb )] *)
Inductive wconst : Set := wr | wg | wb.

Definition channel (w : wconst) (c : RGB) : Z :=
  match w with wr => cr c | wg => cg c | wb => cb c end.

(** The extents loop of [setWidestChannel] and [setPriority]: the two
    functions have the same text up to the choice of the widest channel. *)
Record extents : Set :=
  mkExt { minR : Z; maxR : Z; minG : Z; maxG : Z; minB : Z; maxB : Z }.

Definition extents0 : extents :=
  mkExt MaxUint32 0 MaxUint32 0 MaxUint32 0.

Definition lower (v m : Z) : Z := if v <? m then v else m.
Definition upper (v m : Z) : Z := if v >? m then v else m.

Definition extents_step (img : Image) (e : extents) (p : point) : extents :=
  let c := colorAt img p in
  mkExt (lower (cr c) (minR e)) (upper (cr c) (maxR e))
        (lower (cg c) (minG e)) (upper (cg c) (maxG e))
        (lower (cb c) (minB e)) (upper (cb c) (maxB e)).

Definition extents_of (img : Image) (px : list point) : extents :=
  fold_left (extents_step img) px extents0.

(** "See which channel had the widest range": green first, red and then
    blue replace it when their range is strictly wider ([uint32]
    subtraction). *)
Definition rangeR (e : extents) : Z := uint32 (maxR e - minR e).
Definition rangeG (e : extents) : Z := uint32 (maxG e - minG e).
Definition rangeB (e : extents) : Z := uint32 (maxB e - minB e).

Definition widest (e : extents) : wconst * Z * Z :=
  let w := wg in
  let min := minG e in
  let max := maxG e in
  let '(w, min, max) :=
    if uint32 (maxR e - minR e) >? uint32 (max - min)
    then (wr, minR e, maxR e) else (w, min, max) in
  let '(w, min, max) :=
    if uint32 (maxB e - minB e) >? uint32 (max - min)
    then (wb, minB e, maxB e) else (w, min, max) in
  (w, min, max).

(** The loop of [split], the same text in both packages up to the test
    [low] that sends a value to the first part: [i] runs up, [last] runs
    down, a pixel that is not [low] is exchanged with the one at [last]. *)
Fixpoint split_loop (fuel : nat) (img : Image) (w : wconst) (low : Z -> bool)
    (px : list point) (i last : Z) : result (list point * Z) :=
  match fuel with
  | O => OutOfFuel
  | S fuel =>
      if i <=? last then
        p ← idx px i;
        let v := channel w (colorAt img p) in
        if low v then split_loop fuel img w low px (i + 1) last
        else
          pl ← idx px last;
          let px := <[Z.to_nat i := pl]> (<[Z.to_nat last := p]> px) in
          split_loop fuel img w low px i (last - 1)
      else Ret (px, i)
  end.

(** [px[:i]] and [px[i:]] *)
Definition slice_to {A} (l : list A) (i : Z) : result (list A) :=
  if (i <? 0) || (len l <? i) then Panic SliceBounds else Ret (take (Z.to_nat i) l).
Definition slice_from {A} (l : list A) (i : Z) : result (list A) :=
  if (i <? 0) || (len l <? i) then Panic SliceBounds else Ret (drop (Z.to_nat i) l).

Definition split_px (img : Image) (w : wconst) (low : Z -> bool) (px : list point)
    : result (list point * list point) :=
  '(px, i) ← split_loop (S (length px)) img w low px 0 (len px - 1);
  s ← slice_to px i;
  c ← slice_from px i;
  Ret (s, c).

(** The pixel list [newQuantizer] builds: [npx] zero points, then the
    coordinates of the bounds written in row order from index 0. *)
Definition coords (b : Rectangle) : list point :=
  y ← seqZ (MinY b) (MaxY b - MinY b);
  x ← seqZ (MinX b) (MaxX b - MinX b);
  [(int32 x, int32 y)].

Fixpoint fill (px : list point) (i : Z) (ps : list point) : result (list point) :=
  match ps with
  | [] => Ret px
  | p :: ps =>
      _ ← idx px i;
      fill (<[Z.to_nat i := p]> px) (i + 1) ps
  end.

Definition npx_of (b : Rectangle) : Z :=
  int (int (MaxX b - MinX b) * int (MaxY b - MinY b)).

(** The per-cluster sums of [paletted] and [palette], in [int64]. *)
Definition sums (img : Image) (px : list point) : Z * Z * Z :=
  fold_left (fun '(rsum, gsum, bsum) p =>
               let c := colorAt img p in
               (int64 (rsum + int64 (cr c)),
                int64 (gsum + int64 (cg c)),
                int64 (bsum + int64 (cb c)))) px (0, 0, 0).

End Cut.

Export Cut.

(** ** Paletted images ([image.Paletted], [color.RGBA]) *)

Record RGBA : Set := mkRGBA { R8 : Z; G8 : Z; B8 : Z; A8 : Z }.

(** [image.Paletted]; [C] is the type of the palette's colours. *)
Record Paletted (C : Type) : Type := mkPaletted {
  Pix : list Z;            (* palette indices, row by row *)
  Stride : Z;
  Rect : Rectangle;
  Palette : list C
}.
Arguments mkPaletted {C} _ _ _ _.
Arguments Pix {C} _.
Arguments Stride {C} _.
Arguments Rect {C} _.
Arguments Palette {C} _.

(** [image.NewPaletted(r, p)] on a rectangle without a negative dimension:
    one byte a pixel, all zero.  On a rectangle with a negative dimension
    [image.NewPaletted] panics; the theorems about the functions that call
    it take bounds that are well formed ([well_formed], [rect_ok]) or of
    positive width and height. *)
Definition NewPaletted {C} (r : Rectangle) (p : list C) : Paletted C :=
  mkPaletted (replicate (Z.to_nat (Dx r * Dy r)) 0) (Dx r) r p.

(** [Point{x, y}.In(r)] *)
Definition In_rect (x y : Z) (r : Rectangle) : bool :=
  (MinX r <=? x) && (x <? MaxX r) && (MinY r <=? y) && (y <? MaxY r).

(** [p.SetColorIndex(x, y, index)] *)
Definition SetColorIndex {C} (p : Paletted C) (x y : Z) (index : Z) : Paletted C :=
  if In_rect x y (Rect p) then
    let i := (y - MinY (Rect p)) * Stride p + (x - MinX (Rect p)) in
    mkPaletted (<[Z.to_nat i := index]> (Pix p)) (Stride p) (Rect p) (Palette p)
  else p.

(** The body of the loop of [paletted], the same text in both packages:
    cluster [i] with pixels [px] gives palette entry [i] and stamps its
    pixels.  [cp] is the palette slice, which [pi] shares. *)
Definition paletted_step (img : Image) (i : Z) (px : list point)
    (st : list RGBA * Paletted RGBA) : result (list RGBA * Paletted RGBA) :=
  let '(cp, pi) := st in
  let '(rsum, gsum, bsum) := sums img px in
  let n64 := int64 (int (Z.shiftl (len px) 8)) in
  r ← div rsum n64;
  g ← div gsum n64;
  b ← div bsum n64;
  _ ← idx cp i;
  let cp := <[Z.to_nat i := mkRGBA (uint8 r) (uint8 g) (uint8 b) 255]> cp in
  let pi := fold_left (fun pi p => SetColorIndex pi (int p.1) (int p.2) (uint8 i)) px pi in
  Ret (cp, pi).

Fixpoint paletted_loop (img : Image) (i : Z) (pxs : list (list point))
    (st : list RGBA * Paletted RGBA) : result (list RGBA * Paletted RGBA) :=
  match pxs with
  | [] => Ret st
  | px :: pxs => st ← paletted_step img i px st; paletted_loop img (i + 1) pxs st
  end.

Definition paletted_of (img : Image) (pxs : list (list point)) : result (Paletted RGBA) :=
  let cp := replicate (length pxs) (mkRGBA 0 0 0 0) in
  let pi := NewPaletted (Bounds img) cp in
  '(cp, pi) ← paletted_loop img 0 pxs (cp, pi);
  Ret (mkPaletted (Pix pi) (Stride pi) (Rect pi) cp).

(** ** Median cut ([median/median.go]) *)

Module Median.

Record cluster : Set := mkCluster {
  px : list point;       (* list of points in the cluster *)
  widestCh : wconst      (* channel with widest value range *)
}.

(** the zero value of [cluster] *)
Definition cluster0 : cluster := mkCluster [] wr.
#[global] Instance cluster_inhabited : Inhabited cluster := populate cluster0.

(** [type queue []*cluster]: a pointer into [qz.cs] is the index of the
    cluster it points to. *)
Definition queue : Set := list nat.

Record quantizer : Type := mkQuantizer {
  img : Image;           (* original image *)
  cs : list cluster;     (* len(cs) is the desired number of colors *)
  ch : Z                 (* length of the buffer for computing median *)
}.

Definition newQuantizer (img : Image) (nq : Z) : result quantizer :=
  let b := Bounds img in
  let npx := npx_of b in
  _ ← make 0 npx;
  cs ← make cluster0 nq;
  c ← idx cs 0;
  px ← make ((0, 0) : point) npx;
  px ← fill px 0 (coords b);
  Ret (mkQuantizer img (<[0%nat := mkCluster px (widestCh c)]> cs) npx).

(** [setWidestChannel]: the cluster with its [widestCh] set, and whether
    the cluster can be split. *)
Definition setWidestChannel (img : Image) (c : cluster) : cluster * bool :=
  let '(w, min, max) := widest (extents_of img (px c)) in
  (mkCluster (px c) w, max >? min).

(** *** The priority queue: [container/heap] over [queue] *)

Section Heap.
Variable cs : list cluster.

(** "Priority is number of pixels in cluster." *)
Definition Less (q : queue) (i j : nat) : bool :=
  len (px (cs !!! (q !!! i))) >? len (px (cs !!! (q !!! j))).

Definition Swap (q : queue) (i j : nat) : queue :=
  <[j := q !!! i]> (<[i := q !!! j]> q).

Fixpoint up (fuel : nat) (q : queue) (j : nat) : queue :=
  match fuel with
  | O => q
  | S fuel =>
      let i := ((j - 1) / 2)%nat in   (* parent *)
      if (i =? j)%nat || negb (Less q j i) then q
      else up fuel (Swap q i j) i
  end.

Fixpoint down (fuel : nat) (q : queue) (i n : nat) : queue :=
  match fuel with
  | O => q
  | S fuel =>
      let j1 := (2 * i + 1)%nat in
      if (n <=? j1)%nat then q
      else
        let j := j1 in   (* left child *)
        let j2 := (j1 + 1)%nat in
        let j := if (j2 <? n)%nat && Less q j2 j1 then j2 else j in
        if negb (Less q j i) then q
        else down fuel (Swap q i j) j n
  end.

(** [heap.Push(pq, c)]: append, then sift up from the last position. *)
Definition heap_Push (q : queue) (c : nat) : queue :=
  let q := q ++ [c] in
  up (length q) q (length q - 1).

(** [heap.Pop(pq)]: exchange first and last, sift down in the first
    [n] entries, take the last entry off. *)
Definition heap_Pop (q : queue) : result (nat * queue) :=
  let n := (length q - 1)%nat in
  _ ← idx q 0;
  let q := Swap q 0 n in
  let q := down (length q) q 0 n in
  c ← idx q (Z.of_nat n);
  Ret (c, take n q).
End Heap.

(** *** [medianCut] *)

(** "Dec m1 until element to left is different." *)
Fixpoint dec_m1 (fuel : nat) (ch : list Z) (m1 : Z) : result Z :=
  match fuel with
  | O => OutOfFuel
  | S fuel =>
      if m1 >? 0 then
        a ← idx ch m1;
        b ← idx ch (m1 - 1);
        if a =? b then dec_m1 fuel ch (m1 - 1) else Ret m1
      else Ret m1
  end.

(** "Inc m2 until element to left is different." *)
Fixpoint inc_m2 (fuel : nat) (ch : list Z) (m2 : Z) : result Z :=
  match fuel with
  | O => OutOfFuel
  | S fuel =>
      if m2 <? len ch then
        a ← idx ch m2;
        b ← idx ch (m2 - 1);
        if a =? b then inc_m2 fuel ch (m2 + 1) else Ret m2
      else Ret m2
  end.

(** [sort.Sort(ch)] puts the buffer in ascending order. *)
Definition sort (ch : list Z) : list Z := merge_sort Z.le ch.

Definition medianCut (q : quantizer) (c : cluster) : result Z :=
  let px := px c in
  _ ← (if ch q <? len px then Panic SliceBounds else Ret ());
  (* Copy values from appropriate channel to buffer for computing median. *)
  let ch := (fun p => uint16 (channel (widestCh c) (colorAt (img q) p))) <$> px in
  (* Find cut. *)
  let ch := sort ch in
  let m1 := Z.quot (len ch) 2 in
  a ← idx ch m1;
  b ← idx ch (m1 - 1);
  if negb (a =? b) then Ret (uint32 a)
  else
    let m2 := m1 in
    m1 ← dec_m1 (S (length ch)) ch (m1 - 1);
    m2 ← inc_m2 (S (length ch)) ch (m2 + 1);
    (* Return value that makes more equitable cut. *)
    if m1 >? len ch - m2 then v ← idx ch m1; Ret (uint32 v)
    else v ← idx ch m2; Ret (uint32 v).

(** [split]: the two pixel lists, [s.px] and [c.px]. *)
Definition split (q : quantizer) (s : cluster) (m : Z)
    : result (list point * list point) :=
  split_px (img q) (widestCh s) (fun v => v <? m) (px s).

(** *** [cluster] *)

Definition set_px (c : cluster) (px : list point) : cluster :=
  mkCluster px (widestCh c).

Definition push_if (b : bool) (cs : list cluster) (pq : queue) (c : nat) : queue :=
  if b then heap_Push cs pq c else pq.

(** One turn of the loop of [cluster] is one call of [cluster_loop]; [c]
    is the cluster [c] points to, [i] the loop variable.  [n] is a ghost
    counter, not in the source: the number of calls of [split] so far. *)
Fixpoint cluster_loop (fuel : nat) (q : quantizer) (pq : queue) (c : nat) (i : Z)
    (n : nat) : result (quantizer * nat) :=
  match fuel with
  | O => OutOfFuel
  | S fuel =>
      (* Only enqueue clusters that can be split. *)
      let '(cc, ok) := setWidestChannel (img q) (cs q !!! c) in
      let q := mkQuantizer (img q) (<[c := cc]> (cs q)) (ch q) in
      let pq := push_if ok (cs q) pq c in
      if len pq =? 0 then
        l ← slice_to (cs q) i;
        Ret (mkQuantizer (img q) l (ch q), n)
      else
        '(s, pq) ← heap_Pop (cs q) pq;   (* get cluster to split *)
        m ← medianCut q (cs q !!! s);
        _ ← idx (cs q) i;
        let c := Z.to_nat i in           (* set c to new cluster *)
        let i := i + 1 in
        '(spx, cpx) ← split q (cs q !!! s) m;
        let n := S n in
        let l := <[s := set_px (cs q !!! s) spx]> (cs q) in
        let l := <[c := set_px (l !!! c) cpx]> l in
        let q := mkQuantizer (img q) l (ch q) in
        (* Normal exit is when all clusters are populated. *)
        if i =? len (cs q) then Ret (q, n)
        else
          let '(sc, ok) := setWidestChannel (img q) (cs q !!! s) in
          let q := mkQuantizer (img q) (<[s := sc]> (cs q)) (ch q) in
          let pq := push_if ok (cs q) pq s in   (* return s to queue *)
          cluster_loop fuel q pq c i n
  end.

(** [cluster], with the number of splits it made *)
Definition cluster_counted (q : quantizer) : result (quantizer * nat) :=
  _ ← idx (cs q) 0;
  cluster_loop (length (cs q)) q [] 0%nat 1 0.

Definition cluster_run (q : quantizer) : result quantizer :=
  '(q, _) ← cluster_counted q; Ret q.

Definition paletted (q : quantizer) : result (Paletted RGBA) :=
  paletted_of (img q) (px <$> cs q).

(** [Quantizer.Quantize] *)
Definition Quantize (img : Image) (n : Z) : result (Paletted RGBA) :=
  qz ← newQuantizer img n;
  qz ← cluster_run qz;
  paletted qz.

End Median.

(** ** Mean cut (package [mean]) *)

Module Mean.

Record cluster : Set := mkCluster {
  px : list point;       (* list of points in the cluster *)
  widestCh : wconst;     (* channel with widest value range *)
  min : Z;               (* min, max colour values of widest channel *)
  max : Z;
  volume : Z;            (* colour volume *)
  priority : Z           (* early: population, late: population*volume *)
}.

Definition cluster0 : cluster := mkCluster [] wr 0 0 0 0.
#[global] Instance cluster_inhabited : Inhabited cluster := populate cluster0.

Record quantizer : Type := mkQuantizer {
  img : Image;           (* original image *)
  cs : list cluster      (* len(cs) is the desired number of colors *)
}.

Definition set_px (c : cluster) (px : list point) : cluster :=
  mkCluster px (widestCh c) (min c) (max c) (volume c) (priority c).

Definition set_priority (c : cluster) (p : Z) : cluster :=
  mkCluster (px c) (widestCh c) (min c) (max c) (volume c) p.

Definition newQuantizer (img : Image) (n : Z) : result quantizer :=
  if n <? 1 then Ret (mkQuantizer img [])
  else
    (* Make list of all pixels in image. *)
    let b := Bounds img in
    px ← make ((0, 0) : point) (npx_of b);
    px ← fill px 0 (coords b);
    (* Make clusters, populate first cluster with complete pixel list. *)
    cs ← make cluster0 n;
    c ← idx cs 0;
    Ret (mkQuantizer img (<[0%nat := set_px c px]> cs)).

(** [int(uint64(p) * (v >> 16) >> 29)] *)
Definition late_priority (p v : Z) : Z :=
  int (Z.shiftr (uint64 (uint64 p * Z.shiftr v 16)) 29).

Definition setPriority (img : Image) (c : cluster) (early : bool) : cluster :=
  let e := extents_of img (px c) in
  let '(w, mn, mx) := widest e in
  (* store statistics *)
  let vol := uint64 (uint64 (uint64 (rangeR e) * uint64 (rangeG e)) * uint64 (rangeB e)) in
  let pri := len (px c) in
  let pri := if negb early then late_priority pri vol else pri in
  mkCluster (px c) w mn mx vol pri.

Definition cutValue (img : Image) (c : cluster) (early : bool) : result Z :=
  let sum := fold_left (fun sum p => uint64 (sum + uint64 (channel (widestCh c) (colorAt img p))))
                       (px c) 0 in
  let n := uint64 (len (px c)) in
  mean ← div sum n;
  let mean := uint32 mean in
  if early then
    (* split in middle of longer tail rather than at mean *)
    if uint32 (max c - mean) >? uint32 (mean - min c)
    then Ret (Z.quot (uint32 (mean + max c)) 2)
    else Ret (Z.quot (uint32 (mean + min c)) 2)
  else Ret mean.

(** "Split into two non-empty parts at m." *)
Definition split (img : Image) (s : cluster) (m : Z)
    : result (list point * list point) :=
  split_px img (widestCh s) (fun v => (v <? m) || ((m =? min s) && (v =? m))) (px s).

(** "determine cluster to split, sx": the scan over [cs[0..cx]]. *)
Definition select (cs : list cluster) (cx : Z) : Z * Z :=
  fold_left (fun '(sx, maxP) x =>
               let c := cs !!! Z.to_nat x in
               if (max c >? min c) && (priority c >? maxP) then (x, priority c)
               else (sx, maxP))
            (seqZ 0 (cx + 1)) (-1, 0).

(** "change priorities on existing clusters" *)
Definition reprioritize (cs : list cluster) (cx : Z) : list cluster :=
  fold_left (fun cs x =>
               let c := cs !!! Z.to_nat x in
               <[Z.to_nat x := set_priority c (late_priority (priority c) (volume c))]> cs)
            (seqZ 0 cx) cs.

(** One turn of the loop of [cluster] is one call of [cluster_loop].  [n]
    is a ghost counter, not in the source: the number of calls of [split]
    so far. *)
Fixpoint cluster_loop (fuel : nat) (img : Image) (cs : list cluster) (half cx : Z)
    (n : nat) : result (list cluster * nat) :=
  match fuel with
  | O => OutOfFuel
  | S fuel =>
      (* compute statistics for new cluster *)
      let c := Z.to_nat cx in
      let cs := <[c := setPriority img (cs !!! c) (cx <? half)]> cs in
      let '(sx, _) := select cs cx in
      if sx <? 0 then l ← slice_to cs (cx + 1); Ret (l, n)
      else
        s ← idx cs sx;
        m ← cutValue img s (cx <? half);   (* get where to split cluster *)
        (* point to next cluster to populate *)
        let cx := cx + 1 in
        c ← idx cs cx;
        '(spx, cpx) ← split img s m;
        let n := S n in
        let cs := <[Z.to_nat sx := set_px s spx]> cs in
        let cs := <[Z.to_nat cx := set_px (cs !!! Z.to_nat cx) cpx]> cs in
        (* Normal exit is when all clusters are populated. *)
        if cx =? len cs - 1 then Ret (cs, n)
        else
          let cs := if cx =? half then reprioritize cs cx else cs in
          let cs := <[Z.to_nat sx := setPriority img (cs !!! Z.to_nat sx) (cx <? half)]> cs in
          cluster_loop fuel img cs half cx n
  end.

(** [cluster], with the number of splits it made *)
Definition cluster_counted (q : quantizer) : result (quantizer * nat) :=
  let half := Z.quot (len (cs q)) 2 in
  _ ← idx (cs q) 0;
  '(l, n) ← cluster_loop (length (cs q)) (img q) (cs q) half 0 0;
  Ret (mkQuantizer (img q) l, n).

Definition cluster_run (q : quantizer) : result quantizer :=
  '(q, _) ← cluster_counted q; Ret q.

Definition paletted (q : quantizer) : result (Paletted RGBA) :=
  paletted_of (img q) (px <$> cs q).

(** [Quantizer.Image] *)
Definition Image (img : Image) (n : Z) : result (Paletted RGBA) :=
  let n := if n >? 256 then 256 else n in
  qz ← newQuantizer img n;
  qz ← (if n >? 1 then cluster_run qz else Ret qz);
  paletted qz.

End Mean.

(** ** Palettes: the linear scan and the tree *)

Module Palette.

(** [type sRGB struct{ r, g, b int32 }] *)
Record sRGB : Set := mksRGB { sr : Z; sg : Z; sb : Z }.

(** [type sPalette []sRGB] *)
Definition sPalette : Set := list sRGB.

(** the squared distance [index] accumulates in [s] *)
Definition sqdist (c pc : sRGB) : Z :=
  let d := int64 (int32 (sr c - sr pc)) in
  let s := int64 (d * d) in
  let d := int64 (int32 (sg c - sg pc)) in
  let s := int64 (s + int64 (d * d)) in
  let d := int64 (int32 (sb c - sb pc)) in
  let s := int64 (s + int64 (d * d)) in
  s.

(** the loop of [index] from position [j], with the best so far *)
Fixpoint index_from (p : sPalette) (c : sRGB) (j : Z) (i min : Z) : Z :=
  match p with
  | [] => i
  | pc :: p =>
      let s := sqdist c pc in
      if s <? min then index_from p c (j + 1) j s
      else index_from p c (j + 1) i min
  end.

(** [func (p sPalette) index(c sRGB) int] *)
Definition index (p : sPalette) (c : sRGB) : Z :=
  index_from p c 0 0 MaxInt64.

(** [type TreePalette struct]; a [*TreePalette] is [Nil] or points to a
    node. *)
Inductive TreePalette : Set :=
| Nil
| Node (Type_ : Z) (Index : Z) (Color : RGB) (Split : Z) (Low High : TreePalette).

Definition TLeaf : Z := 0.
Definition TSplitR : Z := 1.
Definition TSplitG : Z := 2.
Definition TSplitB : Z := 3.

(** The closure [s] of [search]: [lt] is the variable the closure shares
    over the whole descent; the result is the leaf [f] is called on. *)
Fixpoint s (r g b : Z) (lt : bool) (t : TreePalette) : result TreePalette :=
  match t with
  | Nil => Panic NilDereference
  | Node ty _ _ split low high =>
      if ty =? TLeaf then Ret t
      else
        let lt := if ty =? TSplitR then r <? split
                  else if ty =? TSplitG then g <? split
                  else if ty =? TSplitB then b <? split
                  else lt in
        if lt then s r g b lt low else s r g b lt high
  end.

Definition search (t : TreePalette) (c : RGB) : result TreePalette :=
  s (cr c) (cg c) (cb c) false t.

Definition leaf_Index (t : TreePalette) : Z :=
  match t with Nil => 0 | Node _ i _ _ _ _ => i end.

(** [func (t *TreePalette) IndexNear(c color.Color) (i int)] *)
Definition IndexNear (t : TreePalette) (c : RGB) : result Z :=
  match t with
  | Nil => Ret (-1)
  | _ => leaf ← search t c; Ret (leaf_Index leaf)
  end.

(** [func (t *TreePalette) ColorPalette()]: the leaves' colours, low
    subtree first. *)
Fixpoint walk (t : TreePalette) (p : list RGB) : result (list RGB) :=
  match t with
  | Nil => Panic NilDereference
  | Node ty _ color _ low high =>
      if ty =? TLeaf then Ret (p ++ [color])
      else p ← walk low p; walk high p
  end.

Definition ColorPalette (t : TreePalette) : result (list RGB) :=
  match t with
  | Nil => Ret []
  | _ => walk t []
  end.

Definition leaf_Color (t : TreePalette) : RGB :=
  match t with Nil => mkRGB 0 0 0 | Node _ _ c _ _ _ => c end.

(** [func (t *TreePalette) ColorNear(c color.Color) (p color.Color)], the
    colour without its alpha; the nil tree gives
    [color.RGBA64{0x7fff, 0x7fff, 0x7fff, 0xfff}]. *)
Definition ColorNear (t : TreePalette) (c : RGB) : result RGB :=
  match t with
  | Nil => Ret (mkRGB 32767 32767 32767)
  | _ => leaf ← search t c; Ret (leaf_Color leaf)
  end.

End Palette.

(** ** Dithering ([quant.go]) *)

Module Dither.

(** A monadic left fold: the body of a [for] loop run over the values of
    its loop variable. *)
Fixpoint forM {A B} (l : list B) (a : A) (f : A -> B -> result A) : result A :=
  match l with
  | [] => Ret a
  | b :: l => a ← f a b; forM l a f
  end.

(** [color.RGBA64] and [diffusedError]: three channels ([RGB]); the alpha
    field of [color.RGBA64] is never written. *)
Definition zeroRGB : RGB := mkRGB 0 0 0.

(** *** [Dither]: [uint16] accumulators *)

(** "adjusted full color = original color + diffused error", clamped *)
Definition adjust16 (c0 rt : Z) : Z :=
  let r0 := uint32 (c0 + uint32 rt) in
  let r0 := if r0 >? 65535 then 65535 else r0 in
  uint16 r0.

(** "half of error goes right": the new [rt] channel, from the adjusted
    channel [rt] and the palette channel [pr] *)
Definition right16 (rt pr : Z) : Z :=
  if uint16 pr >? rt then 0 else Z.quot (uint16 (rt - uint16 pr)) 2.

(** "half goes down": the value assigned to [dn[x+1]] *)
Definition down16 (rt : Z) : Z := Z.quot rt 2.

Definition map3 (f : Z -> Z) (c : RGB) : RGB := mkRGB (f (cr c)) (f (cg c)) (f (cb c)).
Definition zip3 (f : Z -> Z -> Z) (c d : RGB) : RGB :=
  mkRGB (f (cr c) (cr d)) (f (cg c) (cg d)) (f (cb c) (cb d)).

(** The diffusion part of the inner loop of [Dither] (lines 82 to 105):
    from the adjusted colour [rt], the palette colour [pc] and the buffer
    [dn] to the new carry and buffer. *)
Definition Dither_diffuse (rt pc : RGB) (dn : list RGB) (x : Z)
    : result (RGB * list RGB) :=
  let rt := zip3 right16 rt pc in
  _ ← idx dn (x + 1);
  let dn := <[Z.to_nat (x + 1) := map3 down16 rt]> dn in
  d1 ← idx dn (x + 1);
  d0 ← idx dn x;
  let dn := <[Z.to_nat x := zip3 (fun a b => uint16 (a + b)) d0 d1]> dn in
  Ret (rt, dn).

(** *** [dither211]: [int] accumulators *)

(** "adjusted full color = original color + diffused error", "within
    limits" *)
Definition adjust (c0 rt : Z) : Z :=
  let rt := int (rt + int c0) in
  if rt <? 0 then 0 else if rt >? 65535 then 65535 else rt.

(** "error to be diffused = full color - palette color" *)
Definition residual (rt pr : Z) : Z := int (rt - int pr).
(** "half of error goes right" *)
Definition right (e : Z) : Z := Z.quot e 2.
(** "the other half goes down": what is left of [e], the value assigned
    to [dn[dx+1]], the value added to [dn[dx]] *)
Definition rest (e : Z) : Z := int (e - right e).
Definition diag (e : Z) : Z := Z.quot (rest e) 2.
Definition below (e : Z) : Z := int (rest e - diag e).

(** The diffusion part of the inner loop of [dither211] (lines 236 to
    255). *)
Definition dither211_diffuse (rt pc : RGB) (dn : list RGB) (dx : Z)
    : result (RGB * list RGB) :=
  let e := zip3 residual rt pc in
  let rt := map3 right e in
  _ ← idx dn (dx + 1);
  let dn := <[Z.to_nat (dx + 1) := map3 diag e]> dn in
  d0 ← idx dn dx;
  let dn := <[Z.to_nat dx := zip3 (fun a b => int (a + b)) d0 (map3 below e)]> dn in
  Ret (rt, dn).

Section Pass.
(** [color.Palette.Index] of Go's standard library chooses the palette
    entry; the ditherers are written over any such function. *)
Variable Index : list RGB -> RGB -> Z.

Definition state : Type := (RGB * list RGB * Paletted RGB)%type.

Definition Dither_pixel (i0 : Image) (cp : list RGB) (y : Z) (st : state) (x : Z)
    : result state :=
  let '(rt, dn, pi) := st in
  (* full color from original image; adjusted full color *)
  let rt := zip3 adjust16 (At i0 x y) rt in
  (* nearest palette entry *)
  let i := Index cp rt in
  let pi := SetColorIndex pi x y (uint8 i) in
  pc ← idx cp i;
  '(rt, dn) ← Dither_diffuse rt pc dn x;
  Ret (rt, dn, pi).

Definition Dither_row (i0 : Image) (cp : list RGB) (st : state) (y : Z) : result state :=
  let '(rt, dn, pi) := st in
  let b := Bounds i0 in
  rt ← idx dn 0;
  let dn := <[0%nat := zeroRGB]> dn in
  forM (seqZ (MinX b) (MaxX b - MinX b)) (rt, dn, pi) (Dither_pixel i0 cp y).

(** [Dither]; [None] is the [nil] result. *)
Definition Dither (i0 : Image) (cp : list RGB) : result (option (Paletted RGB)) :=
  if len cp >? 256 then Ret None
  else
    let b := Bounds i0 in
    let pi := NewPaletted b cp in
    if (MaxY b - MinY b =? 0) || (MaxX b - MinX b =? 0) then Ret (Some pi)
    else
      dn ← make zeroRGB (MaxX b - MinX b + 1);
      '(_, _, pi) ← forM (seqZ (MinY b) (MaxY b - MinY b)) (zeroRGB, dn, pi)
                         (Dither_row i0 cp);
      Ret (Some pi).

Definition dither211_pixel (i0 : Image) (cp : list RGB) (y : Z) (st : state) (x : Z)
    : result state :=
  let '(rt, dn, pi) := st in
  let b := Bounds i0 in
  let rt := zip3 adjust (At i0 x y) rt in
  let afc := map3 uint16 rt in
  let i := Index cp afc in
  let pi := SetColorIndex pi x y (uint8 i) in
  pc ← idx cp i;
  '(rt, dn) ← dither211_diffuse rt pc dn (x - MinX b);
  Ret (rt, dn, pi).

Definition dither211_row (i0 : Image) (cp : list RGB) (st : state) (y : Z)
    : result state :=
  let '(rt, dn, pi) := st in
  let b := Bounds i0 in
  rt ← idx dn 0;
  let dn := <[0%nat := zeroRGB]> dn in
  forM (seqZ (MinX b) (MaxX b - MinX b)) (rt, dn, pi) (dither211_pixel i0 cp y).

Definition dither211 (i0 : Image) (cp : list RGB) : result (option (Paletted RGB)) :=
  if len cp >? 256 then Ret None
  else
    let b := Bounds i0 in
    let pi := NewPaletted b cp in
    if (MaxY b - MinY b =? 0) || (MaxX b - MinX b =? 0) then Ret (Some pi)
    else
      dn ← make zeroRGB (MaxX b - MinX b + 1);
      '(_, _, pi) ← forM (seqZ (MinY b) (MaxY b - MinY b)) (zeroRGB, dn, pi)
                         (dither211_row i0 cp);
      Ret (Some pi).
End Pass.

End Dither.

(** * Specification vocabulary and the inputs the examples use *)

(** An image given by the list of its colours, row by row. *)
#[global] Instance RGB_inhabited : Inhabited RGB := populate (mkRGB 0 0 0).

Definition image_of (b : Rectangle) (l : list RGB) : Image :=
  mkImage b (fun x y => l !!! Z.to_nat ((y - MinY b) * (MaxX b - MinX b) + (x - MinX b))).

(** Bounds as [image.Rectangle] keeps them: [Min] below [Max], coordinates
    that fit [int32] (the type of [point]'s fields), and a number of pixels
    that fits a slice. *)
Definition rect_ok (b : Rectangle) : Prop :=
  - 2 ^ 31 <= MinX b <= MaxX b /\ MaxX b < 2 ^ 31 /\
  - 2 ^ 31 <= MinY b <= MaxY b /\ MaxY b < 2 ^ 31 /\
  Dx b * Dy b < 2 ^ 63.

(** A well-formed rectangle, in the words of package [image]:
    [Min.X <= Max.X] and [Min.Y <= Max.Y]. *)
Definition well_formed (b : Rectangle) : Prop :=
  MinX b <= MaxX b /\ MinY b <= MaxY b.

(** a zero-area image: empty bounds *)
Definition zero_area (b : Rectangle) : Prop := Dx b = 0 \/ Dy b = 0.

(** The tie-breaking claim C7 describes: blue wins a tie with red, red wins
    a tie with green. *)
Definition later_wins (e : extents) (w : wconst) : Prop :=
  (rangeB e = rangeR e -> rangeG e <= rangeB e -> w = wb) /\
  (rangeR e = rangeG e -> rangeB e < rangeR e -> w = wr).

(** A two-pixel image: black at (0,0), a grey of level 10 at (1,0). *)
Definition img_grey2 : Image :=
  image_of (mkRect 0 0 2 1) [mkRGB 0 0 0; mkRGB 10 10 10].

(** The 2x2 image of the end-to-end scenario: red, red, green, blue. *)
Definition img_rrgb : Image :=
  image_of (mkRect 0 0 2 2)
           [mkRGB 65535 0 0; mkRGB 65535 0 0; mkRGB 0 65535 0; mkRGB 0 0 65535].

(** An image with empty bounds. *)
Definition img_empty : Image := image_of (mkRect 0 0 0 0) [].

(** ** Palettes and trees, for C5 and C6 *)

(** [sRGB{int32(r), int32(g), int32(b)}], as [dither211] builds its
    [sPalette] from the colours of a palette *)
Definition to_sRGB (c : RGB) : Palette.sRGB :=
  Palette.mksRGB (int32 (cr c)) (int32 (cg c)) (int32 (cb c)).

(** The leaves of a tree, low subtree first, each with its index and its
    colour. *)
Fixpoint leaves (t : Palette.TreePalette) : list (Z * RGB) :=
  match t with
  | Palette.Nil => []
  | Palette.Node ty ix col _ low high =>
      if ty =? Palette.TLeaf then [(ix, col)] else leaves low ++ leaves high
  end.

(** The entries of a palette with their indices. *)
Definition entries (p : list RGB) : list (Z * RGB) :=
  imap (fun i c => (Z.of_nat i, c)) p.

(** The leaves of the tree correspond one-to-one to the palette's entries. *)
Definition corresponds (t : Palette.TreePalette) (p : list RGB) : Prop :=
  leaves t ≡ₚ entries p.

(** squared Euclidean distance over (R, G, B) *)
Definition dist2 (c d : RGB) : Z :=
  (cr c - cr d) ^ 2 + (cg c - cg d) ^ 2 + (cb c - cb d) ^ 2.

(** Entry [i] is the unique nearest entry of [p] to [c]. *)
Definition unique_nearest (p : list RGB) (c : RGB) (i : nat) : Prop :=
  exists d, p !! i = Some d /\
            forall j e, p !! j = Some e -> j <> i -> dist2 c d < dist2 c e.

(** The axis a split node tests. *)
Definition axis (ty : Z) : option wconst :=
  if ty =? Palette.TSplitR then Some wr
  else if ty =? Palette.TSplitG then Some wg
  else if ty =? Palette.TSplitB then Some wb
  else None.

(** A tree without nil children whose every split separates the colours of
    its two subtrees: below the threshold in [Low], at or above it in
    [High]. *)
Fixpoint separating (t : Palette.TreePalette) : Prop :=
  match t with
  | Palette.Nil => False
  | Palette.Node ty _ _ split low high =>
      ty = Palette.TLeaf \/
      exists w, axis ty = Some w /\
                Forall (fun l => channel w l.2 < split) (leaves low) /\
                Forall (fun l => split <= channel w l.2) (leaves high) /\
                separating low /\ separating high
  end.

(** Two palette colours and the tree a median cut of the red channel builds
    over them: the cut value is the upper colour's red. *)
Definition pal2 : list RGB := [mkRGB 0 0 0; mkRGB 100 0 0].
Definition tree2 : Palette.TreePalette :=
  Palette.Node Palette.TSplitR 0 (mkRGB 0 0 0) 100
    (Palette.Node Palette.TLeaf 0 (mkRGB 0 0 0) 0 Palette.Nil Palette.Nil)
    (Palette.Node Palette.TLeaf 1 (mkRGB 100 0 0) 0 Palette.Nil Palette.Nil).

Definition spal2 : Palette.sPalette := to_sRGB <$> pal2.

(** ** Clusters, for C1, C2 and C8 *)

(** The pixel coordinates of an image, row by row. *)
Definition pixels (b : Rectangle) : list point :=
  y ← seqZ (MinY b) (MaxY b - MinY b);
  x ← seqZ (MinX b) (MaxX b - MinX b);
  [(x, y)].

(** The pixel lists [pxs] partition the pixels of [b]: every pixel in
    exactly one list. *)
Definition partitions (pxs : list (list point)) (b : Rectangle) : Prop :=
  concat pxs ≡ₚ pixels b /\ NoDup (concat pxs).

(** the value the splitter reads for a pixel *)
Definition value (img : Image) (w : wconst) (p : point) : Z :=
  channel w (colorAt img p).

(** all pixels of the list have one colour *)
Definition single_colour (img : Image) (px : list point) : Prop :=
  forall p q, p ∈ px -> q ∈ px -> colorAt img p = colorAt img q.

#[global] Instance RGB_eq_dec : EqDecision RGB.
Proof. solve_decision. Defined.

(** the distinct colours of an image *)
Definition colours (img : Image) : list RGB :=
  remove_dups (colorAt img <$> pixels (Bounds img)).

(** the extrema of a channel in the extents record *)
Definition emin (w : wconst) (e : extents) : Z :=
  match w with wr => minR e | wg => minG e | wb => minB e end.
Definition emax (w : wconst) (e : extents) : Z :=
  match w with wr => maxR e | wg => maxG e | wb => maxB e end.

(** The clustering run of each quantizer: the statements [Quantize], and
    [Image] and [Palette], start with; with the number of splits made. *)
Definition median_clusters (img : Image) (n : Z) : result (Median.quantizer * nat) :=
  qz ← Median.newQuantizer img n;
  Median.cluster_counted qz.

Definition mean_clusters (img : Image) (n : Z) : result (Mean.quantizer * nat) :=
  qz ← Mean.newQuantizer img n;
  if n >? 1 then Mean.cluster_counted qz else Ret (qz, 0%nat).

(** two pixels of the list differ in channel [w] *)
Definition has_range (img : Image) (w : wconst) (px : list point) : Prop :=
  exists p1 p2, p1 ∈ px /\ p2 ∈ px /\ value img w p1 < value img w p2.

(** The invariant of the loop of median [cluster]: [P] is the pixel list of
    the image, [i] the number of populated clusters, [pend] the clusters
    whose widest channel is not yet set.  The populated clusters partition
    [P], a queued cluster can be split, and a cluster that is neither queued
    nor pending has one colour. *)
Definition clusters_inv (img : Image) (P : list point) (cs : list Median.cluster)
    (pq : Median.queue) (pend : list nat) (i : Z) : Prop :=
  1 <= i <= len cs /\
  concat (Median.px <$> take (Z.to_nat i) cs) ≡ₚ P /\
  NoDup pq /\
  (forall s, s ∈ pq ->
     Z.of_nat s < i /\ (s ∉ pend) /\
     has_range img (Median.widestCh (cs !!! s)) (Median.px (cs !!! s))) /\
  (forall k, Z.of_nat k < i -> k ∉ pend -> k ∉ pq ->
     single_colour img (Median.px (cs !!! k))) /\
  (P <> [] -> forall k, Z.of_nat k < i -> Median.px (cs !!! k) <> []).

(** What median [cluster] returns, for [K] requested colours. *)
Definition median_post (img : Image) (P : list point) (K : Z)
    (q : Median.quantizer) (n : nat) : Prop :=
  Median.img q = img /\
  1 <= len (Median.cs q) <= K /\
  len (Median.cs q) = 1 + Z.of_nat n /\
  concat (Median.px <$> Median.cs q) ≡ₚ P /\
  (P <> [] -> Forall (fun c => Median.px c <> []) (Median.cs q)) /\
  (len (Median.cs q) < K ->
   Forall (fun c => single_colour img (Median.px c)) (Median.cs q)).

(** ** The mean quantizer's clusters *)

(** the statistics of a cluster are those of its pixel list *)
Definition in_sync (img : Image) (c : Mean.cluster) : Prop :=
  widest (extents_of img (Mean.px c)) = (Mean.widestCh c, Mean.min c, Mean.max c).

(** the cluster can be chosen by the scan of mean [cluster] *)
Definition eligible (c : Mean.cluster) : Prop :=
  Mean.max c > Mean.min c /\ Mean.priority c > 0.

(** two clusters that differ in their priority at most *)
Definition same_stats (c c' : Mean.cluster) : Prop :=
  Mean.px c = Mean.px c' /\ Mean.widestCh c = Mean.widestCh c' /\
  Mean.min c = Mean.min c' /\ Mean.max c = Mean.max c' /\
  Mean.volume c = Mean.volume c'.

(** the sum of a list of integers *)
Definition zsum (l : list Z) : Z := foldr Z.add 0 l.

(** the colour volume [setPriority] stores for a pixel list *)
Definition volume_of (img : Image) (px : list point) : Z :=
  let e := extents_of img px in
  uint64 (uint64 (uint64 (rangeR e) * uint64 (rangeG e)) * uint64 (rangeB e)).

(** the statistics and the priority of the cluster are those [setPriority]
    computes for its pixels, in the first stage ([early]) or the second *)
Definition analyzed (img : Image) (early : bool) (c : Mean.cluster) : Prop :=
  Mean.setPriority img c early = c.

(** The invariant of the loop of mean [cluster]: [cx] is the index of the
    newest populated cluster, [pend] the clusters whose statistics are not
    yet computed, [early] the stage.  The populated clusters partition [P],
    and the clusters that are not pending carry the statistics and the
    priority of their pixels. *)
Definition mean_inv (img : Image) (P : list point) (cs : list Mean.cluster)
    (early : bool) (pend : list nat) (cx : Z) : Prop :=
  0 <= cx < len cs /\
  concat (Mean.px <$> take (Z.to_nat (cx + 1)) cs) ≡ₚ P /\
  (forall k, Z.of_nat k <= cx -> k ∉ pend -> analyzed img early (cs !!! k)) /\
  (P <> [] -> forall k, Z.of_nat k <= cx -> Mean.px (cs !!! k) <> []).

(** What mean [cluster] returns, for [K] requested colours. *)
Definition mean_post (img : Image) (P : list point) (K : Z)
    (q : Mean.quantizer) (n : nat) : Prop :=
  Mean.img q = img /\
  1 <= len (Mean.cs q) <= K /\
  len (Mean.cs q) = 1 + Z.of_nat n /\
  concat (Mean.px <$> Mean.cs q) ≡ₚ P /\
  (P <> [] -> Forall (fun c => Mean.px c <> []) (Mean.cs q)) /\
  (len (Mean.cs q) < K ->
   Forall (fun c => analyzed img (len (Mean.cs q) - 1 <? Z.quot K 2) c /\ ~ eligible c)
          (Mean.cs q)).

(** ** Paletted images, for [paletted] *)

(** [p.PixOffset(x, y)] of [image.Paletted] *)
Definition PixOffset {C} (pi : Paletted C) (p : point) : Z :=
  (p.2 - MinY (Rect pi)) * Stride pi + (p.1 - MinX (Rect pi)).

(** the palette index the image stores for a pixel *)
Definition index_at {C} (pi : Paletted C) (p : point) : option Z :=
  Pix pi !! Z.to_nat (PixOffset pi p).

(** a paletted image as [image.NewPaletted] makes it: one byte a pixel *)
Definition pal_wf {C} (pi : Paletted C) : Prop :=
  rect_ok (Rect pi) /\ Stride pi = Dx (Rect pi) /\
  len (Pix pi) = Dx (Rect pi) * Dy (Rect pi).

(** The mean colour of a pixel list: per channel the mean of the 16-bit
    values, reduced to 8 bits; opaque. *)
Definition mean_colour (img : Image) (px : list point) : RGBA :=
  let n := 256 * len px in
  mkRGBA (zsum ((fun p => cr (colorAt img p)) <$> px) / n)
         (zsum ((fun p => cg (colorAt img p)) <$> px) / n)
         (zsum ((fun p => cb (colorAt img p)) <$> px) / n)
         255.

(** squared Euclidean distance of signed colours *)
Definition sdist2 (c d : Palette.sRGB) : Z :=
  (Palette.sr c - Palette.sr d) ^ 2 + (Palette.sg c - Palette.sg d) ^ 2 +
  (Palette.sb c - Palette.sb d) ^ 2.

(** a signed colour whose channels stay within 30 bits: a colour value
    0-ffff with any diffused error the ditherer can add to it *)
Definition srgb_ok (c : Palette.sRGB) : Prop :=
  - 2 ^ 29 <= Palette.sr c <= 2 ^ 29 /\
  - 2 ^ 29 <= Palette.sg c <= 2 ^ 29 /\
  - 2 ^ 29 <= Palette.sb c <= 2 ^ 29.

(** A tree in which every split node has two subtrees: no nil child. *)
Fixpoint full (t : Palette.TreePalette) : Prop :=
  match t with
  | Palette.Nil => False
  | Palette.Node ty _ _ _ low high =>
      ty = Palette.TLeaf \/ (full low /\ full high)
  end.

(** a tree of three leaves, numbered in the order of the walk *)
Definition tree3 : Palette.TreePalette :=
  Palette.Node Palette.TSplitG 0 (mkRGB 0 0 0) 50
    tree2
    (Palette.Node Palette.TLeaf 2 (mkRGB 0 200 0) 0 Palette.Nil Palette.Nil).

(** What a pass of a ditherer keeps: the length [L] of the buffer [dn], the
    bounds and the palette of the image, and pixel indices that are indices
    of the palette. *)
Definition pass_inv (i0 : Image) (cp : list RGB) (L : Z) (st : Dither.state) : Prop :=
  len st.1.2 = L /\ Rect st.2 = Bounds i0 /\ Palette st.2 = cp /\
  Forall (fun v => 0 <= v < len cp) (Pix st.2).

(** the palette index function that always answers 0 *)
Definition Index0 : list RGB -> RGB -> Z := fun _ _ => 0.

(** a one-row image of two black pixels whose bounds start at x = 1 *)
Definition img_off : Image := image_of (mkRect 1 0 3 1) [mkRGB 0 0 0; mkRGB 0 0 0].

(** ** The priority queue, for the order of the heap *)

(** the population of cluster [x]: its priority in the queue *)
Definition pop_of (cs : list Median.cluster) (x : nat) : Z :=
  len (Median.px (cs !!! x)).

(** The queue is a heap by population: no entry has more pixels than its
    parent, the entry at [(j - 1) / 2]. *)
Definition heap_ok (cs : list Median.cluster) (q : Median.queue) : Prop :=
  forall j, (0 < j < length q)%nat ->
    pop_of cs (q !!! j) <= pop_of cs (q !!! ((j - 1) / 2)%nat).

(** Pixels of one colour are in one list: the lists do not share a
    colour. *)
Definition colour_closed (img : Image) (pxs : list (list point)) : Prop :=
  forall k1 k2 px1 px2 p q,
    pxs !! k1 = Some px1 -> pxs !! k2 = Some px2 -> p ∈ px1 -> q ∈ px2 ->
    colorAt img p = colorAt img q -> k1 = k2.

(** * Theorems *)

(** ** The error monad *)

Lemma bind_Ret {A B} (m : result A) (k : A -> result B) (b : B) :
  m ≫= k = Ret b <-> exists a, m = Ret a /\ k a = Ret b.
Proof.
  unfold mbind, result_bind. destruct m; cbn; split.
  - eauto.
  - intros [a' [[= ->] H]]. exact H.
  - discriminate.
  - intros [a' [[=] _]].
  - discriminate.
  - intros [a' [[=] _]].
Qed.

Lemma idx_Ret {A} (l : list A) (i : Z) (a : A) :
  idx l i = Ret a <-> 0 <= i /\ l !! Z.to_nat i = Some a.
Proof.
  unfold idx. destruct (Z.ltb_spec i 0); cbn.
  - split; [discriminate | lia].
  - destruct (Z.leb_spec (Z.of_nat (length l)) i); cbn.
    + split; [discriminate|]. intros [_ Hl]. apply lookup_lt_Some in Hl. lia.
    + destruct (l !! Z.to_nat i) eqn:E.
      * split; [intros [= ->]; auto | intros [_ [= ->]]; reflexivity].
      * apply lookup_ge_None in E. lia.
Qed.

Lemma idx_lt {A} (l : list A) (i : Z) :
  0 <= i < len l -> exists a, idx l i = Ret a /\ l !! Z.to_nat i = Some a.
Proof.
  intros H. unfold len in H.
  destruct (lookup_lt_is_Some_2 l (Z.to_nat i)) as [a Ha]; [lia|].
  exists a. split; [|done]. apply idx_Ret. split; [lia|done].
Qed.

Lemma idx_out {A} (l : list A) (i : Z) :
  i < 0 \/ len l <= i -> idx l i = Panic IndexOutOfRange.
Proof.
  intros H. unfold idx, len in *.
  destruct (Z.ltb_spec i 0); cbn; [done|].
  destruct (Z.leb_spec (Z.of_nat (length l)) i); cbn; [done|lia].
Qed.

Lemma make_Ret {A} (z : A) (n : Z) :
  0 <= n -> make z n = Ret (replicate (Z.to_nat n) z).
Proof. intros H. unfold make. destruct (Z.ltb_spec n 0); [lia|done]. Qed.

Lemma make_neg {A} (z : A) (n : Z) : n < 0 -> make z n = Panic MakesliceLen.
Proof. intros H. unfold make. destruct (Z.ltb_spec n 0); [done|lia]. Qed.

(** ** C7: the choice of the widest channel *)

Lemma widest_cases (e : extents) :
    let w := (widest e).1.1 in
    (w = wg <-> rangeR e <= rangeG e /\ rangeB e <= rangeG e) /\
    (w = wr <-> rangeG e < rangeR e /\ rangeB e <= rangeR e) /\
    (w = wb <-> rangeG e < rangeB e /\ rangeR e < rangeB e).
  Proof.
    unfold widest, rangeR, rangeG, rangeB. cbn zeta.
    destruct (Z.gtb_spec (uint32 (maxR e - minR e)) (uint32 (maxG e - minG e)));
      match goal with
      | |- context [uint32 (maxB e - minB e) >? ?x] =>
          destruct (Z.gtb_spec (uint32 (maxB e - minB e)) x)
      end; cbn; repeat split; intros; try discriminate; try lia; try reflexivity.
  Qed.


(** C7, as stated, fails: with the three ranges equal green is kept, neither
    red nor blue replaces it. *)
Lemma C7_later_channel_does_not_win :
  let c := Median.mkCluster [(0, 0); (1, 0)] wr in
  let e := extents_of img_grey2 (Median.px c) in
  rangeR e = 10 /\ rangeG e = 10 /\ rangeB e = 10 /\
  Median.widestCh (Median.setWidestChannel img_grey2 c).1 = wg /\
  Mean.widestCh (Mean.setPriority img_grey2 (Mean.mkCluster [(0, 0); (1, 0)] wr 0 0 0 0) true) = wg /\
  ~ later_wins e (Median.widestCh (Median.setWidestChannel img_grey2 c).1).
Proof.
  cbv zeta. repeat split; try reflexivity.
  intros [H _]. specialize (H eq_refl). vm_compute in H.
  assert (wg = wb) by (apply H; discriminate). discriminate.
Qed.

(** C7 (amended): green is taken first, red replaces it only when strictly
    wider, blue replaces the current choice only when strictly wider; on
    equal ranges the channel tested earlier is kept: green wins ties with red
    and with blue, red wins ties with blue.  Both [setWidestChannel] (median)
    and [setPriority] (mean, early or late) choose this way. *)
Theorem C7_widest_channel_order (img : Image) (pts : list point) (w0 : wconst)
    (mc : Mean.cluster) (early : bool) :
  let e := extents_of img pts in
  let w := Median.widestCh (Median.setWidestChannel img (Median.mkCluster pts w0)).1 in
  let w' := Mean.widestCh (Mean.setPriority img mc early) in
  let e' := extents_of img (Mean.px mc) in
  ((w = wg <-> rangeR e <= rangeG e /\ rangeB e <= rangeG e) /\
   (w = wr <-> rangeG e < rangeR e /\ rangeB e <= rangeR e) /\
   (w = wb <-> rangeG e < rangeB e /\ rangeR e < rangeB e)) /\
  ((w' = wg <-> rangeR e' <= rangeG e' /\ rangeB e' <= rangeG e') /\
   (w' = wr <-> rangeG e' < rangeR e' /\ rangeB e' <= rangeR e') /\
   (w' = wb <-> rangeG e' < rangeB e' /\ rangeR e' < rangeB e')).
Proof.
  cbv zeta. split.
  - pose proof (widest_cases (extents_of img pts)) as H. cbv zeta in H.
    unfold Median.setWidestChannel. cbn [Median.px].
    destruct (widest (extents_of img pts)) as [[w mn] mx]. exact H.
  - pose proof (widest_cases (extents_of img (Mean.px mc))) as H. cbv zeta in H.
    unfold Mean.setPriority.
    destruct (widest (extents_of img (Mean.px mc))) as [[w mn] mx]. exact H.
Qed.

(** ** C9: the median quantizer and a requested count below 1 *)

Lemma paletted_of_nil (img : Image) :
  paletted_of img [] = Ret (NewPaletted (Bounds img) []).
Proof. reflexivity. Qed.

Lemma mean_Image_below_1 (img : Image) (n : Z) :
  well_formed (Bounds img) ->
  n < 1 -> Mean.Image img n = Ret (NewPaletted (Bounds img) []).
Proof.
  intros _ H. unfold Mean.Image.
  destruct (Z.gtb_spec n 256); [lia|].
  unfold Mean.newQuantizer. destruct (Z.ltb_spec n 1); [|lia].
  cbn. destruct (Z.gtb_spec n 1); [lia|]. reflexivity.
Qed.

Lemma median_newQuantizer_neg (img : Image) (n : Z) :
  n < 0 -> Median.newQuantizer img n = Panic MakesliceLen.
Proof.
  intros H. unfold Median.newQuantizer.
  destruct (Z.lt_ge_cases (npx_of (Bounds img)) 0).
  - rewrite (make_neg (A:=Z)) by lia. reflexivity.
  - rewrite (make_Ret (A:=Z)) by lia. cbn. rewrite (make_neg Median.cluster0) by lia.
    reflexivity.
Qed.

Lemma median_newQuantizer_0 (img : Image) :
  0 <= npx_of (Bounds img) -> Median.newQuantizer img 0 = Panic IndexOutOfRange.
Proof.
  intros H. unfold Median.newQuantizer.
  rewrite (make_Ret (A:=Z)) by lia. reflexivity.
Qed.

(** the pixel count [newQuantizer] computes, for well-formed bounds whose
    number of pixels fits an [int] *)
Lemma npx_of_fits (b : Rectangle) :
  well_formed b -> Dx b * Dy b < 2 ^ 63 -> npx_of b = Dx b * Dy b.
Proof.
  unfold well_formed, npx_of, Dx, Dy. intros [Hx Hy] Hb.
  set (dx := MaxX b - MinX b) in *. set (dy := MaxY b - MinY b) in *.
  assert (Hs : forall z, - 2 ^ 63 <= z < 2 ^ 63 -> int z = z).
  { intros z Hz. unfold int, swrap. change (2 ^ (64 - 1)) with (2 ^ 63).
    rewrite Z.mod_small; lia. }
  destruct (Z.eq_dec dx 0) as [E|Nx].
  { rewrite E. rewrite (Hs 0) by lia. rewrite !Z.mul_0_l. apply Hs. lia. }
  destruct (Z.eq_dec dy 0) as [E|Ny].
  { rewrite E. rewrite (Hs 0) by lia. rewrite !Z.mul_0_r. apply Hs. lia. }
  assert (dx <= dx * dy) by nia. assert (dy <= dx * dy) by nia.
  rewrite (Hs dx), (Hs dy) by lia. apply Hs. nia.
Qed.

(** C9, as stated, fails for a negative count: the panic is raised by
    [make([]cluster, nq)], there is no cluster slice to index. *)
Lemma C9_negative_count_panics_in_make :
  Median.Quantize img_rrgb (-1) = Panic MakesliceLen /\
  Median.Quantize img_rrgb (-1) <> Panic IndexOutOfRange.
Proof. split; [reflexivity | discriminate]. Qed.

(** C9 (amended): for every image with well-formed bounds whose number of
    pixels fits an [int], median [Quantize] with [n <= 0] panics and
    returns nothing: with [n = 0] by an index out of range on the empty
    cluster slice, with [n < 0] already in [make([]cluster, n)]; the mean
    variant guards [n < 1] and returns an image with an empty palette. *)
Theorem C9_median_needs_positive_count (img : Image) (n : Z) :
  well_formed (Bounds img) -> Dx (Bounds img) * Dy (Bounds img) < 2 ^ 63 ->
  n <= 0 ->
  (exists e, Median.Quantize img n = Panic e) /\
  (n = 0 -> Median.Quantize img n = Panic IndexOutOfRange) /\
  (n < 0 -> Median.Quantize img n = Panic MakesliceLen) /\
  Mean.Image img n = Ret (NewPaletted (Bounds img) []).
Proof.
  intros Hw Hb Hn.
  assert (Hpx : 0 <= npx_of (Bounds img)).
  { rewrite npx_of_fits by done. destruct Hw as [Hx Hy]. unfold Dx, Dy. nia. }
  assert (H0 : n = 0 -> Median.Quantize img n = Panic IndexOutOfRange).
  { intros ->. unfold Median.Quantize.
    rewrite median_newQuantizer_0 by done. reflexivity. }
  assert (Hneg : n < 0 -> Median.Quantize img n = Panic MakesliceLen).
  { intros Hlt. unfold Median.Quantize.
    rewrite median_newQuantizer_neg by done. reflexivity. }
  split; [|split; [exact H0|split; [exact Hneg|]]].
  - destruct (Z.eq_dec n 0) as [E|Hne].
    + exists IndexOutOfRange. by apply H0.
    + exists MakesliceLen. apply Hneg. lia.
  - apply mean_Image_below_1; [done|lia].
Qed.

Lemma C9_median_needs_positive_count_witness :
  well_formed (Bounds img_rrgb) /\
  Dx (Bounds img_rrgb) * Dy (Bounds img_rrgb) < 2 ^ 63 /\
  0 <= 0 /\
  Median.Quantize img_rrgb 0 = Panic IndexOutOfRange /\
  Mean.Image img_rrgb 0 = Ret (NewPaletted (Bounds img_rrgb) []).
Proof.
  assert (Hw : well_formed (Bounds img_rrgb)) by (split; cbn; lia).
  assert (Hb : Dx (Bounds img_rrgb) * Dy (Bounds img_rrgb) < 2 ^ 63)
    by (vm_compute; reflexivity).
  split; [exact Hw|]. split; [exact Hb|]. split; [lia|].
  destruct (C9_median_needs_positive_count img_rrgb 0 Hw Hb) as (_ & H0 & _ & Hm); [lia|].
  split; [apply H0; reflexivity | exact Hm].
Defined.

(** ** C10: the mean quantizer clamps the requested count at 256 *)

Lemma paletted_step_length (img : Image) (i : Z) (px : list point) cp pi cp' pi' :
  paletted_step img i px (cp, pi) = Ret (cp', pi') -> length cp' = length cp.
Proof.
  unfold paletted_step. destruct (sums img px) as [[rs gs] bs].
  intros H.
  repeat (apply bind_Ret in H as (? & _ & H)).
  injection H as <- _. by rewrite length_insert.
Qed.

Lemma paletted_loop_length (img : Image) (pxs : list (list point)) :
  forall i cp pi cp' pi',
    paletted_loop img i pxs (cp, pi) = Ret (cp', pi') -> length cp' = length cp.
Proof.
  induction pxs as [|px pxs IH]; intros i cp pi cp' pi' H; cbn in H.
  - by injection H as <- _.
  - apply bind_Ret in H as ([cp1 pi1] & H1 & H).
    apply paletted_step_length in H1. apply IH in H. congruence.
Qed.

Lemma paletted_of_length (img : Image) (pxs : list (list point)) (pi : Paletted RGBA) :
  paletted_of img pxs = Ret pi -> length (Palette pi) = length pxs.
Proof.
  unfold paletted_of. intros H.
  apply bind_Ret in H as ([cp1 pi1] & H1 & H).
  apply paletted_loop_length in H1. injection H as <-. cbn.
  by rewrite H1, length_replicate.
Qed.

Lemma slice_to_Ret {A} (l l' : list A) (i : Z) :
  slice_to l i = Ret l' <-> 0 <= i <= len l /\ l' = take (Z.to_nat i) l.
Proof.
  unfold slice_to, len.
  destruct (Z.ltb_spec i 0); cbn.
  - split; [discriminate | lia].
  - destruct (Z.ltb_spec (Z.of_nat (length l)) i); cbn.
    + split; [discriminate | lia].
    + split; [intros [= <-]; split; [lia|done] | intros [_ ->]; done].
Qed.

Lemma slice_from_Ret {A} (l l' : list A) (i : Z) :
  slice_from l i = Ret l' <-> 0 <= i <= len l /\ l' = drop (Z.to_nat i) l.
Proof.
  unfold slice_from, len.
  destruct (Z.ltb_spec i 0); cbn.
  - split; [discriminate | lia].
  - destruct (Z.ltb_spec (Z.of_nat (length l)) i); cbn.
    + split; [discriminate | lia].
    + split; [intros [= <-]; split; [lia|done] | intros [_ ->]; done].
Qed.

Lemma mean_reprioritize_length (cs : list Mean.cluster) (cx : Z) :
  length (Mean.reprioritize cs cx) = length cs.
Proof.
  unfold Mean.reprioritize. generalize (seqZ 0 cx). intros l. revert cs.
  induction l as [|x l IH]; intros cs; cbn; [done|].
  rewrite IH. by rewrite length_insert.
Qed.

Lemma mean_cluster_loop_length (img : Image) (half : Z) (fuel : nat) :
  forall cs cx n l n',
    Mean.cluster_loop fuel img cs half cx n = Ret (l, n') ->
    (length l <= length cs)%nat.
Proof.
  induction fuel as [|fuel IH]; intros cs cx n l n' H; cbn in H; [discriminate|].
  destruct (Mean.select _ cx) as [sx mp].
  destruct (sx <? 0).
  - apply bind_Ret in H as (l0 & H0 & [= <- _]).
    apply slice_to_Ret in H0 as [_ ->].
    rewrite length_take, length_insert. lia.
  - apply bind_Ret in H as (s & _ & H).
    apply bind_Ret in H as (m & _ & H).
    apply bind_Ret in H as (c & _ & H).
    apply bind_Ret in H as ([spx cpx] & _ & H).
    match type of H with (if ?b then _ else _) = _ => destruct b end.
    + injection H as <- _. by rewrite !length_insert.
    + apply IH in H. revert H.
      destruct (cx + 1 =? half);
        rewrite !length_insert, ?mean_reprioritize_length, ?length_insert; done.
Qed.

Lemma mean_newQuantizer_length (img : Image) (n : Z) (q : Mean.quantizer) :
  Mean.newQuantizer img n = Ret q ->
  Mean.img q = img /\ len (Mean.cs q) = Z.max 0 n.
Proof.
  unfold Mean.newQuantizer. destruct (Z.ltb_spec n 1) as [Hn|Hn].
  - intros [= <-]. split; [done|]. unfold len. cbn. lia.
  - intros H.
    apply bind_Ret in H as (px0 & _ & H).
    apply bind_Ret in H as (px1 & _ & H).
    apply bind_Ret in H as (cs0 & Hm & H).
    apply bind_Ret in H as (c & _ & [= <-]). cbn. split; [done|].
    rewrite make_Ret in Hm by lia. injection Hm as <-.
    unfold len. rewrite length_insert, length_replicate. lia.
Qed.

Lemma mean_cluster_run_length (q q' : Mean.quantizer) :
  Mean.cluster_run q = Ret q' ->
  Mean.img q' = Mean.img q /\ (length (Mean.cs q') <= length (Mean.cs q))%nat.
Proof.
  unfold Mean.cluster_run, Mean.cluster_counted. intros H.
  apply bind_Ret in H as ([q1 n1] & H & [= <-]).
  apply bind_Ret in H as (c & _ & H).
  apply bind_Ret in H as ([l n] & H & [= <- _]).
  apply mean_cluster_loop_length in H. done.
Qed.

(** C10: [Image] with a count above 256 is [Image] with 256, and the
    palette of a returned image never has more than 256 entries. *)
Theorem C10_mean_Image_clamps_count (img : Image) (n : Z) :
  (256 < n -> Mean.Image img n = Mean.Image img 256) /\
  (forall pi, Mean.Image img n = Ret pi -> (length (Palette pi) <= 256)%nat).
Proof.
  split.
  - intros Hn. unfold Mean.Image.
    destruct (Z.gtb_spec n 256); [|lia]. reflexivity.
  - intros pi H. unfold Mean.Image in H.
    set (n' := if n >? 256 then 256 else n) in H.
    assert (n' <= 256) by (subst n'; destruct (Z.gtb_spec n 256); lia).
    apply bind_Ret in H as (q & Hq & H).
    apply bind_Ret in H as (q' & Hq' & H).
    apply mean_newQuantizer_length in Hq as [_ Hl].
    apply paletted_of_length in H. rewrite H, length_fmap.
    assert (length (Mean.cs q') <= length (Mean.cs q))%nat.
    { destruct (n' >? 1).
      - by apply mean_cluster_run_length in Hq' as [_ ?].
      - by injection Hq' as <-. }
    unfold len in Hl. lia.
Qed.

Lemma C10_mean_Image_clamps_count_witness :
  256 < 300 /\
  Mean.Image img_rrgb 300 = Mean.Image img_rrgb 256 /\
  (forall pi, Mean.Image img_rrgb 300 = Ret pi -> (length (Palette pi) <= 256)%nat).
Proof.
  split; [lia|].
  destruct (C10_mean_Image_clamps_count img_rrgb 300) as [H1 H2].
  split; [apply H1; lia | exact H2].
Defined.

(** ** C3: images with empty bounds *)

Lemma int_0 : int 0 = 0.
Proof. reflexivity. Qed.

Lemma npx_of_zero_area (b : Rectangle) : zero_area b -> npx_of b = 0.
Proof.
  unfold zero_area, Dx, Dy, npx_of. intros [-> | ->].
  - reflexivity.
  - rewrite int_0, Z.mul_0_r. reflexivity.
Qed.

Lemma coords_zero_area (b : Rectangle) : zero_area b -> coords b = [].
Proof.
  unfold zero_area, Dx, Dy, coords. intros [-> | ->].
  - induction (seqZ (MinY b) (MaxY b - MinY b)) as [|y l IH]; [done|].
    cbn. rewrite (seqZ_nil (MinX b) 0) by lia. cbn. exact IH.
  - rewrite (seqZ_nil (MinY b) 0) by lia. reflexivity.
Qed.

Lemma paletted_of_empty_cluster (img : Image) (pxs : list (list point)) :
  paletted_of img ([] :: pxs) = Panic DivideByZero.
Proof. reflexivity. Qed.

Lemma idx_0_cons {A} (a : A) (l : list A) : idx (a :: l) 0 = Ret a.
Proof. apply idx_Ret. split; [lia|done]. Qed.

Lemma slice_to_ok {A} (l : list A) (i : Z) :
  0 <= i <= len l -> slice_to l i = Ret (take (Z.to_nat i) l).
Proof. intros H. by apply slice_to_Ret. Qed.

Lemma median_cluster_loop_empty (f : nat) (q : Median.quantizer) (c : nat) (i : Z) (n : nat) :
  Median.px (Median.cs q !!! c) = [] ->
  Median.cluster_loop (S f) q [] c i n =
    (l ← slice_to (<[c := Median.mkCluster [] wg]> (Median.cs q)) i;
     Ret (Median.mkQuantizer (Median.img q) l (Median.ch q), n)).
Proof.
  intros H. cbn [Median.cluster_loop].
  destruct (Median.cs q !!! c) as [px w]. cbn in H. subst px. reflexivity.
Qed.

Lemma median_Quantize_zero_area (img : Image) (n : Z) :
  well_formed (Bounds img) -> zero_area (Bounds img) -> 1 <= n ->
  Median.Quantize img n = Panic DivideByZero.
Proof.
  intros _ Hz Hn. unfold Median.Quantize, Median.newQuantizer.
  rewrite npx_of_zero_area, coords_zero_area by done.
  rewrite (make_Ret (A:=Z)), (make_Ret Median.cluster0) by lia.
  destruct (Z.to_nat n) as [|k] eqn:Ek; [lia|].
  change (make (0, 0) 0) with (Ret ([] : list point)).
  cbn [replicate mbind result_bind Go.bind fill]. rewrite idx_0_cons.
  cbn [mbind result_bind Go.bind list_insert insert].
  unfold Median.cluster_run, Median.cluster_counted.
  cbn [Median.cs length]. rewrite idx_0_cons.
  cbn [mbind result_bind Go.bind].
  rewrite median_cluster_loop_empty by reflexivity.
  rewrite slice_to_ok by (unfold len; cbn; lia).
  reflexivity.
Qed.

Lemma mean_setPriority_empty (img : Image) (c : Mean.cluster) (early : bool) :
  Mean.px c = [] ->
  Mean.max (Mean.setPriority img c early) = 0 /\
  Mean.min (Mean.setPriority img c early) = MaxUint32 /\
  Mean.px (Mean.setPriority img c early) = [].
Proof.
  intros H. unfold Mean.setPriority. rewrite H. cbn. done.
Qed.

Lemma mean_cluster_loop_empty (f : nat) (img : Image) (c : Mean.cluster)
    (cs : list Mean.cluster) (half : Z) (n : nat) :
  Mean.px c = [] ->
  Mean.cluster_loop (S f) img (c :: cs) half 0 n =
    Ret ([Mean.setPriority img c (0 <? half)], n).
Proof.
  intros H. cbn [Mean.cluster_loop].
  change (Z.to_nat 0) with 0%nat.
  cbn [list_insert insert lookup_total list_lookup_total].
  destruct (mean_setPriority_empty img c (0 <? half) H) as (Hmax & Hmin & _).
  unfold Mean.select. change (seqZ 0 (0 + 1)) with [0].
  cbn [fold_left]. change (Z.to_nat 0) with 0%nat.
  cbn [lookup_total list_lookup_total]. rewrite Hmax, Hmin.
  cbn [Z.gtb Z.compare andb MaxUint32].
  change (0 >? MaxUint32) with false. cbn [andb].
  change (-1 <? 0) with true. cbv iota.
  rewrite slice_to_ok by (unfold len; cbn; lia). reflexivity.
Qed.

Lemma mean_Image_zero_area (img : Image) (n : Z) :
  well_formed (Bounds img) -> zero_area (Bounds img) -> 1 <= n ->
  Mean.Image img n = Panic DivideByZero.
Proof.
  intros _ Hz Hn. unfold Mean.Image.
  set (n' := if n >? 256 then 256 else n).
  assert (Hn' : 1 <= n') by (subst n'; destruct (Z.gtb_spec n 256); lia).
  clearbody n'. unfold Mean.newQuantizer.
  destruct (Z.ltb_spec n' 1); [lia|].
  rewrite npx_of_zero_area, coords_zero_area by done.
  rewrite (make_Ret Mean.cluster0) by lia.
  destruct (Z.to_nat n') as [|k] eqn:Ek; [lia|].
  change (make (0, 0) 0) with (Ret ([] : list point)).
  cbn [replicate mbind result_bind Go.bind fill]. rewrite idx_0_cons.
  cbn [mbind result_bind Go.bind list_insert insert].
  destruct (n' >? 1); [|reflexivity].
  unfold Mean.cluster_run, Mean.cluster_counted.
  cbn [Mean.cs Mean.img length]. rewrite idx_0_cons.
  cbn [mbind result_bind Go.bind].
  rewrite mean_cluster_loop_empty by reflexivity.
  cbn [mbind result_bind Go.bind]. unfold Mean.paletted.
  cbn [Mean.cs Mean.img fmap list_fmap].
  match goal with
  | |- context [Mean.px (Mean.setPriority img ?c ?e)] =>
      rewrite (proj2 (proj2 (mean_setPriority_empty img c e eq_refl)))
  end.
  reflexivity.
Qed.

Lemma Dither_zero_area (Index : list RGB -> RGB -> Z) (img : Image) (cp : list RGB) :
  well_formed (Bounds img) -> zero_area (Bounds img) -> len cp <= 256 ->
  Dither.Dither Index img cp = Ret (Some (NewPaletted (Bounds img) cp)) /\
  Dither.dither211 Index img cp = Ret (Some (NewPaletted (Bounds img) cp)) /\
  Pix (NewPaletted (Bounds img) cp) = [].
Proof.
  intros _ Hz Hl. unfold Dither.Dither, Dither.dither211.
  destruct (Z.gtb_spec (len cp) 256); [lia|].
  assert (E : (MaxY (Bounds img) - MinY (Bounds img) =? 0)
              || (MaxX (Bounds img) - MinX (Bounds img) =? 0) = true).
  { unfold zero_area, Dx, Dy in Hz. destruct Hz as [-> | ->]; cbn.
    - apply orb_true_r.
    - reflexivity. }
  rewrite E. repeat split. cbn.
  replace (Dx (Bounds img) * Dy (Bounds img)) with 0; [done|].
  destruct Hz as [-> | ->]; lia.
Qed.

(** C3 on the code: with well-formed empty bounds and a count of at least
    1, both [paletted] functions divide by [len(px) << 8 = 0] for the one,
    empty, cluster, and [Quantize] and [Image] panic; [Dither] and
    [dither211] test for empty bounds and return the empty image. *)
Theorem C3_zero_area_image (Index : list RGB -> RGB -> Z) (img : Image) (n : Z)
    (cp : list RGB) :
  well_formed (Bounds img) -> zero_area (Bounds img) -> 1 <= n -> len cp <= 256 ->
  Median.Quantize img n = Panic DivideByZero /\
  Mean.Image img n = Panic DivideByZero /\
  Dither.Dither Index img cp = Ret (Some (NewPaletted (Bounds img) cp)) /\
  Dither.dither211 Index img cp = Ret (Some (NewPaletted (Bounds img) cp)) /\
  Pix (NewPaletted (Bounds img) cp) = [].
Proof.
  intros Hw Hz Hn Hl. split; [by apply median_Quantize_zero_area|].
  split; [by apply mean_Image_zero_area|].
  by apply Dither_zero_area.
Qed.

Lemma C3_zero_area_image_witness :
  well_formed (Bounds img_empty) /\
  zero_area (Bounds img_empty) /\ 1 <= 2 /\ len [mkRGB 0 0 0] <= 256 /\
  Median.Quantize img_empty 2 = Panic DivideByZero /\
  Mean.Image img_empty 2 = Panic DivideByZero /\
  Dither.Dither (fun _ _ => 0) img_empty [mkRGB 0 0 0]
    = Ret (Some (NewPaletted (Bounds img_empty) [mkRGB 0 0 0])).
Proof.
  assert (Hw : well_formed (Bounds img_empty)) by (split; cbn; lia).
  assert (Hz : zero_area (Bounds img_empty)) by (left; reflexivity).
  assert (Hl : len [mkRGB 0 0 0] <= 256) by (vm_compute; discriminate).
  destruct (C3_zero_area_image (fun _ _ => 0) img_empty 2 [mkRGB 0 0 0] Hw Hz
              ltac:(lia) Hl) as (H1 & H2 & H3 & _).
  split; [exact Hw|]. split; [exact Hz|]. split; [lia|]. split; [exact Hl|].
  split; [exact H1|]. split; [exact H2 | exact H3].
Defined.

(** ** C6: the index a nearest-colour query returns *)

Lemma index_from_range (p : Palette.sPalette) (c : Palette.sRGB) :
  forall j i min,
    Palette.index_from p c j i min = i \/
    j <= Palette.index_from p c j i min < j + len p.
Proof.
  induction p as [|pc p IH]; intros j i min; cbn; [by left|].
  unfold len in *. cbn [length]. destruct (_ <? min).
  - right. destruct (IH (j + 1) j (Palette.sqdist c pc)) as [-> | H]; lia.
  - destruct (IH (j + 1) i min) as [-> | H]; [by left | right; lia].
Qed.

(** On a tree without nil child the descent ends in a leaf, whatever the
    node types and the thresholds are. *)
Lemma tree_search_full (r g b : Z) (t : Palette.TreePalette) :
  full t ->
  forall lt, exists ix col sp lo hi,
    Palette.s r g b lt t = Ret (Palette.Node Palette.TLeaf ix col sp lo hi) /\
    (ix, col) ∈ leaves t.
Proof.
  induction t as [|ty ix col sp lo IHlo hi IHhi]; cbn; [done|].
  intros Hf lt.
  destruct (Z.eqb_spec ty Palette.TLeaf) as [->|Hne].
  - exists ix, col, sp, lo, hi. split; [done | by apply list_elem_of_singleton].
  - destruct Hf as [->|[Flo Fhi]]; [done|].
    match goal with |- context [if ?b then Palette.s _ _ _ _ lo else _] => destruct b end.
    + destruct (IHlo Flo true) as (ix' & col' & sp' & lo' & hi' & E & Hin).
      exists ix', col', sp', lo', hi'. split; [exact E|]. apply elem_of_app. by left.
    + destruct (IHhi Fhi false) as (ix' & col' & sp' & lo' & hi' & E & Hin).
      exists ix', col', sp', lo', hi'. split; [exact E|]. apply elem_of_app. by right.
Qed.

(** C6, as stated, fails: on the empty palette the scan returns 0, which is
    no index of it; on the nil tree [IndexNear] returns -1; a tree returns
    whatever index its leaf stores. *)
Lemma C6_index_not_always_valid :
  Palette.index [] (Palette.mksRGB 0 0 0) = 0 /\
  ~ (0 <= Palette.index [] (Palette.mksRGB 0 0 0) < len ([] : Palette.sPalette)) /\
  Palette.IndexNear Palette.Nil (mkRGB 0 0 0) = Ret (-1) /\
  (let t := Palette.Node Palette.TLeaf 7 (mkRGB 0 0 0) 0 Palette.Nil Palette.Nil in
   Palette.ColorPalette t = Ret [mkRGB 0 0 0] /\
   Palette.IndexNear t (mkRGB 0 0 0) = Ret 7).
Proof.
  repeat split; try reflexivity. vm_compute. intros [_ H]. discriminate.
Qed.

(** C6 (amended): on every non-empty palette [sPalette.index] returns a
    valid index for every colour; [TreePalette.IndexNear] returns -1 on the
    nil tree, and on a tree without nil children ([full], whatever the types
    and thresholds of its nodes) it returns the index stored in one of the
    tree's leaves, hence a valid index whenever the leaves store valid
    indices. *)
Theorem C6_nearest_index_valid :
  (forall (p : Palette.sPalette) (c : Palette.sRGB),
      p <> [] -> 0 <= Palette.index p c < len p) /\
  (forall c, Palette.IndexNear Palette.Nil c = Ret (-1)) /\
  (forall (t : Palette.TreePalette) (c : RGB) (size : Z),
      full t ->
      Forall (fun l => 0 <= l.1 < size) (leaves t) ->
      exists i, Palette.IndexNear t c = Ret i /\ i ∈ (fst <$> leaves t) /\ 0 <= i < size).
Proof.
  split; [|split].
  - intros p c Hp. unfold Palette.index.
    assert (0 < len p) by (destruct p; [done | unfold len; cbn; lia]).
    destruct (index_from_range p c 0 0 MaxInt64) as [-> | H']; lia.
  - reflexivity.
  - intros t c size St Hv.
    destruct (tree_search_full (cr c) (cg c) (cb c) t St false)
      as (ix & col & sp & lo & hi & E & Hin).
    exists ix. split; [|split].
    + unfold Palette.IndexNear, Palette.search. destruct t; [done|].
      rewrite E. reflexivity.
    + apply list_elem_of_fmap. exists (ix, col). done.
    + rewrite Forall_forall in Hv. exact (Hv _ Hin).
Qed.

Lemma C6_nearest_index_valid_witness :
  spal2 <> [] /\
  0 <= Palette.index spal2 (Palette.mksRGB 60 0 0) < len spal2 /\
  full tree2 /\
  (exists i, Palette.IndexNear tree2 (mkRGB 60 0 0) = Ret i /\ 0 <= i < 2).
Proof.
  destruct C6_nearest_index_valid as (H1 & _ & H3).
  assert (S2 : full tree2).
  { right. split; left; reflexivity. }
  split; [discriminate|]. split; [apply H1; discriminate|].
  split; [exact S2|].
  destruct (H3 tree2 (mkRGB 60 0 0) 2 S2) as (i & E & _ & Hi).
  - repeat constructor; cbn; lia.
  - exists i. done.
Defined.

(** ** C5: the linear scan and the tree descent *)

Lemma int32_small (z : Z) : - 2 ^ 31 <= z < 2 ^ 31 -> int32 z = z.
Proof.
  intros H. unfold int32, swrap.
  change (2 ^ (32 - 1)) with (2 ^ 31). rewrite Z.mod_small; lia.
Qed.

Lemma int64_small (z : Z) : - 2 ^ 63 <= z < 2 ^ 63 -> int64 z = z.
Proof.
  intros H. unfold int64, swrap.
  change (2 ^ (64 - 1)) with (2 ^ 63). rewrite Z.mod_small; lia.
Qed.

Lemma sqdist_dist2 (c d : RGB) :
  rgb_ok c -> rgb_ok d -> Palette.sqdist (to_sRGB c) (to_sRGB d) = dist2 c d.
Proof.
  unfold rgb_ok, chan_ok. intros (Hr & Hg & Hb) (Hr' & Hg' & Hb').
  unfold Palette.sqdist, to_sRGB, dist2. cbn.
  rewrite !(int32_small (cr _)), !(int32_small (cg _)), !(int32_small (cb _)) by lia.
  rewrite !(int32_small (_ - _)) by lia.
  rewrite !(int64_small (_ - _)) by lia.
  assert (Hsq : forall z, -65535 <= z <= 65535 -> 0 <= z * z <= 65535 * 65535) by (intros; nia).
  pose proof (Hsq (cr c - cr d) ltac:(lia)).
  pose proof (Hsq (cg c - cg d) ltac:(lia)).
  pose proof (Hsq (cb c - cb d) ltac:(lia)).
  rewrite !(int64_small (_ * _)) by lia.
  rewrite (int64_small ((cr c - cr d) * (cr c - cr d) + (cg c - cg d) * (cg c - cg d))) by lia.
  rewrite int64_small by lia.
  rewrite !Z.pow_2_r. reflexivity.
Qed.

Lemma dist2_nonneg (c d : RGB) : 0 <= dist2 c d.
Proof. unfold dist2. nia. Qed.

Lemma dist2_zero (c d : RGB) : dist2 c d = 0 <-> c = d.
Proof.
  unfold dist2. split.
  - intros H. destruct c as [r g b], d as [r' g' b']. cbn in H.
    assert (r = r') by nia. assert (g = g') by nia. assert (b = b') by nia.
    congruence.
  - intros ->. lia.
Qed.

(** no entry at least as near as [min]: the scan keeps its choice *)
Lemma index_from_keep (p : Palette.sPalette) (c : Palette.sRGB) :
  forall j i min,
    Forall (fun pc => min <= Palette.sqdist c pc) p ->
    Palette.index_from p c j i min = i.
Proof.
  induction p as [|pc p IH]; intros j i min H; cbn; [done|].
  apply Forall_cons in H as [H1 H2].
  destruct (Z.ltb_spec (Palette.sqdist c pc) min); [lia|]. by apply IH.
Qed.

(** an entry at distance 0, all entries before it farther: the scan returns
    its position *)
Lemma index_from_exact (l1 : Palette.sPalette) (x : Palette.sRGB)
    (l2 : Palette.sPalette) (c : Palette.sRGB) :
  Palette.sqdist c x = 0 ->
  Forall (fun pc => 0 < Palette.sqdist c pc) l1 ->
  Forall (fun pc => 0 <= Palette.sqdist c pc) l2 ->
  forall j i min, 0 < min ->
    Palette.index_from (l1 ++ x :: l2) c j i min = j + len l1.
Proof.
  intros Hx H1 H2. induction l1 as [|y l1 IH]; intros j i min Hmin; cbn.
  - rewrite Hx. destruct (Z.ltb_spec 0 min); [|lia].
    rewrite index_from_keep by done. unfold len. cbn. lia.
  - apply Forall_cons in H1 as [Hy H1].
    unfold len. cbn [length]. destruct (_ <? min).
    + rewrite IH by done. unfold len. lia.
    + rewrite IH by done. unfold len. lia.
Qed.

Lemma tree_search_exact (t : Palette.TreePalette) (c : RGB) :
  separating t ->
  (exists ix, (ix, c) ∈ leaves t) ->
  forall lt, exists ix sp lo hi,
    Palette.s (cr c) (cg c) (cb c) lt t = Ret (Palette.Node Palette.TLeaf ix c sp lo hi) /\
    (ix, c) ∈ leaves t.
Proof.
  induction t as [|ty ix col sp lo IHlo hi IHhi]; cbn; [done|].
  intros [-> | (w & Hw & Hlo & Hhi & Slo & Shi)] [ix0 Hin] lt.
  - cbn in Hin. apply list_elem_of_singleton in Hin as [= -> ->].
    exists ix, sp, lo, hi. cbn. split; [done | by apply list_elem_of_singleton].
  - destruct (Z.eqb_spec ty Palette.TLeaf) as [->|Hne]; [discriminate|].
    assert (Hlt : (if ty =? Palette.TSplitR then cr c <? sp
                   else if ty =? Palette.TSplitG then cg c <? sp
                   else if ty =? Palette.TSplitB then cb c <? sp else lt)
                  = (channel w c <? sp)).
    { unfold axis in Hw.
      destruct (ty =? Palette.TSplitR); [by injection Hw as <-|].
      destruct (ty =? Palette.TSplitG); [by injection Hw as <-|].
      destruct (ty =? Palette.TSplitB); [by injection Hw as <-|]. discriminate. }
    rewrite Hlt. apply elem_of_app in Hin as [Hin | Hin].
    + rewrite Forall_forall in Hlo. pose proof (Hlo _ Hin) as Hc. cbn in Hc.
      destruct (Z.ltb_spec (channel w c) sp); [|lia].
      destruct (IHlo Slo (ex_intro (fun ix => (ix, c) ∈ leaves lo) ix0 Hin) true) as (ix' & sp' & lo' & hi' & E & Hin').
      exists ix', sp', lo', hi'. split; [exact E|]. apply elem_of_app. by left.
    + rewrite Forall_forall in Hhi. pose proof (Hhi _ Hin) as Hc. cbn in Hc.
      destruct (Z.ltb_spec (channel w c) sp); [lia|].
      destruct (IHhi Shi (ex_intro (fun ix => (ix, c) ∈ leaves hi) ix0 Hin) false) as (ix' & sp' & lo' & hi' & E & Hin').
      exists ix', sp', lo', hi'. split; [exact E|]. apply elem_of_app. by right.
Qed.

Lemma entries_lookup (p : list RGB) (i : Z) (c : RGB) :
  (i, c) ∈ entries p <-> 0 <= i /\ p !! Z.to_nat i = Some c.
Proof.
  unfold entries. rewrite list_elem_of_lookup. split.
  - intros [k Hk]. rewrite list_lookup_imap in Hk.
    destruct (p !! k) eqn:E; [|done]. cbn in Hk. injection Hk as <- <-.
    split; [lia|]. by rewrite Nat2Z.id.
  - intros [Hi Hl]. exists (Z.to_nat i). rewrite list_lookup_imap, Hl. cbn.
    f_equal. f_equal. lia.
Qed.

(** C5, as stated, fails: the descent follows the thresholds and never
    looks at a distance.  For the palette [(0,0,0); (100,0,0)] and its tree
    split on red at 100, the colour (60,0,0) is nearest to entry 1 alone,
    the scan returns 1 and the tree returns 0. *)
Lemma C5_tree_descent_is_not_nearest :
  pal2 <> [] /\ corresponds tree2 pal2 /\
  unique_nearest pal2 (mkRGB 60 0 0) 1 /\
  Palette.index spal2 (to_sRGB (mkRGB 60 0 0)) = 1 /\
  Palette.IndexNear tree2 (mkRGB 60 0 0) = Ret 0.
Proof.
  split; [discriminate|]. split; [unfold corresponds; reflexivity|].
  split; [|split; reflexivity].
  exists (mkRGB 100 0 0). split; [reflexivity|].
  intros [|[|j]] e He Hj; cbn in He; try done.
  injection He as <-. vm_compute. reflexivity.
Qed.

(** C5 (amended): for every non-empty palette of colours with channels in
    range, every tree without nil children whose leaves correspond
    one-to-one to the palette's entries and whose every split separates the
    colours of its two subtrees, and every query colour that is itself entry
    [i] of the palette and no other entry, the linear scan and the tree
    descent both return [i]. *)
Theorem C5_scan_and_tree_agree_on_palette_colours
    (p : list RGB) (t : Palette.TreePalette) (i : nat) (c : RGB) :
  Forall rgb_ok p ->
  corresponds t p ->
  separating t ->
  p !! i = Some c ->
  (forall j, p !! j = Some c -> j = i) ->
  Palette.index (to_sRGB <$> p) (to_sRGB c) = Z.of_nat i /\
  Palette.IndexNear t c = Ret (Z.of_nat i).
Proof.
  intros Hok Hcor Hsep Hi Huniq. split.
  - apply list_elem_of_split_length in Hi as (l1 & l2 & -> & ->).
    rewrite fmap_app, fmap_cons. unfold Palette.index.
    apply Forall_app in Hok as [Hok1 Hok2]. apply Forall_cons in Hok2 as [Hc Hok2].
    rewrite index_from_exact.
    + unfold len. rewrite length_fmap. lia.
    + rewrite sqdist_dist2 by done. by apply dist2_zero.
    + apply Forall_fmap, Forall_lookup_2. intros k d Hk. cbn.
      assert (rgb_ok d) by exact (Forall_lookup_1 _ _ _ _ Hok1 Hk).
      rewrite sqdist_dist2 by done.
      pose proof (dist2_nonneg c d).
      assert (dist2 c d <> 0); [|lia]. rewrite dist2_zero. intros <-.
      assert (k = length l1); [|apply lookup_lt_Some in Hk; lia].
      apply Huniq. rewrite lookup_app_l by (by eapply lookup_lt_Some). done.
    + apply Forall_fmap, Forall_lookup_2. intros k d Hk. cbn.
      assert (rgb_ok d) by exact (Forall_lookup_1 _ _ _ _ Hok2 Hk).
      rewrite sqdist_dist2 by done.
      apply dist2_nonneg.
    + done.
  - assert (Hin : (Z.of_nat i, c) ∈ leaves t).
    { rewrite Hcor. apply entries_lookup. split; [lia|]. by rewrite Nat2Z.id. }
    destruct (tree_search_exact t c Hsep (ex_intro (fun ix => (ix, c) ∈ leaves t) _ Hin) false)
      as (ix & sp & lo & hi & E & Hin').
    unfold Palette.IndexNear, Palette.search. destruct t; [done|].
    rewrite E. cbn. f_equal.
    rewrite Hcor in Hin'. apply entries_lookup in Hin' as [Hix Hl].
    apply Huniq in Hl. lia.
Qed.

Lemma C5_scan_and_tree_agree_on_palette_colours_witness :
  Forall rgb_ok pal2 /\ corresponds tree2 pal2 /\ separating tree2 /\
  Palette.index (to_sRGB <$> pal2) (to_sRGB (mkRGB 100 0 0)) = 1 /\
  Palette.IndexNear tree2 (mkRGB 100 0 0) = Ret 1.
Proof.
  assert (Hok : Forall rgb_ok pal2).
  { repeat constructor; cbn; lia. }
  assert (S2 : separating tree2).
  { right. exists wr. split; [reflexivity|].
    split; [repeat constructor|]. split; [repeat constructor; cbn; lia|].
    split; left; reflexivity. }
  assert (Hc : corresponds tree2 pal2) by (unfold corresponds; reflexivity).
  split; [exact Hok|]. split; [exact Hc|]. split; [exact S2|].
  apply (C5_scan_and_tree_agree_on_palette_colours pal2 tree2 1 (mkRGB 100 0 0) Hok Hc S2).
  - reflexivity.
  - intros [|[|j]] Hj; cbn in Hj; try done.
Defined.

(** ** C4: what the ditherers do with the residual of a pixel *)

Lemma int_range (z : Z) : - 2 ^ 63 <= int z < 2 ^ 63.
Proof.
  unfold int, swrap. change (2 ^ (64 - 1)) with (2 ^ 63).
  pose proof (Z.mod_pos_bound (z + 2 ^ 63) (2 ^ 64) ltac:(lia)). lia.
Qed.

Lemma int_small (z : Z) : - 2 ^ 63 <= z < 2 ^ 63 -> int z = z.
Proof. apply int64_small. Qed.

Lemma quot2_bounds (e : Z) :
  (0 <= e -> 0 <= Z.quot e 2 <= e /\ e - 1 <= 2 * Z.quot e 2 <= e) /\
  (e <= 0 -> e <= Z.quot e 2 <= 0 /\ e <= 2 * Z.quot e 2 <= e + 1).
Proof. Z.to_euclidean_division_equations. lia. Qed.

(** the three parts of a residual in [int] range add up to it *)
Lemma diffuse211_exact (e : Z) :
  - 2 ^ 63 <= e < 2 ^ 63 ->
  Dither.rest e = e - Dither.right e /\
  Dither.below e = Dither.rest e - Dither.diag e /\
  Dither.right e + Dither.diag e + Dither.below e = e.
Proof.
  intros He. unfold Dither.below, Dither.diag, Dither.rest, Dither.right.
  pose proof (quot2_bounds e) as [Hp Hn].
  assert (Hr : int (e - Z.quot e 2) = e - Z.quot e 2) by (apply int_small; lia).
  rewrite Hr.
  pose proof (quot2_bounds (e - Z.quot e 2)) as [Hp' Hn'].
  rewrite int_small by lia. lia.
Qed.

Lemma channel_map3 (w : wconst) (f : Z -> Z) (c : RGB) :
  channel w (Dither.map3 f c) = f (channel w c).
Proof. by destruct w. Qed.

Lemma channel_zip3 (w : wconst) (f : Z -> Z -> Z) (c d : RGB) :
  channel w (Dither.zip3 f c d) = f (channel w c) (channel w d).
Proof. by destruct w. Qed.

(** one step of the diffusion of [dither211], cell by cell *)
Lemma dither211_diffuse_cells (rt pc : RGB) (dn : list RGB) (dx : Z) :
  0 <= dx -> dx + 1 < len dn ->
  exists d0,
    dn !! Z.to_nat dx = Some d0 /\
    Dither.dither211_diffuse rt pc dn dx =
      Ret (Dither.map3 Dither.right (Dither.zip3 Dither.residual rt pc),
           <[Z.to_nat dx := Dither.zip3 (fun a b => int (a + b)) d0
                              (Dither.map3 Dither.below (Dither.zip3 Dither.residual rt pc))]>
             (<[Z.to_nat (dx + 1) :=
                  Dither.map3 Dither.diag (Dither.zip3 Dither.residual rt pc)]> dn)).
Proof.
  intros H0 H1. unfold Dither.dither211_diffuse.
  destruct (idx_lt dn (dx + 1) ltac:(lia)) as (d1 & E1 & L1). rewrite E1. cbn.
  destruct (idx_lt dn dx ltac:(lia)) as (d0 & E0 & L0).
  exists d0. split; [done|].
  assert (E : idx (<[Z.to_nat (dx + 1) :=
                  Dither.map3 Dither.diag (Dither.zip3 Dither.residual rt pc)]> dn) dx = Ret d0).
  { apply idx_Ret. split; [lia|]. rewrite list_lookup_insert_ne by lia. done. }
  rewrite E. reflexivity.
Qed.

(** one step of the diffusion of [Dither], cell by cell *)
Lemma Dither_diffuse_cells (rt pc : RGB) (dn : list RGB) (x : Z) :
  0 <= x -> x + 1 < len dn ->
  exists d0,
    dn !! Z.to_nat x = Some d0 /\
    Dither.Dither_diffuse rt pc dn x =
      Ret (Dither.zip3 Dither.right16 rt pc,
           <[Z.to_nat x := Dither.zip3 (fun a b => uint16 (a + b)) d0
                             (Dither.map3 Dither.down16 (Dither.zip3 Dither.right16 rt pc))]>
             (<[Z.to_nat (x + 1) :=
                  Dither.map3 Dither.down16 (Dither.zip3 Dither.right16 rt pc)]> dn)).
Proof.
  intros H0 H1. unfold Dither.Dither_diffuse.
  destruct (idx_lt dn (x + 1) ltac:(lia)) as (d1 & E1 & L1). rewrite E1. cbn.
  set (dn1 := <[Z.to_nat (x + 1) := _]> dn).
  assert (E1' : idx dn1 (x + 1) =
                Ret (Dither.map3 Dither.down16 (Dither.zip3 Dither.right16 rt pc))).
  { apply idx_Ret. split; [lia|]. subst dn1. apply list_lookup_insert_eq.
    unfold len in H1. lia. }
  rewrite E1'. cbn.
  destruct (idx_lt dn x ltac:(lia)) as (d0 & E0 & L0).
  exists d0. split; [done|].
  assert (E : idx dn1 x = Ret d0).
  { apply idx_Ret. split; [lia|]. subst dn1. rewrite list_lookup_insert_ne by lia. done. }
  rewrite E. reflexivity.
Qed.

(** what [Dither] sends on, in terms of the adjusted channel [a] and the
    palette channel [p] *)
Lemma right16_cases (a p : Z) :
  0 <= a <= 65535 ->
  let r := Dither.right16 a p in
  (a < uint16 p -> r = 0) /\
  (uint16 p <= a ->
     r = Z.quot (a - uint16 p) 2 /\
     a - uint16 p - 2 <= r + Dither.down16 r + Dither.down16 r <= a - uint16 p).
Proof.
  intros Ha. cbv zeta. unfold Dither.right16, Dither.down16.
  assert (Hp : 0 <= uint16 p < 65536).
  { unfold uint16, wrap. apply Z.mod_pos_bound. lia. }
  destruct (Z.gtb_spec (uint16 p) a).
  - split; [done | lia].
  - split; [lia|]. intros _.
    assert (E : uint16 (a - uint16 p) = a - uint16 p).
    { unfold uint16 at 1, wrap. apply Z.mod_small. lia. }
    rewrite E. split; [done|].
    pose proof (quot2_bounds (a - uint16 p)) as [Hq _].
    pose proof (quot2_bounds (Z.quot (a - uint16 p) 2)) as [Hq' _].
    lia.
Qed.

(** C4, as stated, fails for [Dither]: of an adjusted channel 3 against a
    palette channel 0 it sends 1 to the right and nothing down (1 + 0 + 0,
    not 3), and of a negative residual (0 against 5) it sends nothing.  And
    in [dither211] the diagonal cell is assigned, not added to: what the row
    above left there (25 in the second conjunct's buffer) is gone. *)
Lemma C4_residual_not_conserved :
  Dither.Dither_diffuse (mkRGB 3 3 3) (mkRGB 0 0 0) [Dither.zeroRGB; Dither.zeroRGB] 0
    = Ret (mkRGB 1 1 1, [Dither.zeroRGB; Dither.zeroRGB]) /\
  Dither.Dither_diffuse (mkRGB 0 0 0) (mkRGB 5 5 5) [Dither.zeroRGB; Dither.zeroRGB] 0
    = Ret (Dither.zeroRGB, [Dither.zeroRGB; Dither.zeroRGB]) /\
  Dither.dither211_diffuse (mkRGB 25 25 25) (mkRGB 0 0 0)
      [Dither.zeroRGB; mkRGB 25 25 25; Dither.zeroRGB] 0
    = Ret (mkRGB 12 12 12, [mkRGB 7 7 7; mkRGB 6 6 6; Dither.zeroRGB]) /\
  ~ (forall (rt pc : RGB) (dn dn' : list RGB) (rt' d0 d0' d1' : RGB),
       Dither.Dither_diffuse rt pc dn 0 = Ret (rt', dn') ->
       dn !! 0%nat = Some d0 -> dn' !! 0%nat = Some d0' -> dn' !! 1%nat = Some d1' ->
       cr rt' + cr d1' + (cr d0' - cr d0) = cr rt - cr pc).
Proof.
  split; [reflexivity|]. split; [reflexivity|]. split; [reflexivity|].
  intros H.
  specialize (H (mkRGB 3 3 3) (mkRGB 0 0 0) [Dither.zeroRGB; Dither.zeroRGB]
                [Dither.zeroRGB; Dither.zeroRGB] (mkRGB 1 1 1)
                Dither.zeroRGB Dither.zeroRGB Dither.zeroRGB
                eq_refl eq_refl eq_refl eq_refl).
  cbn in H. discriminate.
Qed.

(** C4 (amended): for every processed pixel and every channel, the signed
    [dither211] redistributes the residual [e] (adjusted colour minus chosen
    palette colour) exactly: the amount carried right, the amount assigned
    to the diagonal cell of the next-row buffer and the amount added to the
    cell directly below sum to [e].  The unsigned [Dither] carries right
    half of a non-negative residual, truncated, and sends a quarter each to
    the diagonal cell and the cell below, at most 2 short of the residual in
    total; of a negative residual it sends nothing. *)
Theorem C4_residual_distribution (rt pc : RGB) (dn : list RGB) (dx : Z) (w : wconst) :
  0 <= dx -> dx + 1 < len dn ->
  (exists rt' dn' d0 d0' d1',
      Dither.dither211_diffuse rt pc dn dx = Ret (rt', dn') /\
      dn !! Z.to_nat dx = Some d0 /\
      dn' !! Z.to_nat dx = Some d0' /\ dn' !! Z.to_nat (dx + 1) = Some d1' /\
      let e := Dither.residual (channel w rt) (channel w pc) in
      channel w rt' = Dither.right e /\
      channel w d1' = Dither.diag e /\
      channel w d0' = int (channel w d0 + Dither.below e) /\
      Dither.right e + Dither.diag e + Dither.below e = e) /\
  (rgb_ok rt ->
   exists rt' dn' d0 d0' d1',
      Dither.Dither_diffuse rt pc dn dx = Ret (rt', dn') /\
      dn !! Z.to_nat dx = Some d0 /\
      dn' !! Z.to_nat dx = Some d0' /\ dn' !! Z.to_nat (dx + 1) = Some d1' /\
      let a := channel w rt in
      let p := uint16 (channel w pc) in
      let r := channel w rt' in
      channel w d1' = Dither.down16 r /\
      channel w d0' = uint16 (channel w d0 + Dither.down16 r) /\
      (a < p -> r = 0 /\ Dither.down16 r = 0) /\
      (p <= a -> r = Z.quot (a - p) 2 /\
                 a - p - 2 <= r + Dither.down16 r + Dither.down16 r <= a - p)).
Proof.
  intros H0 H1. unfold len in H1. split.
  - destruct (dither211_diffuse_cells rt pc dn dx H0 H1) as (d0 & L0 & E).
    eexists _, _, d0, _, _. split; [exact E|]. split; [exact L0|].
    split; [apply list_lookup_insert_eq; rewrite length_insert; lia|].
    split; [rewrite list_lookup_insert_ne by lia;
            apply list_lookup_insert_eq; lia|].
    cbv zeta. rewrite !channel_map3, !channel_zip3, !channel_map3, !channel_zip3.
    repeat split.
    apply diffuse211_exact, int_range.
  - intros Hok.
    destruct (Dither_diffuse_cells rt pc dn dx H0 H1) as (d0 & L0 & E).
    eexists _, _, d0, _, _. split; [exact E|]. split; [exact L0|].
    split; [apply list_lookup_insert_eq; rewrite length_insert; lia|].
    split; [rewrite list_lookup_insert_ne by lia;
            apply list_lookup_insert_eq; lia|].
    cbv zeta. rewrite !channel_zip3, !channel_map3, !channel_zip3.
    assert (Ha : 0 <= channel w rt <= 65535).
    { destruct Hok as (? & ? & ?). destruct w; assumption. }
    pose proof (right16_cases (channel w rt) (channel w pc) Ha) as [Hlt Hge].
    cbv zeta in Hge.
    split; [done|]. split; [done|]. split.
    + intros Hap. rewrite (Hlt Hap). done.
    + exact Hge.
Qed.

Lemma C4_residual_distribution_witness :
  0 <= 0 /\ 0 + 1 < len [Dither.zeroRGB; Dither.zeroRGB] /\ rgb_ok (mkRGB 7 7 7) /\
  Dither.dither211_diffuse (mkRGB 7 7 7) (mkRGB 0 0 0) [Dither.zeroRGB; Dither.zeroRGB] 0
    = Ret (mkRGB 3 3 3, [mkRGB 2 2 2; mkRGB 2 2 2]) /\
  3 + 2 + 2 = 7 /\
  (exists rt' dn',
     Dither.Dither_diffuse (mkRGB 7 7 7) (mkRGB 0 0 0) [Dither.zeroRGB; Dither.zeroRGB] 0
       = Ret (rt', dn')).
Proof.
  assert (Hl : 0 + 1 < len [Dither.zeroRGB; Dither.zeroRGB]) by (vm_compute; reflexivity).
  assert (Hok : rgb_ok (mkRGB 7 7 7)) by (repeat split; cbn; lia).
  destruct (C4_residual_distribution (mkRGB 7 7 7) (mkRGB 0 0 0)
              [Dither.zeroRGB; Dither.zeroRGB] 0 wr ltac:(lia) Hl) as [_ H2].
  destruct (H2 Hok) as (rt' & dn' & _ & _ & _ & E & _).
  split; [lia|]. split; [exact Hl|]. split; [exact Hok|].
  split; [reflexivity|]. split; [reflexivity|].
  exists rt', dn'. exact E.
Defined.

(** ** The partition loop of [split] *)

Section SplitLoop.
Variable img : Image.
Variable w : wconst.
Variable low : Z -> bool.

Let lowp (p : point) : bool := low (value img w p).

Lemma split_loop_spec (fuel : nat) :
  forall (px : list point) (i last : Z),
    0 <= i -> i <= last + 1 -> last < len px ->
    (Z.to_nat (last + 1 - i) < fuel)%nat ->
    Forall (fun p => lowp p = true) (take (Z.to_nat i) px) ->
    Forall (fun p => lowp p = false) (drop (Z.to_nat (last + 1)) px) ->
    exists px' i',
      split_loop fuel img w low px i last = Ret (px', i') /\
      px' ≡ₚ px /\ 0 <= i' <= len px /\
      Forall (fun p => lowp p = true) (take (Z.to_nat i') px') /\
      Forall (fun p => lowp p = false) (drop (Z.to_nat i') px').
Proof.
  induction fuel as [|fuel IH]; intros px i last Hi Hil Hlast Hfuel Hlo Hhi; [lia|].
  cbn [split_loop]. unfold len in *.
  destruct (Z.leb_spec i last) as [Hle|Hgt].
  - destruct (idx_lt px i) as (p & Ep & Lp); [unfold len; lia|].
    rewrite Ep. cbn [mbind result_bind Go.bind].
    fold (value img w p). fold (lowp p).
    destruct (lowp p) eqn:Elow.
    + destruct (IH px (i + 1) last) as (px' & i' & E & Hperm & Hi' & H1 & H2);
        try lia; try done.
      * replace (Z.to_nat (i + 1)) with (S (Z.to_nat i)) by lia.
        rewrite (take_S_r _ _ p) by done.
        apply Forall_app. split; [done|]. by constructor.
      * exists px', i'. done.
    + destruct (idx_lt px last) as (pl & Epl & Lpl); [unfold len; lia|].
      rewrite Epl. cbn [mbind result_bind Go.bind].
      set (px2 := <[Z.to_nat i := pl]> (<[Z.to_nat last := p]> px)).
      assert (Hlen2 : length px2 = length px) by (subst px2; by rewrite !length_insert).
      assert (Hperm2 : px2 ≡ₚ px) by (subst px2; by apply Permutation_insert_swap).
      assert (Hlast2 : px2 !! Z.to_nat last = Some p).
      { subst px2. destruct (decide (Z.to_nat i = Z.to_nat last)) as [e|ne].
        - rewrite e. rewrite list_lookup_insert_eq by (rewrite length_insert; lia).
          rewrite e in Lp. congruence.
        - rewrite list_lookup_insert_ne by done.
          apply list_lookup_insert_eq. lia. }
      destruct (IH px2 i (last - 1)) as (px' & i' & E & Hperm & Hi' & H1 & H2);
        try lia.
      * subst px2. rewrite take_insert_ge by lia. rewrite take_insert_ge by lia. done.
      * replace (Z.to_nat (last - 1 + 1)) with (Z.to_nat last) by lia.
        rewrite (drop_S _ p) by done. constructor; [done|].
        replace (S (Z.to_nat last)) with (Z.to_nat (last + 1)) by lia.
        subst px2. rewrite drop_insert_lt by lia. rewrite drop_insert_lt by lia. done.
      * exists px', i'. split; [exact E|]. split; [by rewrite Hperm|].
        split; [lia|done].
  - exists px, i. split; [done|]. split; [done|]. split; [lia|].
    replace i with (last + 1) in * by lia. done.
Qed.

(** [split] returns, and cuts the pixel list in a first part whose values
    pass the test and a second part whose values do not. *)
Lemma split_px_spec (px : list point) :
  exists s c,
    split_px img w low px = Ret (s, c) /\
    s ++ c ≡ₚ px /\
    Forall (fun p => lowp p = true) s /\
    Forall (fun p => lowp p = false) c.
Proof.
  unfold split_px.
  destruct (split_loop_spec (S (length px)) px 0 (len px - 1))
    as (px' & i' & E & Hperm & Hi' & H1 & H2); unfold len; try lia.
  - constructor.
  - replace (Z.to_nat (Z.of_nat (length px) - 1 + 1)) with (length px) by lia.
    rewrite drop_all. constructor.
  - unfold len in E. rewrite E. cbn [mbind result_bind Go.bind].
    assert (Hlen : length px' = length px) by (by apply Permutation_length).
    rewrite (slice_to_ok px' i') by (unfold len in *; lia).
    rewrite (proj2 (slice_from_Ret px' (drop (Z.to_nat i') px') i'))
      by (unfold len in *; split; [lia|done]).
    cbn [mbind result_bind Go.bind].
    eexists _, _. split; [done|]. split; [by rewrite take_drop|done].
Qed.

Lemma split_px_nonempty (px s c : list point) :
  split_px img w low px = Ret (s, c) ->
  s ++ c ≡ₚ px /\
  Forall (fun p => lowp p = true) s /\
  Forall (fun p => lowp p = false) c /\
  ((exists p, p ∈ px /\ lowp p = true) -> s <> []) /\
  ((exists p, p ∈ px /\ lowp p = false) -> c <> []).
Proof.
  intros E. destruct (split_px_spec px) as (s' & c' & E' & Hperm & Hs & Hc).
  rewrite E in E'. injection E' as <- <-.
  split; [done|]. split; [done|]. split; [done|]. split.
  - intros (p & Hin & Hp) ->. cbn in Hperm. rewrite <- Hperm in Hin.
    rewrite Forall_forall in Hc. specialize (Hc p Hin). congruence.
  - intros (p & Hin & Hp) ->. rewrite app_nil_r in Hperm. rewrite <- Hperm in Hin.
    rewrite Forall_forall in Hs. specialize (Hs p Hin). congruence.
Qed.

End SplitLoop.

(** ** The extents of a cluster *)

Section Extents.
Variable img : Image.
Hypothesis Hok : img_ok img.

Lemma value_range (w : wconst) (p : point) : 0 <= value img w p <= 65535.
Proof.
  unfold value, colorAt. destruct (Hok (int p.1) (int p.2)) as (? & ? & ?).
  destruct w; assumption.
Qed.

Lemma emin_step (w : wconst) (e : extents) (p : point) :
  emin w (extents_step img e p) = lower (value img w p) (emin w e).
Proof. by destruct w. Qed.

Lemma emax_step (w : wconst) (e : extents) (p : point) :
  emax w (extents_step img e p) = upper (value img w p) (emax w e).
Proof. by destruct w. Qed.

Lemma lower_spec (v m : Z) : lower v m <= v /\ lower v m <= m /\ (lower v m = v \/ lower v m = m).
Proof. unfold lower. destruct (Z.ltb_spec v m); lia. Qed.

Lemma upper_spec (v m : Z) : v <= upper v m /\ m <= upper v m /\ (upper v m = v \/ upper v m = m).
Proof. unfold upper. destruct (Z.gtb_spec v m); lia. Qed.

Lemma extents_fold (w : wconst) (px : list point) :
  forall e : extents,
    let e' := fold_left (extents_step img) px e in
    emin w e' <= emin w e /\ emax w e <= emax w e' /\
    Forall (fun p => emin w e' <= value img w p <= emax w e') px /\
    (emin w e' = emin w e \/ exists p, p ∈ px /\ value img w p = emin w e') /\
    (emax w e' = emax w e \/ exists p, p ∈ px /\ value img w p = emax w e').
Proof.
  induction px as [|p px IH]; intros e; cbn.
  - repeat split; try lia; try constructor; by left.
  - destruct (IH (extents_step img e p)) as (H1 & H2 & H3 & H4 & H5).
    rewrite emin_step in H1, H4. rewrite emax_step in H2, H5.
    pose proof (lower_spec (value img w p) (emin w e)) as (L1 & L2 & L3).
    pose proof (upper_spec (value img w p) (emax w e)) as (U1 & U2 & U3).
    split; [lia|]. split; [lia|]. split; [constructor; [lia|done]|]. split.
    + destruct H4 as [H4 | (q & Hq & Hv)].
      * destruct L3 as [L3|L3]; [right; exists p; split; [left|lia] | left; lia].
      * right. exists q. split; [by right|done].
    + destruct H5 as [H5 | (q & Hq & Hv)].
      * destruct U3 as [U3|U3]; [right; exists p; split; [left|lia] | left; lia].
      * right. exists q. split; [by right|done].
Qed.

Lemma extents_of_nonempty (w : wconst) (px : list point) :
  px <> [] ->
  let e := extents_of img px in
  0 <= emin w e <= emax w e /\ emax w e <= 65535 /\
  Forall (fun p => emin w e <= value img w p <= emax w e) px /\
  (exists p, p ∈ px /\ value img w p = emin w e) /\
  (exists p, p ∈ px /\ value img w p = emax w e).
Proof.
  intros Hne. cbv zeta. unfold extents_of.
  destruct (extents_fold w px extents0) as (H1 & H2 & H3 & H4 & H5).
  destruct px as [|p0 px]; [done|].
  pose proof (Forall_inv H3) as H0. cbn beta in H0.
  pose proof (value_range w p0) as R0.
  assert (Hmin : exists p, p ∈ p0 :: px /\
                   value img w p = emin w (fold_left (extents_step img) (p0 :: px) extents0)).
  { destruct H4 as [H4|H4]; [|done]. exfalso.
    assert (emin w extents0 = MaxUint32) by (by destruct w).
    unfold MaxUint32 in *. lia. }
  assert (Hmax : exists p, p ∈ p0 :: px /\
                   value img w p = emax w (fold_left (extents_step img) (p0 :: px) extents0)).
  { destruct H5 as [H5|H5]; [|done]. exists p0. split; [left|].
    assert (emax w extents0 = 0) by (by destruct w). lia. }
  destruct Hmin as (p1 & Hp1 & E1). destruct Hmax as (p2 & Hp2 & E2).
  pose proof (value_range w p1). pose proof (value_range w p2).
  split; [lia|]. split; [lia|]. split; [done|]. split; eauto.
Qed.

Lemma widest_proj (e : extents) :
  forall w mn mx, widest e = (w, mn, mx) ->
    mn = emin w e /\ mx = emax w e /\
    forall w', uint32 (emax w' e - emin w' e) <= uint32 (mx - mn).
Proof.
  intros w mn mx. unfold widest. cbn zeta.
  destruct (Z.gtb_spec (uint32 (maxR e - minR e)) (uint32 (maxG e - minG e)));
    match goal with
    | |- context [uint32 (maxB e - minB e) >? ?x] =>
        destruct (Z.gtb_spec (uint32 (maxB e - minB e)) x)
    end; intros [= <- <- <-]; (split; [done|]); (split; [done|]);
    intros w'; destruct w'; cbn; lia.
Qed.

(** What [setWidestChannel] and [setPriority] hold about a non-empty
    cluster: the extrema of the widest channel, attained by pixels of the
    cluster; and equal extrema mean one colour. *)
Lemma widest_nonempty (px : list point) (w : wconst) (mn mx : Z) :
  px <> [] ->
  widest (extents_of img px) = (w, mn, mx) ->
  0 <= mn <= mx /\ mx <= 65535 /\
  Forall (fun p => mn <= value img w p <= mx) px /\
  (exists p, p ∈ px /\ value img w p = mn) /\
  (exists p, p ∈ px /\ value img w p = mx) /\
  (mx <= mn -> single_colour img px).
Proof.
  intros Hne Hw. apply widest_proj in Hw as (-> & -> & Hwide).
  destruct (extents_of_nonempty w px Hne) as (H1 & H2 & H3 & H4 & H5).
  split; [done|]. split; [done|]. split; [done|]. split; [done|]. split; [done|].
  intros Hle p q Hp Hq.
  assert (Hall : forall w', value img w' p = value img w' q).
  { intros w'. specialize (Hwide w').
    destruct (extents_of_nonempty w' px Hne) as (G1 & G2 & G3 & _ & _).
    rewrite Forall_forall in G3. pose proof (G3 p Hp). pose proof (G3 q Hq).
    assert (E0 : uint32 (emax w (extents_of img px) - emin w (extents_of img px)) = 0).
    { replace (emax w (extents_of img px) - emin w (extents_of img px)) with 0 by lia.
      reflexivity. }
    rewrite E0 in Hwide. unfold uint32, wrap in Hwide.
    rewrite Z.mod_small in Hwide by lia. lia. }
  pose proof (Hall wr) as Hr. pose proof (Hall wg) as Hg. pose proof (Hall wb) as Hb.
  unfold value in *. cbn in *.
  destruct (colorAt img p), (colorAt img q). cbn in *. congruence.
Qed.

End Extents.

Lemma widest_nil (img : Image) :
  widest (extents_of img []) = (wg, MaxUint32, 0).
Proof. reflexivity. Qed.

(** ** [medianCut] *)

Lemma StronglySorted_lookup_le (l : list Z) :
  StronglySorted Z.le l ->
  forall (i j : nat) (a b : Z),
    l !! i = Some a -> l !! j = Some b -> (i <= j)%nat -> a <= b.
Proof.
  induction 1 as [|x l Hs IH Hx]; intros i j a b Hi Hj Hij; [done|].
  destruct i as [|i], j as [|j]; cbn in *; try lia.
  - injection Hi as <-. injection Hj as <-. lia.
  - injection Hi as <-. rewrite Forall_forall in Hx. apply Hx.
    apply list_elem_of_lookup. eauto.
  - eapply IH; eauto. lia.
Qed.

Section MedianCut.
Variable ch : list Z.
Hypothesis Hsorted : StronglySorted Z.le ch.

Let at_ (j : Z) : Z := default 0 (ch !! Z.to_nat j).

Lemma idx_at (j : Z) : 0 <= j < len ch -> idx ch j = Ret (at_ j) /\ at_ j ∈ ch.
Proof.
  intros H. destruct (idx_lt ch j H) as (a & E & L).
  subst at_. cbn beta. rewrite L. cbn. split; [done|].
  apply list_elem_of_lookup. eauto.
Qed.

Lemma at_mono (i j : Z) : 0 <= i -> i <= j -> j < len ch -> at_ i <= at_ j.
Proof.
  intros H0 Hij Hj.
  destruct (idx_lt ch i ltac:(lia)) as (a & _ & La).
  destruct (idx_lt ch j ltac:(lia)) as (b & _ & Lb).
  subst at_. cbn beta. rewrite La, Lb. cbn.
  eapply StronglySorted_lookup_le; eauto. lia.
Qed.

Lemma dec_m1_spec (fuel : nat) :
  forall m, 0 <= m < len ch -> (Z.to_nat m < fuel)%nat ->
    exists m', Median.dec_m1 fuel ch m = Ret m' /\ 0 <= m' <= m /\
      (forall j, m' <= j <= m -> at_ j = at_ m) /\
      (m' = 0 \/ at_ m' <> at_ (m' - 1)).
Proof.
  induction fuel as [|fuel IH]; intros m Hm Hf; [lia|].
  cbn [Median.dec_m1]. destruct (Z.gtb_spec m 0) as [Hpos|Hz].
  - destruct (idx_at m ltac:(lia)) as [-> _].
    destruct (idx_at (m - 1) ltac:(lia)) as [-> _].
    cbn [mbind result_bind Go.bind].
    destruct (Z.eqb_spec (at_ m) (at_ (m - 1))) as [E|E].
    + destruct (IH (m - 1)) as (m' & Em & Hm' & Hall & Hb); [lia|lia|].
      exists m'. split; [done|]. split; [lia|]. split; [|done].
      intros j Hj. destruct (Z.eq_dec j m) as [->|]; [done|].
      rewrite Hall by lia. done.
    + exists m. split; [done|]. split; [lia|]. split; [|by right].
      intros j Hj. by replace j with m by lia.
  - exists m. split; [done|]. split; [lia|]. split; [|left; lia].
    intros j Hj. by replace j with m by lia.
Qed.

Lemma inc_m2_spec (fuel : nat) :
  forall m, 1 <= m <= len ch -> (Z.to_nat (len ch - m) < fuel)%nat ->
    exists m', Median.inc_m2 fuel ch m = Ret m' /\ m <= m' <= len ch /\
      (forall j, m - 1 <= j < m' -> at_ j = at_ (m - 1)) /\
      (m' = len ch \/ at_ m' <> at_ (m' - 1)).
Proof.
  induction fuel as [|fuel IH]; intros m Hm Hf; [lia|].
  cbn [Median.inc_m2]. destruct (Z.ltb_spec m (len ch)) as [Hlt|Hge].
  - destruct (idx_at m ltac:(lia)) as [-> _].
    destruct (idx_at (m - 1) ltac:(lia)) as [-> _].
    cbn [mbind result_bind Go.bind].
    destruct (Z.eqb_spec (at_ m) (at_ (m - 1))) as [E|E].
    + destruct (IH (m + 1)) as (m' & Em & Hm' & Hall & Hb); [lia|lia|].
      exists m'. split; [done|]. split; [lia|]. split; [|done].
      intros j Hj. destruct (Z.eq_dec j (m - 1)) as [->|]; [done|].
      rewrite Hall by lia. replace (m + 1 - 1) with m by lia. done.
    + exists m. split; [done|]. split; [lia|]. split; [|by right].
      intros j Hj. by replace j with (m - 1) by lia.
  - exists m. split; [done|]. split; [lia|]. split; [|left; lia].
    intros j Hj. by replace j with (m - 1) by lia.
Qed.

(** The cut search on a sorted buffer holding two different values: the
    value returned has a smaller value before it in the buffer. *)
Lemma median_of_sorted (a1 a2 : Z) :
  a1 ∈ ch -> a2 ∈ ch -> a1 < a2 ->
  let m1 := Z.quot (len ch) 2 in
  exists k,
    0 < k < len ch /\ at_ (k - 1) < at_ k /\
    (a ← idx ch m1;
     b ← idx ch (m1 - 1);
     if negb (a =? b) then Ret (uint32 a)
     else
       m1' ← Median.dec_m1 (S (length ch)) ch (m1 - 1);
       m2' ← Median.inc_m2 (S (length ch)) ch (m1 + 1);
       if m1' >? len ch - m2' then v ← idx ch m1'; Ret (uint32 v)
       else v ← idx ch m2'; Ret (uint32 v)) = Ret (uint32 (at_ k)).
Proof.
  intros H1 H2 Hlt. cbv zeta.
  assert (Hlen : 2 <= len ch).
  { unfold len. destruct ch as [|x [|y l]]; cbn; try lia.
    - by apply elem_of_nil in H1.
    - apply list_elem_of_singleton in H1, H2. lia. }
  assert (Hq : 1 <= Z.quot (len ch) 2 < len ch).
  { pose proof (quot2_bounds (len ch)) as [Hq _]. specialize (Hq ltac:(lia)). lia. }
  set (m1 := Z.quot (len ch) 2) in *.
  assert (Hstep : forall k, 0 < k < len ch -> at_ k <> at_ (k - 1) -> at_ (k - 1) < at_ k).
  { intros k Hk Hne. pose proof (at_mono (k - 1) k ltac:(lia) ltac:(lia) ltac:(lia)). lia. }
  destruct (idx_at m1 ltac:(lia)) as [-> _].
  destruct (idx_at (m1 - 1) ltac:(lia)) as [-> _].
  cbn [mbind result_bind Go.bind].
  destruct (Z.eqb_spec (at_ m1) (at_ (m1 - 1))) as [E|E]; cbn [negb].
  - destruct (dec_m1_spec (S (length ch)) (m1 - 1)) as (m1' & -> & Hm1 & Hall1 & Hb1);
      [lia | unfold len in *; lia |].
    destruct (inc_m2_spec (S (length ch)) (m1 + 1)) as (m2' & -> & Hm2 & Hall2 & Hb2);
      [lia | unfold len in *; lia |].
    cbn [mbind result_bind Go.bind].
    replace (m1 + 1 - 1) with m1 in Hall2 by lia.
    destruct (Z.gtb_spec m1' (len ch - m2')) as [Hgt|Hle].
    + destruct Hb1 as [->|Hb1]; [lia|].
      destruct (idx_at m1' ltac:(lia)) as [-> _]. cbn [mbind result_bind Go.bind].
      exists m1'. split; [lia|]. split; [apply Hstep; [lia|done]|done].
    + assert (Hm2lt : m2' < len ch).
      { destruct (Z.eq_dec m2' (len ch)) as [->|]; [|lia]. exfalso.
        assert (m1' = 0) by lia. subst m1'.
        assert (Hconst : forall j, 0 <= j < len ch -> at_ j = at_ m1).
        { intros j Hj. destruct (Z.le_gt_cases j (m1 - 1)).
          - rewrite Hall1 by lia. done.
          - apply Hall2. lia. }
        assert (Hin : forall a, a ∈ ch -> a = at_ m1).
        { intros a Ha. apply list_elem_of_lookup in Ha as [i Hi].
          pose proof (lookup_lt_Some _ _ _ Hi).
          rewrite <- (Hconst (Z.of_nat i)) by (unfold len; lia).
          subst at_. cbn beta. rewrite Nat2Z.id, Hi. done. }
        rewrite (Hin a1 H1), (Hin a2 H2) in Hlt. lia. }
      destruct Hb2 as [->|Hb2]; [lia|].
      destruct (idx_at m2' ltac:(lia)) as [-> _]. cbn [mbind result_bind Go.bind].
      exists m2'. split; [lia|]. split; [apply Hstep; [lia|done]|done].
  - exists m1. split; [lia|]. split; [apply Hstep; [lia|done]|done].
Qed.

Lemma at_in (k : Z) : 0 <= k < len ch -> at_ k ∈ ch.
Proof. intros H. by destruct (idx_at k H). Qed.

End MedianCut.

Lemma uint16_small (z : Z) : 0 <= z <= 65535 -> uint16 z = z.
Proof. intros H. unfold uint16, wrap. apply Z.mod_small. lia. Qed.

Lemma uint32_small (z : Z) : 0 <= z < 2 ^ 32 -> uint32 z = z.
Proof. intros H. unfold uint32, wrap. apply Z.mod_small. lia. Qed.

(** [medianCut] on a cluster with two different values in its widest
    channel returns a value that splits the cluster in two non-empty
    parts. *)
Lemma medianCut_spec (q : Median.quantizer) (c : Median.cluster) :
  img_ok (Median.img q) ->
  len (Median.px c) <= Median.ch q ->
  (exists p1 p2, p1 ∈ Median.px c /\ p2 ∈ Median.px c /\
     value (Median.img q) (Median.widestCh c) p1 < value (Median.img q) (Median.widestCh c) p2) ->
  exists m,
    Median.medianCut q c = Ret m /\
    (exists p, p ∈ Median.px c /\ value (Median.img q) (Median.widestCh c) p < m) /\
    (exists p, p ∈ Median.px c /\ m <= value (Median.img q) (Median.widestCh c) p).
Proof.
  intros Hok Hch (p1 & p2 & Hp1 & Hp2 & Hlt).
  unfold Median.medianCut.
  destruct (Z.ltb_spec (Median.ch q) (len (Median.px c))); [lia|].
  cbn [mbind result_bind Go.bind].
  set (w := Median.widestCh c) in *. set (im := Median.img q) in *.
  assert (Hvals : (fun p => uint16 (channel w (colorAt im p))) <$> Median.px c
                  = value im w <$> Median.px c).
  { apply list_fmap_ext. intros i p _. apply uint16_small, value_range, Hok. }
  rewrite Hvals. unfold Median.sort.
  set (chs := merge_sort Z.le (value im w <$> Median.px c)).
  assert (Hperm : chs ≡ₚ value im w <$> Median.px c) by apply merge_sort_Permutation.
  assert (Hss : StronglySorted Z.le chs).
  { subst chs. apply StronglySorted_merge_sort; apply _. }
  assert (Hin : forall a, a ∈ chs <-> exists p, p ∈ Median.px c /\ value im w p = a).
  { intros a. rewrite Hperm, list_elem_of_fmap. split.
    - intros (p & -> & Hp). eauto.
    - intros (p & Hp & <-). eauto. }
  destruct (median_of_sorted chs Hss (value im w p1) (value im w p2))
    as (k & Hk & Hstep & E); [apply Hin; eauto | apply Hin; eauto | done |].
  cbv zeta in E. rewrite E.
  pose proof (at_in chs k ltac:(lia)) as Hin_k.
  pose proof (at_in chs (k - 1) ltac:(lia)) as Hin_k1.
  apply Hin in Hin_k as (pk & Hpk & Ek). apply Hin in Hin_k1 as (pk1 & Hpk1 & Ek1).
  pose proof (value_range im Hok w pk) as Rk.
  exists (uint32 (default 0 (chs !! Z.to_nat k))). split; [done|].
  rewrite <- Ek, uint32_small by lia. split.
  - exists pk1. split; [done|]. rewrite Ek1, Ek. exact Hstep.
  - exists pk. split; [done|lia].
Qed.

(** ** The priority queue only permutes *)

Section HeapPerm.
Variable cs : list Median.cluster.

Lemma Swap_perm (q : Median.queue) (i j : nat) :
  (i < length q)%nat -> (j < length q)%nat -> Median.Swap q i j ≡ₚ q.
Proof.
  intros Hi Hj. unfold Median.Swap.
  apply Permutation_insert_swap; by apply list_lookup_lookup_total_lt.
Qed.

Lemma up_perm (fuel : nat) :
  forall (q : Median.queue) (j : nat), (j < length q)%nat -> Median.up cs fuel q j ≡ₚ q.
Proof.
  induction fuel as [|fuel IH]; intros q j Hj; cbn [Median.up]; [done|].
  destruct (_ || _); [done|].
  assert (Hi : ((j - 1) / 2 < length q)%nat).
  { pose proof (Nat.Div0.div_le_upper_bound (j - 1) 2 (j - 1)). lia. }
  rewrite IH.
  - by apply Swap_perm.
  - rewrite (Permutation_length (Swap_perm q _ j Hi Hj)). done.
Qed.

Lemma down_perm (fuel : nat) :
  forall (q : Median.queue) (i n : nat),
    (n <= length q)%nat -> Median.down cs fuel q i n ≡ₚ q.
Proof.
  induction fuel as [|fuel IH]; intros q i n Hn; cbn [Median.down]; [done|].
  destruct (Nat.leb_spec n (2 * i + 1)); [done|].
  match goal with
  | |- context [Median.Swap q i ?x] => set (j := x)
  end.
  assert (Hj : (j < n)%nat).
  { subst j. destruct (Nat.ltb_spec (2 * i + 1 + 1) n); cbn [andb].
    - destruct (Median.Less _ _ _ _); lia.
    - lia. }
  destruct (negb _); [done|].
  assert (Hsw : Median.Swap q i j ≡ₚ q) by (apply Swap_perm; lia).
  rewrite IH; [done|]. rewrite (Permutation_length Hsw). done.
Qed.

Lemma heap_Push_perm (q : Median.queue) (c : nat) :
  Median.heap_Push cs q c ≡ₚ c :: q.
Proof.
  unfold Median.heap_Push. rewrite up_perm.
  - by rewrite Permutation_app_comm.
  - rewrite length_app. cbn. lia.
Qed.

Lemma heap_Pop_spec (q : Median.queue) :
  q <> [] ->
  exists c q', Median.heap_Pop cs q = Ret (c, q') /\ q ≡ₚ c :: q'.
Proof.
  intros Hne. unfold Median.heap_Pop.
  assert (Hlen : (0 < length q)%nat) by (destruct q; [done | cbn; lia]).
  destruct (idx_lt q 0) as (c0 & -> & _); [unfold len; lia|].
  cbn [mbind result_bind Go.bind].
  set (n := (length q - 1)%nat).
  assert (Hsw : Median.Swap q 0 n ≡ₚ q) by (apply Swap_perm; lia).
  set (q1 := Median.Swap q 0 n) in *.
  assert (Hl1 : length q1 = length q) by (by apply Permutation_length).
  assert (Hd : Median.down cs (length q1) q1 0 n ≡ₚ q1) by (apply down_perm; lia).
  set (q2 := Median.down cs (length q1) q1 0 n) in *.
  assert (Hl2 : length q2 = length q) by (rewrite <- Hl1; by apply Permutation_length).
  destruct (idx_lt q2 (Z.of_nat n)) as (c & -> & Lc); [unfold len; lia|].
  cbn [mbind result_bind Go.bind]. rewrite Nat2Z.id in Lc.
  exists c, (take n q2). split; [done|].
  rewrite <- Hsw, <- Hd.
  rewrite <- (take_ge q2 (S n)) at 1 by lia.
  rewrite (take_S_r _ _ c) by done.
  by rewrite Permutation_app_comm.
Qed.

End HeapPerm.

(** ** The pixel list [newQuantizer] builds *)

Lemma fill_spec (ps : list point) :
  forall (px : list point) (i : Z),
    0 <= i -> i + len ps <= len px ->
    fill px i ps = Ret (take (Z.to_nat i) px ++ ps ++ drop (Z.to_nat (i + len ps)) px).
Proof.
  induction ps as [|p ps IH]; intros px i Hi Hlen; cbn [fill]; unfold len in *.
  - cbn [length]. replace (i + Z.of_nat 0) with i by lia.
    cbn [app]. by rewrite take_drop.
  - cbn [length] in Hlen.
    destruct (idx_lt px i) as (a & -> & La); [unfold len; lia|].
    cbn [mbind result_bind Go.bind].
    rewrite IH by (rewrite ?length_insert; lia). f_equal.
    replace (Z.to_nat (i + 1)) with (S (Z.to_nat i)) by lia.
    rewrite (take_S_r _ _ p) by (apply list_lookup_insert_eq; lia).
    rewrite take_insert_ge by lia.
    rewrite drop_insert_lt by lia.
    replace (Z.to_nat (i + 1 + Z.of_nat (length ps)))
      with (Z.to_nat (i + Z.of_nat (length (p :: ps)))) by (cbn [length]; lia).
    by rewrite <- app_assoc.
Qed.

Lemma list_bind_length_const {A B} (f : A -> list B) (m : nat) (l : list A) :
  (forall x, length (f x) = m) -> length (l ≫= f) = (length l * m)%nat.
Proof.
  intros Hf. induction l as [|x l IH]; [done|].
  rewrite bind_cons, length_app, IH, Hf. cbn. lia.
Qed.

Lemma list_bind_ext_in {A B} (f g : A -> list B) (l : list A) :
  (forall x, x ∈ l -> f x = g x) -> l ≫= f = l ≫= g.
Proof.
  intros H. induction l as [|x l IH]; [done|].
  rewrite !bind_cons, H by left. f_equal. apply IH. intros y Hy. apply H. by right.
Qed.

Lemma coords_pixels (b : Rectangle) : rect_ok b -> coords b = pixels b.
Proof.
  intros (Hx1 & Hx2 & Hy1 & Hy2 & _). unfold coords, pixels.
  apply list_bind_ext_in. intros y Hy. apply elem_of_seqZ in Hy.
  apply list_bind_ext_in. intros x Hx. apply elem_of_seqZ in Hx.
  rewrite !int32_small by lia. done.
Qed.

Lemma length_pixels (b : Rectangle) :
  rect_ok b -> len (pixels b) = Dx b * Dy b.
Proof.
  intros (Hx1 & Hx2 & Hy1 & Hy2 & _). unfold pixels, len, Dx, Dy.
  rewrite (list_bind_length_const _ (Z.to_nat (MaxX b - MinX b))).
  - rewrite length_seqZ, Nat2Z.inj_mul, !Z2Nat.id by lia. lia.
  - intros y. rewrite (list_bind_length_const _ 1%nat) by done.
    rewrite length_seqZ. lia.
Qed.

Lemma NoDup_pixels (b : Rectangle) : NoDup (pixels b).
Proof.
  unfold pixels. apply NoDup_bind; [| |apply NoDup_seqZ].
  - intros y1 y2 p _ _ H1 H2.
    apply list_elem_of_bind in H1 as (x1 & H1 & _).
    apply list_elem_of_bind in H2 as (x2 & H2 & _).
    apply list_elem_of_singleton in H1, H2. congruence.
  - intros y _. apply NoDup_bind; [| |apply NoDup_seqZ].
    + intros x1 x2 p _ _ H1 H2. apply list_elem_of_singleton in H1, H2. congruence.
    + intros x _. apply NoDup_singleton.
Qed.

Lemma npx_of_ok (b : Rectangle) : rect_ok b -> npx_of b = len (pixels b).
Proof.
  intros Hb. rewrite length_pixels by done.
  destruct Hb as (Hx1 & Hx2 & Hy1 & Hy2 & Hn). unfold npx_of, Dx, Dy in *.
  rewrite !(int_small (_ - _)) by lia.
  apply int_small. nia.
Qed.

Lemma median_newQuantizer_ok (img : Image) (n : Z) :
  rect_ok (Bounds img) -> 1 <= n ->
  Median.newQuantizer img n =
    Ret (Median.mkQuantizer img
           (Median.mkCluster (pixels (Bounds img)) wr
              :: replicate (Z.to_nat (n - 1)) Median.cluster0)
           (len (pixels (Bounds img)))).
Proof.
  intros Hb Hn. unfold Median.newQuantizer.
  rewrite npx_of_ok, coords_pixels by done.
  rewrite (make_Ret (A:=Z)), (make_Ret Median.cluster0), (make_Ret (A:=point))
    by (unfold len; lia).
  cbn [mbind result_bind Go.bind].
  replace (Z.to_nat n) with (S (Z.to_nat (n - 1))) by lia.
  cbn [replicate]. rewrite idx_0_cons. cbn [mbind result_bind Go.bind].
  rewrite fill_spec by (rewrite ?length_replicate; unfold len;
                        rewrite ?length_replicate; lia).
  cbn [mbind result_bind Go.bind]. do 2 f_equal.
  cbn [Z.to_nat take app list_insert insert Median.widestCh Median.cluster0].
  f_equal. f_equal.
  rewrite drop_ge; [by rewrite app_nil_r|].
  unfold len. rewrite length_replicate. lia.
Qed.

Lemma mean_newQuantizer_ok (img : Image) (n : Z) :
  rect_ok (Bounds img) -> 1 <= n ->
  Mean.newQuantizer img n =
    Ret (Mean.mkQuantizer img
           (Mean.mkCluster (pixels (Bounds img)) wr 0 0 0 0
              :: replicate (Z.to_nat (n - 1)) Mean.cluster0)).
Proof.
  intros Hb Hn. unfold Mean.newQuantizer.
  destruct (Z.ltb_spec n 1); [lia|].
  rewrite npx_of_ok, coords_pixels by done.
  rewrite (make_Ret (A:=point)) by (unfold len; lia).
  cbn [mbind result_bind Go.bind].
  rewrite fill_spec by (rewrite ?length_replicate; unfold len;
                        rewrite ?length_replicate; lia).
  cbn [mbind result_bind Go.bind].
  rewrite (make_Ret Mean.cluster0) by lia.
  cbn [mbind result_bind Go.bind].
  replace (Z.to_nat n) with (S (Z.to_nat (n - 1))) by lia.
  cbn [replicate]. rewrite idx_0_cons. cbn [mbind result_bind Go.bind].
  do 2 f_equal.
  cbn [Z.to_nat take app list_insert insert Mean.set_px Mean.cluster0
       Mean.widestCh Mean.min Mean.max Mean.volume Mean.priority].
  f_equal. f_equal.
  rewrite drop_ge; [by rewrite app_nil_r|].
  unfold len. rewrite length_replicate. lia.
Qed.

(** ** The loop of median [cluster] *)

Lemma median_setWidestChannel_px (img : Image) (c : Median.cluster) :
  Median.px (Median.setWidestChannel img c).1 = Median.px c.
Proof.
  unfold Median.setWidestChannel.
  by destruct (widest (extents_of img (Median.px c))) as [[w mn] mx].
Qed.

Lemma median_setWidestChannel_true (img : Image) (c : Median.cluster) :
  img_ok img ->
  (Median.setWidestChannel img c).2 = true ->
  has_range img (Median.widestCh (Median.setWidestChannel img c).1) (Median.px c).
Proof.
  intros Hok. unfold Median.setWidestChannel.
  destruct (widest (extents_of img (Median.px c))) as [[w mn] mx] eqn:Ew. cbn.
  intros Hgt. destruct (Median.px c) as [|p0 px] eqn:Epx.
  - rewrite widest_nil in Ew. injection Ew as <- <- <-. done.
  - rewrite <- Epx in *.
    destruct (widest_nonempty img Hok (Median.px c) w mn mx) as (_ & _ & _ & H1 & H2 & _);
      [by rewrite Epx | done |].
    destruct H1 as (p1 & Hp1 & E1), H2 as (p2 & Hp2 & E2).
    exists p1, p2. split; [done|]. split; [done|]. apply Z.gtb_lt in Hgt. lia.
Qed.

Lemma median_setWidestChannel_false (img : Image) (c : Median.cluster) :
  img_ok img ->
  (Median.setWidestChannel img c).2 = false ->
  single_colour img (Median.px c).
Proof.
  intros Hok. unfold Median.setWidestChannel.
  destruct (widest (extents_of img (Median.px c))) as [[w mn] mx] eqn:Ew. cbn.
  intros Hgt. destruct (Median.px c) as [|p0 px] eqn:Epx.
  - intros p q Hp. by apply elem_of_nil in Hp.
  - rewrite <- Epx in *.
    destruct (widest_nonempty img Hok (Median.px c) w mn mx) as (_ & _ & _ & _ & _ & H);
      [by rewrite Epx | done |].
    apply H. destruct (Z.gtb_spec mx mn); [done | lia].
Qed.

Lemma concat_insert_split {A} (l : list (list A)) (s : nat) (x a b : list A) :
  l !! s = Some x -> x ≡ₚ a ++ b -> concat (<[s := a]> l) ++ b ≡ₚ concat l.
Proof.
  intros Hs Hx.
  rewrite insert_take_drop by (by eapply lookup_lt_Some).
  rewrite <- (take_drop_middle l s x Hs) at 3.
  rewrite !concat_app. cbn [concat]. rewrite Hx, <- !app_assoc.
  f_equiv. f_equiv. apply Permutation_app_comm.
Qed.

Lemma length_concat_lookup {A} (l : list (list A)) (s : nat) (x : list A) :
  l !! s = Some x -> (length x <= length (concat l))%nat.
Proof.
  intros Hs. rewrite <- (take_drop_middle l s x Hs).
  rewrite concat_app. cbn [concat]. rewrite !length_app. lia.
Qed.

Section MedianLoop.
Variable img : Image.
Hypothesis Hok : img_ok img.
Variable P : list point.

Lemma push_if_perm (b : bool) (cs : list Median.cluster) (pq : Median.queue) (c : nat) :
  Median.push_if b cs pq c ≡ₚ (if b then c :: pq else pq).
Proof. destruct b; cbn; [apply heap_Push_perm | done]. Qed.

Lemma px_insert_setWidestChannel (cs : list Median.cluster) (x : nat) :
  Median.px <$> <[x := (Median.setWidestChannel img (cs !!! x)).1]> cs = Median.px <$> cs.
Proof.
  rewrite list_fmap_insert, median_setWidestChannel_px.
  apply list_insert_id'. intros Hx. rewrite length_fmap in Hx.
  rewrite list_lookup_fmap, (list_lookup_lookup_total_lt cs x) by done. done.
Qed.

Lemma px_lookup_total_fmap (cs cs' : list Median.cluster) (k : nat) :
  Median.px <$> cs' = Median.px <$> cs ->
  Median.px (cs' !!! k) = Median.px (cs !!! k).
Proof.
  intros E. rewrite !list_lookup_total_alt.
  assert (H : Median.px <$> (cs' !! k) = Median.px <$> (cs !! k)).
  { rewrite <- !list_lookup_fmap. by rewrite E. }
  destruct (cs' !! k), (cs !! k); cbn in *; congruence.
Qed.

(** Analyzing a pending cluster [x] and queueing it when it can be split
    keeps the invariant, with [x] no longer pending. *)
Lemma analyze_step (cs : list Median.cluster) (pq : Median.queue) (x : nat)
    (pend : list nat) (i : Z) :
  clusters_inv img P cs pq (x :: pend) i ->
  Z.of_nat x < i -> x ∉ pend ->
  clusters_inv img P
    (<[x := (Median.setWidestChannel img (cs !!! x)).1]> cs)
    (Median.push_if (Median.setWidestChannel img (cs !!! x)).2
       (<[x := (Median.setWidestChannel img (cs !!! x)).1]> cs) pq x)
    pend i.
Proof.
  intros (Hi & Hpart & Hnd & Hq & Hrest & Hne) Hx Hxp.
  set (r := Median.setWidestChannel img (cs !!! x)).
  set (cs1 := <[x := r.1]> cs).
  assert (Hpx : Median.px <$> cs1 = Median.px <$> cs) by apply px_insert_setWidestChannel.
  assert (Hlen : length cs1 = length cs) by (subst cs1; by rewrite length_insert).
  assert (Hxlt : (x < length cs)%nat) by (unfold len in Hi; lia).
  assert (Hx1 : cs1 !!! x = r.1) by (subst cs1; by apply list_lookup_total_insert_eq).
  assert (Hother : forall k, k <> x -> cs1 !!! k = cs !!! k).
  { intros k Hk. subst cs1. by apply list_lookup_total_insert_ne. }
  assert (Hxq : x ∉ pq).
  { intros Hin. destruct (Hq x Hin) as (_ & Hnp & _). apply Hnp. left. }
  pose proof (push_if_perm r.2 cs1 pq x) as Hperm.
  split; [unfold len in *; lia|]. split.
  { rewrite fmap_take, Hpx, <- fmap_take. done. }
  split.
  { rewrite Hperm. destruct r.2; [|done]. by apply NoDup_cons. }
  split.
  { intros s Hs. rewrite Hperm in Hs.
    assert (Hcase : (r.2 = true /\ s = x) \/ s ∈ pq).
    { destruct r.2; [|by right]. apply elem_of_cons in Hs as [->|Hs]; [by left | by right]. }
    destruct Hcase as [[Hok2 ->]|Hs'].
    - split; [done|]. split; [done|]. rewrite Hx1. unfold r in *.
      rewrite median_setWidestChannel_px.
      by apply median_setWidestChannel_true.
    - destruct (Hq s Hs') as (Hsi & Hsp & Hr).
      assert (s <> x) by (intros ->; done).
      split; [done|]. split; [intros Hin; apply Hsp; by right|].
      by rewrite Hother. }
  split.
  { intros k Hk Hkp Hkq. rewrite (px_lookup_total_fmap cs cs1 k Hpx).
    destruct (decide (k = x)) as [->|Hkx].
    - apply median_setWidestChannel_false; [done|].
      fold r. destruct r.2 eqn:E; [|done]. exfalso. apply Hkq.
      rewrite Hperm. left.
    - apply Hrest; [done| |].
      + intros Hin. apply elem_of_cons in Hin as [->|Hin]; done.
      + intros Hin. apply Hkq. rewrite Hperm. destruct r.2; [by right|done]. }
  intros HP k Hk. rewrite (px_lookup_total_fmap cs cs1 k Hpx). by apply Hne.
Qed.


(** Taking the most populous cluster off the queue and splitting it at the
    median keeps the invariant, with one more cluster; the split cluster and
    the new one are pending. *)
Lemma split_step (cs : list Median.cluster) (pq : Median.queue) (i : Z) :
  clusters_inv img P cs pq [] i -> i < len cs -> pq <> [] ->
  exists s pq2 m spx cpx,
    Median.heap_Pop cs pq = Ret (s, pq2) /\
    Median.medianCut (Median.mkQuantizer img cs (len P)) (cs !!! s) = Ret m /\
    Median.split (Median.mkQuantizer img cs (len P)) (cs !!! s) m = Ret (spx, cpx) /\
    Z.of_nat s < i /\
    clusters_inv img P
      (<[Z.to_nat i := Median.set_px (<[s := Median.set_px (cs !!! s) spx]> cs !!! Z.to_nat i) cpx]>
         (<[s := Median.set_px (cs !!! s) spx]> cs))
      pq2 [s; Z.to_nat i] (i + 1).
Proof.
  intros (Hi & Hpart & Hnd & Hq & Hrest & Hne) Hlt Hpq.
  destruct (heap_Pop_spec cs pq Hpq) as (s & pq2 & Epop & Hperm).
  assert (Hs : s ∈ pq) by (rewrite Hperm; left).
  destruct (Hq s Hs) as (Hsi & _ & Hr).
  assert (Hnd' : NoDup (s :: pq2)) by (by rewrite <- Hperm).
  apply NoDup_cons in Hnd' as [Hs2 Hnd2].
  set (ni := Z.to_nat i).
  assert (Hsni : (s < ni)%nat) by lia.
  assert (Hnilt : (ni < length cs)%nat) by (unfold len in Hlt; lia).
  assert (Hls : cs !! s = Some (cs !!! s)) by (apply list_lookup_lookup_total_lt; lia).
  assert (HPL : (Median.px <$> take ni cs) !! s = Some (Median.px (cs !!! s))).
  { rewrite list_lookup_fmap, lookup_take_lt, Hls by lia. done. }
  destruct (medianCut_spec (Median.mkQuantizer img cs (len P)) (cs !!! s))
    as (m & Ecut & (pl & Hpl & Hplv) & (ph & Hph & Hphv)); [done| |done|].
  { cbn. unfold len. apply inj_le.
    rewrite <- (Permutation_length Hpart). by eapply length_concat_lookup. }
  cbn [Median.img] in Hplv, Hphv.
  unfold Median.split. cbn [Median.img].
  destruct (split_px_spec img (Median.widestCh (cs !!! s)) (fun v => v <? m)
              (Median.px (cs !!! s))) as (spx & cpx & Esplit & _).
  destruct (split_px_nonempty img (Median.widestCh (cs !!! s)) (fun v => v <? m)
              _ _ _ Esplit) as (Hsc & _ & _ & Hsne & Hcne).
  assert (Hspx : spx <> []).
  { apply Hsne. exists pl. split; [done|]. apply Z.ltb_lt. exact Hplv. }
  assert (Hcpx : cpx <> []).
  { apply Hcne. exists ph. split; [done|]. apply Z.ltb_ge. exact Hphv. }
  exists s, pq2, m, spx, cpx.
  split; [done|]. split; [done|]. split; [done|]. split; [done|].
  set (l0 := <[s := Median.set_px (cs !!! s) spx]> cs).
  set (l := <[ni := Median.set_px (l0 !!! ni) cpx]> l0).
  assert (Hl0len : length l0 = length cs) by (subst l0; by rewrite length_insert).
  assert (Hllen : length l = length cs) by (subst l; by rewrite length_insert).
  assert (Hlni : l !! ni = Some (Median.set_px (l0 !!! ni) cpx)).
  { subst l. apply list_lookup_insert_eq. lia. }
  assert (Hlni' : l !!! ni = Median.set_px (l0 !!! ni) cpx).
  { by apply list_lookup_total_correct. }
  assert (Hl_s : l !!! s = Median.set_px (cs !!! s) spx).
  { subst l. rewrite list_lookup_total_insert_ne by lia.
    subst l0. apply list_lookup_total_insert_eq. lia. }
  assert (Hl_other : forall k, k <> s -> k <> ni -> l !!! k = cs !!! k).
  { intros k Hks Hkn. subst l. rewrite list_lookup_total_insert_ne by done.
    subst l0. by rewrite list_lookup_total_insert_ne. }
  split; [unfold len in *; lia|]. split.
  { replace (Z.to_nat (i + 1)) with (S ni) by lia.
    rewrite (take_S_r _ _ _ Hlni). subst l. rewrite take_insert_ge by lia.
    subst l0. rewrite take_insert_lt by lia.
    rewrite fmap_app, list_fmap_insert, concat_app. cbn. rewrite app_nil_r.
    rewrite <- Hpart. eapply concat_insert_split; [exact HPL | by symmetry]. }
  split; [done|]. split.
  { intros t Ht. assert (Htpq : t ∈ pq) by (rewrite Hperm; by right).
    destruct (Hq t Htpq) as (Hti & _ & Htr).
    assert (t <> s) by (intros ->; done).
    split; [lia|]. split.
    - intros Hin. apply elem_of_cons in Hin as [->|Hin]; [done|].
      apply list_elem_of_singleton in Hin. lia.
    - rewrite Hl_other by lia. done. }
  split.
  { intros k Hk Hkp Hkq.
    assert (k <> s) by (intros ->; apply Hkp; left).
    assert (k <> ni) by (intros ->; apply Hkp; right; left).
    rewrite Hl_other by done. apply Hrest; [lia| apply not_elem_of_nil |].
    intros Hin. rewrite Hperm in Hin. apply elem_of_cons in Hin as [->|Hin]; done. }
  intros HP k Hk. destruct (decide (k = ni)) as [->|Hkn].
  - rewrite Hlni'. done.
  - destruct (decide (k = s)) as [->|Hks].
    + rewrite Hl_s. done.
    + rewrite Hl_other by done. apply Hne; [done|lia].
Qed.

(** The invariant at an exit of the loop gives the result of [cluster]. *)
Lemma post_of_inv (cs : list Median.cluster) (pq : Median.queue) (pend : list nat)
    (i K : Z) (n : nat) (ch : Z) :
  clusters_inv img P cs pq pend i ->
  Z.of_nat n = i - 1 -> i <= K ->
  (i < K -> pq = [] /\ pend = []) ->
  median_post img P K (Median.mkQuantizer img (take (Z.to_nat i) cs) ch) n.
Proof.
  intros (Hi & Hpart & Hnd & Hq & Hrest & Hne) Hn HK Hexit.
  unfold median_post. cbn [Median.img Median.cs].
  assert (Hlen : len (take (Z.to_nat i) cs) = i).
  { unfold len in *. rewrite length_take. lia. }
  rewrite Hlen.
  assert (Hlk : forall k x, take (Z.to_nat i) cs !! k = Some x ->
                            Z.of_nat k < i /\ x = cs !!! k).
  { intros k x Hk. apply lookup_take_Some in Hk as [Hk Hki].
    split; [lia|]. symmetry. by apply list_lookup_total_correct. }
  split; [done|]. split; [lia|]. split; [lia|]. split; [done|]. split.
  - intros HP. apply Forall_lookup_2. intros k x Hk.
    apply Hlk in Hk as [Hk ->]. by apply Hne.
  - intros HiK. destruct (Hexit HiK) as [-> ->].
    apply Forall_lookup_2. intros k x Hk.
    apply Hlk in Hk as [Hk ->]. apply Hrest; [done| |]; apply not_elem_of_nil.
Qed.

(** The loop of [cluster], entered with more clusters to populate, returns
    and establishes what [cluster] promises. *)
Lemma median_loop_spec (fuel : nat) :
  forall (q : Median.quantizer) (pq : Median.queue) (c : nat) (i : Z) (n : nat),
    Median.img q = img -> Median.ch q = len P ->
    clusters_inv img P (Median.cs q) pq [c] i ->
    Z.of_nat c < i -> i < len (Median.cs q) -> Z.of_nat n = i - 1 ->
    (Z.to_nat (len (Median.cs q) - i) <= fuel)%nat ->
    exists q' n',
      Median.cluster_loop fuel q pq c i n = Ret (q', n') /\
      median_post img P (len (Median.cs q)) q' n'.
Proof.
  induction fuel as [|fuel IH]; intros q pq c i n Himg Hch Inv Hc Hi Hn Hfuel; [lia|].
  destruct q as [img' cs0 ch0]. cbn [Median.img Median.cs Median.ch] in *.
  subst img' ch0. cbn [Median.cluster_loop Median.img Median.cs Median.ch].
  pose proof (analyze_step cs0 pq c [] i Inv Hc (not_elem_of_nil c)) as Inv1.
  destruct (Median.setWidestChannel img (cs0 !!! c)) as [cc ok]. cbn [fst snd] in Inv1.
  set (cs1 := <[c := cc]> cs0) in *.
  assert (Hlen1 : len cs1 = len cs0) by (unfold len; subst cs1; by rewrite length_insert).
  set (pq1 := Median.push_if ok cs1 pq c) in *.
  destruct (Z.eqb_spec (len pq1) 0) as [Hz|Hnz].
  - assert (Hpq1 : pq1 = []) by (destruct pq1; [done | unfold len in Hz; cbn in Hz; lia]).
    rewrite slice_to_ok by lia. cbn [mbind result_bind Go.bind].
    eexists _, _. split; [done|].
    eapply post_of_inv; [exact Inv1 | done | lia | done].
  - assert (Hpq1 : pq1 <> []) by (intros E; rewrite E in Hnz; done).
    destruct (split_step cs1 pq1 i Inv1 ltac:(lia) Hpq1)
      as (s & pq2 & m & spx & cpx & Epop & Ecut & Esplit & Hsi & Inv2).
    rewrite Epop. cbn [mbind result_bind Go.bind].
    rewrite Ecut. cbn [mbind result_bind Go.bind].
    destruct (idx_lt cs1 i ltac:(lia)) as (ci & -> & _).
    cbn [mbind result_bind Go.bind].
    rewrite Esplit. cbn [mbind result_bind Go.bind].
    set (l0 := <[s := Median.set_px (cs1 !!! s) spx]> cs1) in *.
    set (l := <[Z.to_nat i := Median.set_px (l0 !!! Z.to_nat i) cpx]> l0) in *.
    assert (Hlenl : len l = len cs0).
    { unfold len in *. subst l l0. by rewrite !length_insert. }
    rewrite Hlenl.
    destruct (Z.eqb_spec (i + 1) (len cs0)) as [Hlast|Hmore].
    + eexists _, _. split; [done|].
      rewrite <- (take_ge l (Z.to_nat (i + 1))) by (unfold len in *; lia).
      eapply post_of_inv; [exact Inv2 | lia | lia | lia].
    + assert (Hsne : s ∉ [Z.to_nat i]).
      { intros Hin. apply list_elem_of_singleton in Hin. lia. }
      pose proof (analyze_step l pq2 s [Z.to_nat i] (i + 1) Inv2 ltac:(lia) Hsne) as Inv3.
      destruct (Median.setWidestChannel img (l !!! s)) as [sc ok2]. cbn [fst snd] in Inv3.
      assert (Hlen3 : len (<[s := sc]> l) = len cs0).
      { unfold len in *. rewrite length_insert. lia. }
      destruct (IH (Median.mkQuantizer img (<[s := sc]> l) (len P))
                   (Median.push_if ok2 (<[s := sc]> l) pq2 s) (Z.to_nat i) (i + 1) (S n)
                   eq_refl eq_refl) as (q' & n' & E & Hpost).
      { exact Inv3. }
      { lia. }
      { cbn [Median.cs]. lia. }
      { lia. }
      { cbn [Median.cs]. lia. }
      cbn [Median.cs] in Hpost. rewrite Hlen3 in Hpost.
      exists q', n'. split; [exact E | exact Hpost].
Qed.

End MedianLoop.

(** ** Median [cluster] on an image *)

Lemma median_run_spec (img : Image) (n : Z) :
  rect_ok (Bounds img) -> img_ok img -> 2 <= n ->
  exists q k,
    median_clusters img n = Ret (q, k) /\
    median_post img (pixels (Bounds img)) n q k.
Proof.
  intros Hb Hok Hn. unfold median_clusters.
  rewrite median_newQuantizer_ok by (done || lia).
  cbn [mbind result_bind Go.bind]. unfold Median.cluster_counted.
  cbn [Median.cs]. rewrite idx_0_cons. cbn [mbind result_bind Go.bind].
  set (P := pixels (Bounds img)).
  set (cs := Median.mkCluster P wr :: replicate (Z.to_nat (n - 1)) Median.cluster0).
  assert (Hlen : len cs = n).
  { unfold len. subst cs. cbn [length]. rewrite length_replicate. lia. }
  destruct (median_loop_spec img Hok P (length cs)
              (Median.mkQuantizer img cs (len P)) [] 0%nat 1 0%nat eq_refl eq_refl)
    as (q & k & E & Hpost); cbn [Median.cs]; try lia.
  - split; [lia|]. split.
    { subst cs. change (Z.to_nat 1) with 1%nat. cbn. by rewrite ?app_nil_r. }
    split; [constructor|]. split.
    { intros s Hs. by apply elem_of_nil in Hs. }
    split.
    { intros k Hk Hkp. exfalso. apply Hkp. replace k with 0%nat by lia. left. }
    intros HP k Hk. replace k with 0%nat by lia. done.
  - unfold len. lia.
  - exists q, k. cbn [Median.cs] in Hpost. rewrite Hlen in Hpost. done.
Qed.

(** With one requested colour the loop has no cluster to populate: it
    returns the image's pixel list as the only cluster when the image has
    one colour, and otherwise indexes [qz.cs[1]] out of range. *)
Lemma median_run_one (img : Image) :
  rect_ok (Bounds img) -> img_ok img ->
  (single_colour img (pixels (Bounds img)) ->
   exists w, median_clusters img 1 =
     Ret (Median.mkQuantizer img [Median.mkCluster (pixels (Bounds img)) w]
            (len (pixels (Bounds img))), 0%nat)) /\
  (~ single_colour img (pixels (Bounds img)) ->
   median_clusters img 1 = Panic IndexOutOfRange).
Proof.
  intros Hb Hok. unfold median_clusters.
  rewrite median_newQuantizer_ok by (done || lia).
  change (Z.to_nat (1 - 1)) with 0%nat. cbn [replicate].
  cbn [mbind result_bind Go.bind]. unfold Median.cluster_counted.
  cbn [Median.cs length].
  rewrite idx_0_cons. cbn [mbind result_bind Go.bind].
  set (P := pixels (Bounds img)). set (c0 := Median.mkCluster P wr).
  cbn [Median.cluster_loop Median.img Median.cs Median.ch lookup_total
       list_lookup_total list_insert insert].
  pose proof (median_setWidestChannel_px img c0) as Hpx.
  pose proof (median_setWidestChannel_true img c0 Hok) as Htrue.
  pose proof (median_setWidestChannel_false img c0 Hok) as Hfalse.
  destruct (Median.setWidestChannel img c0) as [cc [|]]; cbn [fst snd] in *.
  - (* the cluster has a range: it is queued, taken off and cut *)
    assert (Hns : ~ single_colour img P).
    { intros Hs. destruct (Htrue eq_refl) as (p1 & p2 & H1 & H2 & Hlt).
      unfold value in Hlt. rewrite (Hs p1 p2 H1 H2) in Hlt. lia. }
    split; [done|]. intros _.
    assert (Epush : Median.push_if true [cc] [] 0%nat = [0%nat]) by reflexivity.
    rewrite Epush. cbn [len length Z.of_nat Z.eqb Pos.of_succ_nat].
    assert (Epop : Median.heap_Pop [cc] [0%nat] = Ret (0%nat, [])) by reflexivity.
    rewrite Epop. cbn [mbind result_bind Go.bind lookup_total list_lookup_total].
    destruct (medianCut_spec (Median.mkQuantizer img [cc] (len P)) cc)
      as (m & -> & _); [done | cbn; rewrite Hpx; cbn; lia | |].
    { rewrite Hpx. cbn [Median.img]. by apply Htrue. }
    reflexivity.
  - split; [|intros Hns; exfalso; by apply Hns, Hfalse].
    intros _. exists (Median.widestCh cc).
    assert (Ecc : cc = Median.mkCluster P (Median.widestCh cc)).
    { destruct cc as [px w]. cbn in *. by subst px. }
    rewrite <- Ecc. reflexivity.
Qed.

(** ** What median [cluster] guarantees *)

Lemma image_of_ok (b : Rectangle) (l : list RGB) :
  Forall rgb_ok l -> img_ok (image_of b l).
Proof.
  intros Hl x y. unfold image_of. cbn [At].
  rewrite list_lookup_total_alt.
  destruct (l !! _) as [c|] eqn:E; cbn.
  - by eapply Forall_lookup_1.
  - repeat split; cbn; lia.
Qed.

Lemma img_rrgb_ok : rect_ok (Bounds img_rrgb) /\ img_ok img_rrgb.
Proof.
  split.
  - unfold rect_ok, Dx, Dy. cbn. lia.
  - apply image_of_ok. repeat constructor; cbn; lia.
Qed.

Lemma elem_of_concat {A} (x : A) (ls : list (list A)) :
  x ∈ concat ls <-> exists l, l ∈ ls /\ x ∈ l.
Proof.
  induction ls as [|l ls IH]; cbn.
  - split; [intros H; by apply elem_of_nil in H | intros (l & H & _); by apply elem_of_nil in H].
  - rewrite elem_of_app, IH. split.
    + intros [H | (l' & H1 & H2)]; [exists l; split; [left|done] | exists l'; split; [by right|done]].
    + intros (l' & H1 & H2). apply elem_of_cons in H1 as [->|H1]; [by left | right; eauto].
Qed.

(** clusters of one colour each that cover the image: the image has no more
    colours than there are clusters *)
Lemma colours_le_clusters (img : Image) (pxs : list (list point)) :
  concat pxs ≡ₚ pixels (Bounds img) ->
  Forall (single_colour img) pxs ->
  (length (colours img) <= length pxs)%nat.
Proof.
  intros Hperm Hs.
  set (reps := (fun px => colorAt img (hd (0, 0) px)) <$> pxs).
  replace (length pxs) with (length reps) by (subst reps; by rewrite length_fmap).
  apply submseteq_length, NoDup_submseteq; [apply NoDup_remove_dups|].
  intros c Hc. unfold colours in Hc. rewrite elem_of_remove_dups in Hc.
  apply list_elem_of_fmap in Hc as (p & -> & Hp).
  rewrite <- Hperm in Hp. apply elem_of_concat in Hp as (px & Hpx & Hin).
  subst reps. apply list_elem_of_fmap. exists px. split; [|done].
  rewrite Forall_forall in Hs. specialize (Hs px Hpx).
  destruct px as [|p0 px']; [by apply elem_of_nil in Hin|].
  cbn [hd]. apply Hs; [done | left].
Qed.

(** [X1] Median [cluster], asked for two or more colours, returns (it does
    not panic), and the pixel lists of the clusters it returns partition
    the pixels of the image: every pixel coordinate of the bounds is in
    exactly one cluster. *)
Theorem median_cluster_partitions (img : Image) (n : Z) :
  rect_ok (Bounds img) -> img_ok img -> 2 <= n ->
  exists q k,
    median_clusters img n = Ret (q, k) /\
    partitions (Median.px <$> Median.cs q) (Bounds img).
Proof.
  intros Hb Hok Hn.
  destruct (median_run_spec img n Hb Hok Hn) as (q & k & E & _ & _ & _ & Hperm & _).
  exists q, k. split; [done|]. split; [done|].
  rewrite Hperm. apply NoDup_pixels.
Qed.

Lemma median_cluster_partitions_witness :
  rect_ok (Bounds img_rrgb) /\ img_ok img_rrgb /\ 2 <= 3 /\
  exists q k,
    median_clusters img_rrgb 3 = Ret (q, k) /\
    partitions (Median.px <$> Median.cs q) (Bounds img_rrgb).
Proof.
  destruct img_rrgb_ok as [Hb Hok].
  split; [exact Hb|]. split; [exact Hok|]. split; [lia|].
  apply (median_cluster_partitions img_rrgb 3 Hb Hok). lia.
Defined.

(** [X2] Median [cluster], asked for [n >= 2] colours, returns between 1
    and [n] clusters, one more than the number of splits it made; no
    cluster of a non-empty image is empty; and it returns fewer than [n]
    clusters only when every cluster has a single colour, so that the image
    has no more distinct colours than clusters were returned. *)
Theorem median_cluster_count (img : Image) (n : Z) :
  rect_ok (Bounds img) -> img_ok img -> 2 <= n ->
  exists q k,
    median_clusters img n = Ret (q, k) /\
    1 <= len (Median.cs q) <= n /\
    len (Median.cs q) = 1 + Z.of_nat k /\
    (pixels (Bounds img) <> [] -> Forall (fun c => Median.px c <> []) (Median.cs q)) /\
    (len (Median.cs q) < n ->
     Forall (fun c => single_colour img (Median.px c)) (Median.cs q) /\
     len (colours img) <= len (Median.cs q)).
Proof.
  intros Hb Hok Hn.
  destruct (median_run_spec img n Hb Hok Hn)
    as (q & k & E & _ & Hl & Hk & Hperm & Hne & Hs).
  exists q, k. split; [done|]. split; [done|]. split; [done|]. split; [done|].
  intros Hlt. specialize (Hs Hlt). split; [done|].
  unfold len. apply inj_le. rewrite <- (length_fmap Median.px).
  apply colours_le_clusters; [done|]. by apply Forall_fmap.
Qed.

Lemma median_cluster_count_witness :
  rect_ok (Bounds img_rrgb) /\ img_ok img_rrgb /\ 2 <= 10 /\
  exists q k,
    median_clusters img_rrgb 10 = Ret (q, k) /\
    1 <= len (Median.cs q) <= 10 /\
    len (Median.cs q) = 1 + Z.of_nat k.
Proof.
  destruct img_rrgb_ok as [Hb Hok].
  split; [exact Hb|]. split; [exact Hok|]. split; [lia|].
  destruct (median_cluster_count img_rrgb 10 Hb Hok ltac:(lia))
    as (q & k & E & Hl & Hk & _).
  exists q, k. split; [exact E|]. split; [exact Hl | exact Hk].
Defined.

(** [X3] Median [cluster] asked for one colour: when the image has a single
    colour (or no pixel) it returns the image's pixel list as the only
    cluster, without a split; when two pixels differ it panics, indexing
    [qz.cs[1]] in a slice of length 1. *)
Theorem median_cluster_one_colour (img : Image) :
  rect_ok (Bounds img) -> img_ok img ->
  (single_colour img (pixels (Bounds img)) ->
   exists w, median_clusters img 1 =
     Ret (Median.mkQuantizer img [Median.mkCluster (pixels (Bounds img)) w]
            (len (pixels (Bounds img))), 0%nat)) /\
  (~ single_colour img (pixels (Bounds img)) ->
   median_clusters img 1 = Panic IndexOutOfRange).
Proof. apply median_run_one. Qed.

Lemma median_cluster_one_colour_witness :
  rect_ok (Bounds img_rrgb) /\ img_ok img_rrgb /\
  ~ single_colour img_rrgb (pixels (Bounds img_rrgb)) /\
  median_clusters img_rrgb 1 = Panic IndexOutOfRange.
Proof.
  destruct img_rrgb_ok as [Hb Hok].
  assert (Hns : ~ single_colour img_rrgb (pixels (Bounds img_rrgb))).
  { intros H. specialize (H (0, 0) (0, 1)).
    assert (E : colorAt img_rrgb (0, 0) = colorAt img_rrgb (0, 1)).
    { apply H; vm_compute; repeat constructor. }
    vm_compute in E. discriminate. }
  split; [exact Hb|]. split; [exact Hok|]. split; [exact Hns|].
  exact (proj2 (median_cluster_one_colour img_rrgb Hb Hok) Hns).
Defined.

(** ** The mean quantizer: [setPriority], [cutValue], [split] *)

Lemma mean_setPriority_px (img : Image) (c : Mean.cluster) (early : bool) :
  Mean.px (Mean.setPriority img c early) = Mean.px c.
Proof.
  unfold Mean.setPriority.
  by destruct (widest (extents_of img (Mean.px c))) as [[w mn] mx].
Qed.

Lemma mean_setPriority_sync (img : Image) (c : Mean.cluster) (early : bool) :
  in_sync img (Mean.setPriority img c early).
Proof.
  unfold in_sync. rewrite mean_setPriority_px. unfold Mean.setPriority.
  by destruct (widest (extents_of img (Mean.px c))) as [[w mn] mx].
Qed.

Lemma mean_setPriority_early (img : Image) (c : Mean.cluster) :
  Mean.priority (Mean.setPriority img c true) = len (Mean.px c).
Proof.
  unfold Mean.setPriority.
  by destruct (widest (extents_of img (Mean.px c))) as [[w mn] mx].
Qed.

Lemma uint64_small (z : Z) : 0 <= z < 2 ^ 64 -> uint64 z = z.
Proof. intros H. unfold uint64, wrap. apply Z.mod_small. lia. Qed.

Lemma zsum_bounds (l : list Z) (mn mx : Z) :
  Forall (fun v => mn <= v <= mx) l ->
  len l * mn <= zsum l <= len l * mx.
Proof.
  unfold len. induction 1 as [|v l Hv Hl IH]; cbn [zsum foldr length]; [lia|].
  fold (zsum l). lia.
Qed.

Lemma zsum_lt (l : list Z) (mx : Z) :
  Forall (fun v => v <= mx) l -> (exists v, v ∈ l /\ v < mx) ->
  zsum l < len l * mx.
Proof.
  unfold len. induction 1 as [|v l Hv Hl IH]; intros (v0 & Hin & Hlt).
  - by apply elem_of_nil in Hin.
  - cbn [zsum foldr length]. fold (zsum l).
    assert (Hle : zsum l <= Z.of_nat (length l) * mx).
    { clear -Hl. induction Hl as [|w l Hw Hl IH]; cbn [zsum foldr length]; [lia|].
      fold (zsum l). lia. }
    apply elem_of_cons in Hin as [->|Hin]; [lia|].
    specialize (IH (ex_intro _ v0 (conj Hin Hlt))). lia.
Qed.

(** the [uint64] sum of [cutValue] does not wrap *)
Lemma cut_sum_fold (img : Image) (w : wconst) (px : list point) :
  img_ok img ->
  forall acc, 0 <= acc -> acc + 65535 * len px < 2 ^ 64 ->
    fold_left (fun sum p => uint64 (sum + uint64 (channel w (colorAt img p)))) px acc
    = acc + zsum (value img w <$> px).
Proof.
  intros Hok. unfold len.
  induction px as [|p px IH]; intros acc Hacc Hb; cbn [fold_left fmap list_fmap zsum foldr].
  - lia.
  - fold (zsum (value img w <$> px)). fold (value img w p).
    pose proof (value_range img Hok w p) as Hv.
    cbn [length] in Hb.
    rewrite (uint64_small (value img w p)) by lia.
    rewrite uint64_small by lia.
    rewrite IH by lia. lia.
Qed.

(** [cutValue] on an analyzed cluster with a range in its widest channel:
    the cut lies at or above the minimum and strictly below the maximum. *)
Lemma cutValue_spec (img : Image) (c : Mean.cluster) (early : bool) :
  img_ok img -> in_sync img c -> Mean.px c <> [] -> len (Mean.px c) < 2 ^ 47 ->
  Mean.max c > Mean.min c ->
  exists m, Mean.cutValue img c early = Ret m /\ Mean.min c <= m < Mean.max c.
Proof.
  intros Hok Hsync Hne Hlen Hgt. unfold in_sync in Hsync.
  destruct (widest_nonempty img Hok (Mean.px c) _ _ _ Hne Hsync)
    as (Hmn & Hmx & Hall & (p1 & Hp1 & E1) & (p2 & Hp2 & E2) & _).
  unfold Mean.cutValue.
  rewrite (cut_sum_fold img (Mean.widestCh c) (Mean.px c) Hok 0) by lia.
  set (vals := value img (Mean.widestCh c) <$> Mean.px c).
  assert (Hlenv : len vals = len (Mean.px c)) by (unfold len; subst vals; by rewrite length_fmap).
  assert (Hpos : 0 < len (Mean.px c)).
  { unfold len. destruct (Mean.px c); [done | cbn; lia]. }
  assert (Hvals : Forall (fun v => Mean.min c <= v <= Mean.max c) vals).
  { subst vals. by apply Forall_fmap. }
  pose proof (zsum_bounds vals _ _ Hvals) as [Hlo _].
  assert (Hhi : zsum vals < len vals * Mean.max c).
  { apply zsum_lt.
    - eapply Forall_impl; [exact Hvals|]. cbn. lia.
    - exists (Mean.min c). split; [|lia]. subst vals.
      apply list_elem_of_fmap. exists p1. done. }
  rewrite Hlenv in Hlo, Hhi.
  rewrite (uint64_small (len (Mean.px c))) by lia.
  unfold div. destruct (Z.eqb_spec (len (Mean.px c)) 0); [lia|].
  cbn [mbind result_bind Go.bind]. rewrite Z.add_0_l.
  rewrite Z.quot_div_nonneg by lia.
  set (mean := zsum vals / len (Mean.px c)).
  assert (Hmean : Mean.min c <= mean < Mean.max c).
  { subst mean. split.
    - apply Z.div_le_lower_bound; lia.
    - apply Z.div_lt_upper_bound; lia. }
  rewrite (uint32_small mean) by lia.
  destruct early.
  - rewrite (uint32_small (Mean.max c - mean)), (uint32_small (mean - Mean.min c)) by lia.
    rewrite (uint32_small (mean + Mean.max c)), (uint32_small (mean + Mean.min c)) by lia.
    destruct (_ >? _); eexists; (split; [done|]).
    + pose proof (quot2_bounds (mean + Mean.max c)) as [Hq _]. lia.
    + pose proof (quot2_bounds (mean + Mean.min c)) as [Hq _]. lia.
  - exists mean. done.
Qed.

(** [cutValue] on an empty cluster divides by zero. *)
Lemma cutValue_empty (img : Image) (c : Mean.cluster) (early : bool) :
  Mean.px c = [] -> Mean.cutValue img c early = Panic DivideByZero.
Proof. intros H. unfold Mean.cutValue. rewrite H. reflexivity. Qed.

(** [split] of the mean quantizer at a cut between minimum and maximum:
    two non-empty parts. *)
Lemma mean_split_spec (img : Image) (s : Mean.cluster) (m : Z) :
  img_ok img -> in_sync img s -> Mean.px s <> [] ->
  Mean.min s <= m < Mean.max s ->
  exists spx cpx,
    Mean.split img s m = Ret (spx, cpx) /\
    spx ++ cpx ≡ₚ Mean.px s /\ spx <> [] /\ cpx <> [].
Proof.
  intros Hok Hsync Hne Hm. unfold in_sync in Hsync.
  destruct (widest_nonempty img Hok (Mean.px s) _ _ _ Hne Hsync)
    as (Hmn & Hmx & Hall & (p1 & Hp1 & E1) & (p2 & Hp2 & E2) & _).
  unfold Mean.split.
  destruct (split_px_spec img (Mean.widestCh s)
              (fun v => (v <? m) || ((m =? Mean.min s) && (v =? m))) (Mean.px s))
    as (spx & cpx & E & _).
  destruct (split_px_nonempty img _ _ _ _ _ E) as (Hperm & _ & _ & Hs & Hc).
  exists spx, cpx. split; [done|]. split; [done|]. split.
  - apply Hs. exists p1. split; [done|]. rewrite E1.
    destruct (Z.ltb_spec (Mean.min s) m); [done|]. cbn.
    replace m with (Mean.min s) by lia. by rewrite !Z.eqb_refl.
  - apply Hc. exists p2. split; [done|]. rewrite E2.
    destruct (Z.ltb_spec (Mean.max s) m); [lia|]. cbn.
    destruct (Z.eqb_spec (Mean.max s) m); [lia|]. by rewrite andb_false_r.
Qed.

(** ** The scan of mean [cluster] for the cluster to split *)

Lemma seqZ_snoc (n : nat) : seqZ 0 (Z.of_nat (S n)) = seqZ 0 (Z.of_nat n) ++ [Z.of_nat n].
Proof.
  replace (Z.of_nat (S n)) with (Z.of_nat n + 1) by lia.
  rewrite seqZ_app by lia. done.
Qed.

(** The scan returns -1 when no cluster of [cs[0..cx]] has a range and a
    positive priority, and otherwise the first such cluster of the highest
    priority. *)
Lemma select_spec (cs : list Mean.cluster) (n : nat) :
  forall sx mp, Mean.select cs (Z.of_nat n - 1) = (sx, mp) ->
  0 <= mp /\
  ((sx = -1 /\ mp = 0 /\
    forall k, (k < n)%nat -> ~ eligible (cs !!! k)) \/
   (0 <= sx < Z.of_nat n /\ eligible (cs !!! Z.to_nat sx) /\
    Mean.priority (cs !!! Z.to_nat sx) = mp /\
    (forall k, (k < n)%nat -> Mean.max (cs !!! k) > Mean.min (cs !!! k) ->
       Mean.priority (cs !!! k) <= mp) /\
    (forall k, Z.of_nat k < sx -> Mean.max (cs !!! k) > Mean.min (cs !!! k) ->
       Mean.priority (cs !!! k) < mp))).
Proof.
  unfold Mean.select. replace (Z.of_nat n - 1 + 1) with (Z.of_nat n) by lia.
  induction n as [|n IH]; intros sx mp E.
  - cbn in E. injection E as <- <-. split; [done|]. left.
    split; [done|]. split; [done|]. intros k Hk. lia.
  - rewrite seqZ_snoc, fold_left_app in E.
    destruct (fold_left _ (seqZ 0 (Z.of_nat n)) _) as [sx0 mp0].
    destruct (IH sx0 mp0 eq_refl) as [Hmp0 IH']. clear IH.
    cbn [fold_left] in E. rewrite Nat2Z.id in E.
    destruct (Z.gtb_spec (Mean.max (cs !!! n)) (Mean.min (cs !!! n))) as [Hr|Hr];
      cbn [andb] in E.
    + destruct (Z.gtb_spec (Mean.priority (cs !!! n)) mp0) as [Hp|Hp];
        injection E as <- <-.
      * split; [lia|]. right. rewrite Nat2Z.id.
        split; [lia|]. split; [unfold eligible; lia|]. split; [done|]. split.
        -- intros k Hk Hkr. destruct (decide (k = n)) as [->|]; [lia|].
           destruct IH' as [(_ & _ & Hnone)|(_ & _ & _ & Hmax & _)].
           ++ assert (Hne : ~ eligible (cs !!! k)) by (apply Hnone; lia).
              unfold eligible in Hne. lia.
           ++ specialize (Hmax k ltac:(lia) Hkr). lia.
        -- intros k Hk Hkr.
           destruct IH' as [(_ & _ & Hnone)|(_ & _ & _ & Hmax & _)].
           ++ assert (Hne : ~ eligible (cs !!! k)) by (apply Hnone; lia).
              unfold eligible in Hne. lia.
           ++ specialize (Hmax k ltac:(lia) Hkr). lia.
      * split; [done|].
        destruct IH' as [(-> & -> & Hnone)|(Hsx & Hel & Hpri & Hmax & Hfirst)].
        -- left. split; [done|]. split; [done|]. intros k Hk.
           destruct (decide (k = n)) as [->|]; [unfold eligible; lia|].
           apply Hnone. lia.
        -- right. split; [lia|]. split; [done|]. split; [done|]. split; [|done].
           intros k Hk Hkr. destruct (decide (k = n)) as [->|]; [lia|].
           apply Hmax; [lia|done].
    + injection E as <- <-. split; [done|].
      destruct IH' as [(-> & -> & Hnone)|(Hsx & Hel & Hpri & Hmax & Hfirst)].
      * left. split; [done|]. split; [done|]. intros k Hk.
        destruct (decide (k = n)) as [->|]; [unfold eligible; lia|].
        apply Hnone. lia.
      * right. split; [lia|]. split; [done|]. split; [done|]. split; [|done].
        intros k Hk Hkr. destruct (decide (k = n)) as [->|]; [lia|].
        apply Hmax; [lia|done].
Qed.

(** ** The change of priorities between the two stages *)

Lemma reprioritize_same (cx : Z) (cs : list Mean.cluster) (k : nat) :
  same_stats (Mean.reprioritize cs cx !!! k) (cs !!! k).
Proof.
  unfold Mean.reprioritize. generalize (seqZ 0 cx). intros l. revert cs.
  induction l as [|x l IH]; intros cs; cbn [fold_left].
  - done.
  - destruct (IH (<[Z.to_nat x :=
                      Mean.set_priority (cs !!! Z.to_nat x)
                        (Mean.late_priority (Mean.priority (cs !!! Z.to_nat x))
                           (Mean.volume (cs !!! Z.to_nat x)))]> cs))
      as (H1 & H2 & H3 & H4 & H5).
    assert (Hstep : same_stats
              (<[Z.to_nat x :=
                   Mean.set_priority (cs !!! Z.to_nat x)
                     (Mean.late_priority (Mean.priority (cs !!! Z.to_nat x))
                        (Mean.volume (cs !!! Z.to_nat x)))]> cs !!! k) (cs !!! k)).
    { destruct (decide (k = Z.to_nat x)) as [->|Hk].
      - destruct (decide (Z.to_nat x < length cs)%nat) as [Hlt|Hge].
        + rewrite list_lookup_total_insert_eq by done. done.
        + rewrite list_insert_ge by lia. done.
      - rewrite list_lookup_total_insert_ne by done. done. }
    destruct Hstep as (G1 & G2 & G3 & G4 & G5).
    unfold same_stats. rewrite H1, H2, H3, H4, H5. done.
Qed.

Lemma reprioritize_px (cx : Z) (cs : list Mean.cluster) :
  Mean.px <$> Mean.reprioritize cs cx = Mean.px <$> cs.
Proof.
  apply list_eq. intros k. rewrite !list_lookup_fmap.
  destruct (decide (k < length cs)%nat) as [Hlt|Hge].
  - rewrite !list_lookup_lookup_total_lt by (rewrite ?mean_reprioritize_length; done).
    cbn. f_equal. apply reprioritize_same.
  - rewrite !lookup_ge_None_2 by (rewrite ?mean_reprioritize_length; lia). done.
Qed.

Lemma reprioritize_snoc (cs : list Mean.cluster) (n : nat) :
  Mean.reprioritize cs (Z.of_nat (S n)) =
    <[n := Mean.set_priority (Mean.reprioritize cs (Z.of_nat n) !!! n)
             (Mean.late_priority
                (Mean.priority (Mean.reprioritize cs (Z.of_nat n) !!! n))
                (Mean.volume (Mean.reprioritize cs (Z.of_nat n) !!! n)))]>
      (Mean.reprioritize cs (Z.of_nat n)).
Proof.
  unfold Mean.reprioritize. rewrite seqZ_snoc, fold_left_app. cbn [fold_left].
  by rewrite Nat2Z.id.
Qed.

(** The change of priorities rewrites the priority of each of the clusters
    [cs[0..cx-1]] once, from the cluster's own priority and volume. *)
Lemma reprioritize_lookup (cs : list Mean.cluster) (n k : nat) :
  (n <= length cs)%nat ->
  Mean.reprioritize cs (Z.of_nat n) !!! k =
    if decide (k < n)%nat
    then Mean.set_priority (cs !!! k)
           (Mean.late_priority (Mean.priority (cs !!! k)) (Mean.volume (cs !!! k)))
    else cs !!! k.
Proof.
  induction n as [|n IH]; intros Hn.
  - unfold Mean.reprioritize. cbn. by destruct (decide _); [lia|].
  - rewrite reprioritize_snoc.
    destruct (decide (k = n)) as [->|Hk].
    + rewrite list_lookup_total_insert_eq by (rewrite mean_reprioritize_length; lia).
      rewrite IH by lia. destruct (decide (n < n)%nat); [lia|].
      destruct (decide (n < S n)%nat); [done|lia].
    + rewrite list_lookup_total_insert_ne by done. rewrite IH by lia.
      destruct (decide (k < n)%nat), (decide (k < S n)%nat); (done || lia).
Qed.

(** ** What [setPriority] stores *)

Lemma mean_setPriority_again (img : Image) (c : Mean.cluster) (e e' : bool) :
  Mean.setPriority img (Mean.setPriority img c e) e' = Mean.setPriority img c e'.
Proof.
  unfold Mean.setPriority.
  destruct (widest (extents_of img (Mean.px c))) as [[w mn] mx] eqn:E.
  cbn [Mean.px]. by rewrite E.
Qed.

Lemma mean_setPriority_set_priority (img : Image) (c : Mean.cluster) (p : Z) (e : bool) :
  Mean.setPriority img (Mean.set_priority c p) e = Mean.setPriority img c e.
Proof. reflexivity. Qed.

Lemma analyzed_sync (img : Image) (e : bool) (c : Mean.cluster) :
  analyzed img e c -> in_sync img c.
Proof. unfold analyzed. intros H. rewrite <- H. apply mean_setPriority_sync. Qed.

Lemma analyzed_priority (img : Image) (e : bool) (c : Mean.cluster) :
  analyzed img e c ->
  Mean.volume c = volume_of img (Mean.px c) /\
  Mean.priority c =
    if e then len (Mean.px c)
    else Mean.late_priority (len (Mean.px c)) (volume_of img (Mean.px c)).
Proof.
  unfold analyzed. intros H. rewrite <- H. rewrite mean_setPriority_px.
  unfold Mean.setPriority, volume_of.
  destruct (widest (extents_of img (Mean.px c))) as [[w mn] mx].
  cbn [Mean.volume Mean.priority]. by destruct e.
Qed.

(** A cluster analyzed in the first stage, at the change of priorities,
    becomes a cluster analyzed in the second. *)
Lemma analyzed_reprioritized (img : Image) (c : Mean.cluster) :
  analyzed img true c ->
  analyzed img false
    (Mean.set_priority c (Mean.late_priority (Mean.priority c) (Mean.volume c))).
Proof.
  unfold analyzed. intros H. rewrite mean_setPriority_set_priority.
  rewrite <- H at 2 3 4.
  unfold Mean.setPriority.
  by destruct (widest (extents_of img (Mean.px c))) as [[w mn] mx].
Qed.

Lemma late_priority_nonneg (p v : Z) : 0 <= Mean.late_priority p v.
Proof.
  unfold Mean.late_priority.
  set (u := uint64 (uint64 p * Z.shiftr v 16)).
  assert (Hu : 0 <= u < 2 ^ 64).
  { subst u. unfold uint64, wrap. apply Z.mod_pos_bound. lia. }
  rewrite Z.shiftr_div_pow2 by lia.
  assert (0 <= u / 2 ^ 29 < 2 ^ 35).
  { split; [apply Z.div_pos; lia|]. apply Z.div_lt_upper_bound; lia. }
  rewrite int_small; lia.
Qed.

(** An analyzed cluster that the scan cannot choose has one colour, or is
    a cluster of the second stage with priority 0. *)
Lemma not_eligible_cases (img : Image) (e : bool) (c : Mean.cluster) :
  img_ok img -> analyzed img e c -> ~ eligible c ->
  single_colour img (Mean.px c) \/
  (e = false /\ Mean.late_priority (len (Mean.px c)) (volume_of img (Mean.px c)) = 0).
Proof.
  intros Hok Ha Hne. pose proof (analyzed_sync img e c Ha) as Hs.
  destruct (analyzed_priority img e c Ha) as [_ Hp].
  destruct (Mean.px c) as [|p0 px0] eqn:Epx.
  { left. intros p q Hp'. by apply elem_of_nil in Hp'. }
  rewrite <- Epx in *.
  assert (Hpos : 0 < len (Mean.px c)).
  { rewrite Epx. unfold len. cbn. lia. }
  destruct (widest_nonempty img Hok (Mean.px c) _ _ _ ltac:(by rewrite Epx) Hs)
    as (_ & _ & _ & _ & _ & Hone).
  destruct (Z_le_gt_dec (Mean.max c) (Mean.min c)) as [Hle|Hgt]; [left; by apply Hone|].
  right. unfold eligible in Hne. destruct e.
  - lia.
  - split; [done|].
    pose proof (late_priority_nonneg (len (Mean.px c)) (volume_of img (Mean.px c))). lia.
Qed.

(** ** The loop of mean [cluster] *)

Lemma mean_px_lookup_total_fmap (cs cs' : list Mean.cluster) (k : nat) :
  Mean.px <$> cs' = Mean.px <$> cs ->
  Mean.px (cs' !!! k) = Mean.px (cs !!! k).
Proof.
  intros E. rewrite !list_lookup_total_alt.
  assert (H : Mean.px <$> (cs' !! k) = Mean.px <$> (cs !! k)).
  { rewrite <- !list_lookup_fmap. by rewrite E. }
  destruct (cs' !! k), (cs !! k); cbn in *; congruence.
Qed.

Lemma in_sync_nonempty (img : Image) (c : Mean.cluster) :
  in_sync img c -> Mean.max c > Mean.min c -> Mean.px c <> [].
Proof.
  unfold in_sync. intros Hs Hgt E. rewrite E, widest_nil in Hs.
  injection Hs as _ Hmin Hmax. unfold MaxUint32 in *. lia.
Qed.

Section MeanLoop.
Variable img : Image.
Hypothesis Hok : img_ok img.
Variable P : list point.
Hypothesis HP : len P < 2 ^ 47.

(** Computing the statistics of a pending cluster keeps the invariant, with
    the cluster no longer pending. *)
Lemma mean_analyze_step (cs : list Mean.cluster) (early : bool) (x : nat)
    (pend : list nat) (cx : Z) :
  mean_inv img P cs early (x :: pend) cx -> Z.of_nat x <= cx ->
  mean_inv img P (<[x := Mean.setPriority img (cs !!! x) early]> cs) early pend cx.
Proof.
  intros (Hcx & Hpart & Han & Hne) Hx.
  set (cs1 := <[x := Mean.setPriority img (cs !!! x) early]> cs).
  assert (Hxlt : (x < length cs)%nat) by (unfold len in Hcx; lia).
  assert (Hpx : Mean.px <$> cs1 = Mean.px <$> cs).
  { subst cs1. rewrite list_fmap_insert, mean_setPriority_px.
    apply list_insert_id. rewrite list_lookup_fmap.
    by rewrite (list_lookup_lookup_total_lt cs x). }
  assert (Hx1 : cs1 !!! x = Mean.setPriority img (cs !!! x) early).
  { subst cs1. by apply list_lookup_total_insert_eq. }
  assert (Hother : forall k, k <> x -> cs1 !!! k = cs !!! k).
  { intros k Hk. subst cs1. by apply list_lookup_total_insert_ne. }
  split; [unfold len in *; subst cs1; rewrite length_insert; lia|]. split.
  { rewrite fmap_take, Hpx, <- fmap_take. done. }
  split.
  { intros k Hk Hkp. destruct (decide (k = x)) as [->|Hkx].
    - rewrite Hx1. apply mean_setPriority_again.
    - rewrite Hother by done. apply Han; [done|].
      intros Hin. apply elem_of_cons in Hin as [->|Hin]; done. }
  intros HPne k Hk. rewrite (mean_px_lookup_total_fmap cs cs1 k Hpx). by apply Hne.
Qed.

(** Splitting the cluster the scan chose keeps the invariant, with one more
    cluster; the split cluster and the new one are pending. *)
Lemma mean_split_step (cs : list Mean.cluster) (early e : bool) (cx sx mp : Z) :
  mean_inv img P cs early [] cx -> cx + 1 < len cs ->
  Mean.select cs cx = (sx, mp) -> 0 <= sx ->
  let s := cs !!! Z.to_nat sx in
  exists m spx cpx,
    sx <= cx /\
    idx cs sx = Ret s /\
    Mean.cutValue img s e = Ret m /\
    Mean.split img s m = Ret (spx, cpx) /\
    mean_inv img P
      (<[Z.to_nat (cx + 1) :=
           Mean.set_px (<[Z.to_nat sx := Mean.set_px s spx]> cs !!! Z.to_nat (cx + 1)) cpx]>
         (<[Z.to_nat sx := Mean.set_px s spx]> cs))
      early [Z.to_nat sx; Z.to_nat (cx + 1)] (cx + 1).
Proof.
  intros (Hcx & Hpart & Han & Hne) Hlt Esel Hsx0 s.
  replace cx with (Z.of_nat (Z.to_nat (cx + 1)) - 1) in Esel by lia.
  destruct (select_spec cs _ _ _ Esel) as [_ [(-> & _)|(Hsx & Hel & _)]]; [lia|].
  fold s in Hel. destruct Hel as [Hrange Hprio].
  set (ns := Z.to_nat sx) in *. set (ni := Z.to_nat (cx + 1)).
  assert (Hsni : (ns < ni)%nat) by lia.
  assert (Hnilt : (ni < length cs)%nat) by (unfold len in Hlt; lia).
  assert (Hls : cs !! ns = Some s) by (apply list_lookup_lookup_total_lt; lia).
  assert (HPL : (Mean.px <$> take ni cs) !! ns = Some (Mean.px s)).
  { rewrite list_lookup_fmap, lookup_take_lt, Hls by lia. done. }
  assert (Hs_sync : in_sync img s).
  { apply (analyzed_sync img early), Han; [lia | apply not_elem_of_nil]. }
  assert (Hs_ne : Mean.px s <> []) by (by apply (in_sync_nonempty img)).
  assert (Hs_len : len (Mean.px s) < 2 ^ 47).
  { unfold len in *. pose proof (length_concat_lookup _ _ _ HPL) as Hle.
    pose proof (Permutation_length Hpart) as Hpl. subst ni. lia. }
  destruct (cutValue_spec img s e Hok Hs_sync Hs_ne Hs_len Hrange)
    as (m & Ecut & Hm).
  destruct (mean_split_spec img s m Hok Hs_sync Hs_ne Hm)
    as (spx & cpx & Esplit & Hperm & Hspx & Hcpx).
  exists m, spx, cpx.
  split; [lia|]. split.
  { apply idx_Ret. split; [lia|done]. }
  split; [done|]. split; [done|].
  set (l0 := <[ns := Mean.set_px s spx]> cs).
  set (l := <[ni := Mean.set_px (l0 !!! ni) cpx]> l0).
  assert (Hl0len : length l0 = length cs) by (subst l0; by rewrite length_insert).
  assert (Hllen : length l = length cs) by (subst l; by rewrite length_insert).
  assert (Hlni : l !! ni = Some (Mean.set_px (l0 !!! ni) cpx)).
  { subst l. apply list_lookup_insert_eq. lia. }
  assert (Hlni' : l !!! ni = Mean.set_px (l0 !!! ni) cpx).
  { by apply list_lookup_total_correct. }
  assert (Hl_s : l !!! ns = Mean.set_px s spx).
  { subst l. rewrite list_lookup_total_insert_ne by lia.
    subst l0. apply list_lookup_total_insert_eq. lia. }
  assert (Hl_other : forall k, k <> ns -> k <> ni -> l !!! k = cs !!! k).
  { intros k Hks Hkn. subst l. rewrite list_lookup_total_insert_ne by done.
    subst l0. by rewrite list_lookup_total_insert_ne. }
  split; [unfold len in *; lia|]. split.
  { replace (Z.to_nat (cx + 1 + 1)) with (S ni) by lia.
    rewrite (take_S_r _ _ _ Hlni). subst l. rewrite take_insert_ge by lia.
    subst l0. rewrite take_insert_lt by lia.
    rewrite fmap_app, list_fmap_insert, concat_app. cbn. rewrite app_nil_r.
    rewrite <- Hpart. eapply concat_insert_split; [exact HPL | by symmetry]. }
  split.
  { intros k Hk Hkp.
    assert (k <> ns) by (intros ->; apply Hkp; left).
    assert (k <> ni) by (intros ->; apply Hkp; right; left).
    rewrite Hl_other by done. apply Han; [lia | apply not_elem_of_nil]. }
  intros HPne k Hk. destruct (decide (k = ni)) as [->|Hkn].
  - rewrite Hlni'. done.
  - destruct (decide (k = ns)) as [->|Hks].
    + rewrite Hl_s. done.
    + rewrite Hl_other by done. apply Hne; [done|lia].
Qed.

(** The change of priorities, made when the second stage starts, turns the
    invariant of the first stage into that of the second. *)
Lemma mean_reprioritize_step (cs : list Mean.cluster) (pend : list nat) (cx : Z) :
  mean_inv img P cs true pend cx -> Z.to_nat cx ∈ pend ->
  mean_inv img P (Mean.reprioritize cs cx) false pend cx.
Proof.
  intros (Hcx & Hpart & Han & Hne) Hpend.
  pose proof (reprioritize_px cx cs) as Hpx.
  split; [unfold len in *; rewrite mean_reprioritize_length; lia|]. split.
  { rewrite fmap_take, Hpx, <- fmap_take. done. }
  split.
  { intros k Hk Hkp.
    assert (Hkcx : k <> Z.to_nat cx) by (intros ->; done).
    replace cx with (Z.of_nat (Z.to_nat cx)) at 1 by lia.
    rewrite reprioritize_lookup by (unfold len in Hcx; lia).
    destruct (decide (k < Z.to_nat cx)%nat); [|lia].
    apply analyzed_reprioritized, Han; done. }
  intros HPne k Hk. rewrite (mean_px_lookup_total_fmap cs _ k Hpx). by apply Hne.
Qed.

(** The invariant at an exit of the loop gives the result of [cluster]. *)
Lemma mean_post_of_inv (cs : list Mean.cluster) (pend : list nat) (early : bool)
    (cx K : Z) (n : nat) :
  mean_inv img P cs early pend cx ->
  Z.of_nat n = cx -> cx + 1 <= K ->
  (cx + 1 < K ->
   pend = [] /\ early = (cx <? Z.quot K 2) /\
   forall k, Z.of_nat k <= cx -> ~ eligible (cs !!! k)) ->
  mean_post img P K (Mean.mkQuantizer img (take (Z.to_nat (cx + 1)) cs)) n.
Proof.
  intros (Hcx & Hpart & Han & Hne) Hn HK Hexit.
  unfold mean_post. cbn [Mean.img Mean.cs].
  assert (Hlen : len (take (Z.to_nat (cx + 1)) cs) = cx + 1).
  { unfold len in *. rewrite length_take. lia. }
  rewrite Hlen.
  assert (Hlk : forall k x, take (Z.to_nat (cx + 1)) cs !! k = Some x ->
                            Z.of_nat k <= cx /\ x = cs !!! k).
  { intros k x Hk. apply lookup_take_Some in Hk as [Hk Hki].
    split; [lia|]. symmetry. by apply list_lookup_total_correct. }
  split; [done|]. split; [lia|]. split; [lia|]. split; [done|]. split.
  - intros HPne. apply Forall_lookup_2. intros k x Hk.
    apply Hlk in Hk as [Hk ->]. by apply Hne.
  - intros HiK. destruct (Hexit HiK) as (-> & -> & Hnone).
    apply Forall_lookup_2. intros k x Hk.
    apply Hlk in Hk as [Hk ->]. split; [|by apply Hnone].
    replace (cx + 1 - 1) with cx by lia.
    apply Han; [done | apply not_elem_of_nil].
Qed.

(** The loop of [cluster], entered with more clusters to populate, returns
    and establishes what [cluster] promises. *)
Lemma mean_loop_spec (fuel : nat) :
  forall (cs : list Mean.cluster) (cx : Z) (n : nat),
    let half := Z.quot (len cs) 2 in
    mean_inv img P cs (cx <? half) [Z.to_nat cx] cx ->
    cx + 1 < len cs -> Z.of_nat n = cx ->
    (Z.to_nat (len cs - 1 - cx) <= fuel)%nat ->
    exists l n',
      Mean.cluster_loop fuel img cs half cx n = Ret (l, n') /\
      mean_post img P (len cs) (Mean.mkQuantizer img l) n'.
Proof.
  induction fuel as [|fuel IH]; intros cs cx n half Inv Hlt Hn Hfuel; [lia|].
  cbn [Mean.cluster_loop].
  pose proof (mean_analyze_step cs (cx <? half) (Z.to_nat cx) [] cx Inv ltac:(lia)) as Inv1.
  set (cs1 := <[Z.to_nat cx := Mean.setPriority img (cs !!! Z.to_nat cx) (cx <? half)]> cs) in *.
  assert (Hlen1 : len cs1 = len cs) by (unfold len; subst cs1; by rewrite length_insert).
  destruct (Mean.select cs1 cx) as [sx mp] eqn:Esel.
  destruct (Z.ltb_spec sx 0) as [Hneg|Hpos].
  - rewrite slice_to_ok by lia. cbn [mbind result_bind Go.bind].
    eexists _, _. split; [done|].
    eapply mean_post_of_inv; [exact Inv1 | done | lia |].
    intros _. split; [done|]. split; [done|].
    replace cx with (Z.of_nat (Z.to_nat (cx + 1)) - 1) in Esel by lia.
    destruct (select_spec cs1 _ _ _ Esel) as [_ [(_ & _ & Hnone)|(Hsx & _)]]; [|lia].
    intros k Hk. apply Hnone. lia.
  - destruct (mean_split_step cs1 (cx <? half) (cx <? half) cx sx mp Inv1 ltac:(lia) Esel Hpos)
      as (m & spx & cpx & Hsx & Eidx & Ecut & Esplit & Inv2).
    rewrite Eidx. cbn [mbind result_bind Go.bind].
    rewrite Ecut. cbn [mbind result_bind Go.bind].
    destruct (idx_lt cs1 (cx + 1) ltac:(lia)) as (ci & -> & _).
    cbn [mbind result_bind Go.bind].
    rewrite Esplit. cbn [mbind result_bind Go.bind].
    set (l0 := <[Z.to_nat sx := Mean.set_px (cs1 !!! Z.to_nat sx) spx]> cs1) in *.
    set (l := <[Z.to_nat (cx + 1) := Mean.set_px (l0 !!! Z.to_nat (cx + 1)) cpx]> l0) in *.
    assert (Hlenl : len l = len cs).
    { unfold len in *. subst l l0. by rewrite !length_insert. }
    rewrite Hlenl.
    destruct (Z.eqb_spec (cx + 1) (len cs - 1)) as [Hlast|Hmore].
    + eexists _, _. split; [done|].
      rewrite <- (take_ge l (Z.to_nat (cx + 1 + 1))) by (unfold len in *; lia).
      eapply mean_post_of_inv; [exact Inv2 | lia | lia | lia].
    + set (l1 := if cx + 1 =? half then Mean.reprioritize l (cx + 1) else l).
      assert (Inv3 : mean_inv img P l1 (cx + 1 <? half)
                       [Z.to_nat sx; Z.to_nat (cx + 1)] (cx + 1)).
      { subst l1. destruct (Z.eqb_spec (cx + 1) half) as [Eh|Nh].
        - destruct (Z.ltb_spec cx half); [|lia].
          destruct (Z.ltb_spec (cx + 1) half); [lia|].
          apply mean_reprioritize_step; [done|]. right. left.
        - replace (cx + 1 <? half) with (cx <? half); [done|].
          destruct (Z.ltb_spec cx half), (Z.ltb_spec (cx + 1) half); (done || lia). }
      assert (Hlen3 : len l1 = len cs).
      { subst l1. destruct (cx + 1 =? half); [|done].
        unfold len in *. by rewrite mean_reprioritize_length. }
      pose proof (mean_analyze_step l1 (cx + 1 <? half) (Z.to_nat sx) [Z.to_nat (cx + 1)]
                    (cx + 1) Inv3 ltac:(lia)) as Inv4.
      set (l2 := <[Z.to_nat sx := Mean.setPriority img (l1 !!! Z.to_nat sx) (cx + 1 <? half)]> l1) in *.
      assert (Hlen4 : len l2 = len cs).
      { unfold len in *. subst l2. rewrite length_insert. lia. }
      destruct (IH l2 (cx + 1) (S n)) as (q' & n' & E & Hpost).
      { rewrite Hlen4. exact Inv4. }
      { lia. }
      { lia. }
      { lia. }
      rewrite Hlen4 in E, Hpost.
      exists q', n'. split; [exact E | exact Hpost].
Qed.

End MeanLoop.

(** ** Mean [cluster] on an image *)

Lemma mean_run_spec (img : Image) (n : Z) :
  rect_ok (Bounds img) -> img_ok img -> len (pixels (Bounds img)) < 2 ^ 47 -> 1 <= n ->
  exists q k,
    mean_clusters img n = Ret (q, k) /\
    mean_post img (pixels (Bounds img)) n q k.
Proof.
  intros Hb Hok HP Hn. unfold mean_clusters.
  rewrite mean_newQuantizer_ok by (done || lia).
  cbn [mbind result_bind Go.bind].
  set (P := pixels (Bounds img)) in *.
  set (cs := Mean.mkCluster P wr 0 0 0 0 :: replicate (Z.to_nat (n - 1)) Mean.cluster0).
  assert (Hlen : len cs = n).
  { unfold len. subst cs. cbn [length]. rewrite length_replicate. lia. }
  destruct (Z.gtb_spec n 1) as [Hgt|Hle].
  - unfold Mean.cluster_counted.
    cbn [Mean.cs Mean.img].
    assert (E0 : idx cs 0 = Ret (Mean.mkCluster P wr 0 0 0 0)) by apply idx_0_cons.
    rewrite E0. cbn [mbind result_bind Go.bind].
    destruct (mean_loop_spec img Hok P HP (length cs) cs 0 0%nat)
      as (l & k & E & Hpost); try lia.
    + split; [lia|]. split.
      { subst cs. change (Z.to_nat (0 + 1)) with 1%nat. cbn. by rewrite ?app_nil_r. }
      split.
      { intros k Hk Hkp. exfalso. apply Hkp. replace k with 0%nat by lia. left. }
      intros HPne k Hk. replace k with 0%nat by lia. done.
    + unfold len. lia.
    + rewrite E. cbn [mbind result_bind Go.bind].
      exists (Mean.mkQuantizer img l), k. rewrite Hlen in Hpost. done.
  - assert (En : n = 1) by lia.
    exists (Mean.mkQuantizer img cs), 0%nat. split; [done|].
    unfold mean_post. cbn [Mean.img Mean.cs]. rewrite Hlen.
    assert (Ecs : cs = [Mean.mkCluster P wr 0 0 0 0]).
    { unfold cs. rewrite En. reflexivity. }
    split; [done|]. split; [lia|]. split; [lia|]. split.
    { rewrite Ecs. cbn. by rewrite app_nil_r. }
    split; [|lia].
    intros HPne. rewrite Ecs. constructor; [done|constructor].
Qed.

(** ** What mean [cluster] guarantees *)

Lemma img_rrgb_small : len (pixels (Bounds img_rrgb)) < 2 ^ 47.
Proof. vm_compute. reflexivity. Qed.

(** [X4] Mean [cluster] as [Image] and [Palette] run it (not at all for one
    colour), asked for one or more colours, returns, and the pixel lists of
    the clusters it returns partition the pixels of the image; no cluster
    of a non-empty image is empty. *)
Theorem mean_cluster_partitions (img : Image) (n : Z) :
  rect_ok (Bounds img) -> img_ok img -> len (pixels (Bounds img)) < 2 ^ 47 ->
  1 <= n ->
  exists q k,
    mean_clusters img n = Ret (q, k) /\
    partitions (Mean.px <$> Mean.cs q) (Bounds img) /\
    (pixels (Bounds img) <> [] -> Forall (fun c => Mean.px c <> []) (Mean.cs q)).
Proof.
  intros Hb Hok HP Hn.
  destruct (mean_run_spec img n Hb Hok HP Hn) as (q & k & E & _ & _ & _ & Hperm & Hne & _).
  exists q, k. split; [done|]. split; [|done]. split; [done|].
  rewrite Hperm. apply NoDup_pixels.
Qed.

Lemma mean_cluster_partitions_witness :
  rect_ok (Bounds img_rrgb) /\ img_ok img_rrgb /\
  len (pixels (Bounds img_rrgb)) < 2 ^ 47 /\ 1 <= 3 /\
  exists q k,
    mean_clusters img_rrgb 3 = Ret (q, k) /\
    partitions (Mean.px <$> Mean.cs q) (Bounds img_rrgb) /\
    (pixels (Bounds img_rrgb) <> [] -> Forall (fun c => Mean.px c <> []) (Mean.cs q)).
Proof.
  destruct img_rrgb_ok as [Hb Hok].
  split; [exact Hb|]. split; [exact Hok|]. split; [exact img_rrgb_small|]. split; [lia|].
  apply (mean_cluster_partitions img_rrgb 3 Hb Hok img_rrgb_small). lia.
Defined.

(** [X5] Mean [cluster], asked for [n >= 1] colours, returns between 1 and
    [n] clusters, one more than the number of splits it made.  It returns
    fewer than [n] only when every cluster either has a single colour or,
    in the second stage (more than [n/2] clusters), has priority
    [population * (volume >> 16) >> 29] equal to 0.  So when it stops with
    at most [n/2] clusters every cluster has one colour, and the image has
    no more distinct colours than clusters were returned. *)
Theorem mean_cluster_count (img : Image) (n : Z) :
  rect_ok (Bounds img) -> img_ok img -> len (pixels (Bounds img)) < 2 ^ 47 ->
  1 <= n ->
  exists q k,
    mean_clusters img n = Ret (q, k) /\
    1 <= len (Mean.cs q) <= n /\
    len (Mean.cs q) = 1 + Z.of_nat k /\
    (len (Mean.cs q) < n ->
     Forall (fun c =>
               single_colour img (Mean.px c) \/
               (Z.quot n 2 < len (Mean.cs q) /\
                Mean.late_priority (len (Mean.px c)) (volume_of img (Mean.px c)) = 0))
            (Mean.cs q)) /\
    (len (Mean.cs q) < n -> len (Mean.cs q) <= Z.quot n 2 ->
     Forall (fun c => single_colour img (Mean.px c)) (Mean.cs q) /\
     len (colours img) <= len (Mean.cs q)).
Proof.
  intros Hb Hok HP Hn.
  destruct (mean_run_spec img n Hb Hok HP Hn)
    as (q & k & E & _ & Hl & Hk & Hperm & Hne & Hs).
  exists q, k. split; [done|]. split; [done|]. split; [done|].
  assert (Hcases : len (Mean.cs q) < n ->
            Forall (fun c =>
               single_colour img (Mean.px c) \/
               (Z.quot n 2 < len (Mean.cs q) /\
                Mean.late_priority (len (Mean.px c)) (volume_of img (Mean.px c)) = 0))
            (Mean.cs q)).
  { intros Hlt. specialize (Hs Hlt). eapply Forall_impl; [exact Hs|].
    intros c [Ha Hnel]. cbn beta.
    destruct (not_eligible_cases img _ c Hok Ha Hnel) as [H1|[He H0]]; [by left|].
    right. split; [|done]. apply Z.ltb_ge in He. lia. }
  split; [exact Hcases|].
  intros Hlt Hhalf.
  assert (Hone : Forall (fun c => single_colour img (Mean.px c)) (Mean.cs q)).
  { eapply Forall_impl; [exact (Hcases Hlt)|]. intros c [H1|[H2 _]]; [done|lia]. }
  split; [done|].
  unfold len. apply inj_le. rewrite <- (length_fmap Mean.px).
  apply colours_le_clusters; [done|]. by apply Forall_fmap.
Qed.

Lemma mean_cluster_count_witness :
  rect_ok (Bounds img_rrgb) /\ img_ok img_rrgb /\
  len (pixels (Bounds img_rrgb)) < 2 ^ 47 /\ 1 <= 3 /\
  exists q k,
    mean_clusters img_rrgb 3 = Ret (q, k) /\
    1 <= len (Mean.cs q) <= 3 /\
    len (Mean.cs q) = 1 + Z.of_nat k.
Proof.
  destruct img_rrgb_ok as [Hb Hok].
  split; [exact Hb|]. split; [exact Hok|]. split; [exact img_rrgb_small|]. split; [lia|].
  destruct (mean_cluster_count img_rrgb 3 Hb Hok img_rrgb_small ltac:(lia))
    as (q & k & E & Hl & Hk & _).
  exists q, k. split; [exact E|]. split; [exact Hl | exact Hk].
Defined.

(** ** [paletted]: the palette and the pixel indices *)

Lemma elem_of_pixels (b : Rectangle) (p : point) :
  p ∈ pixels b <-> MinX b <= p.1 < MaxX b /\ MinY b <= p.2 < MaxY b.
Proof.
  unfold pixels. rewrite list_elem_of_bind. split.
  - intros (y & Hp & Hy). apply list_elem_of_bind in Hp as (x & Hp & Hx).
    apply list_elem_of_singleton in Hp. subst p. cbn.
    apply elem_of_seqZ in Hx, Hy. lia.
  - intros [Hx Hy]. exists p.2. split; [|apply elem_of_seqZ; lia].
    apply list_elem_of_bind. exists p.1. split; [|apply elem_of_seqZ; lia].
    apply list_elem_of_singleton. by destruct p.
Qed.

Lemma uint8_small (z : Z) : 0 <= z <= 255 -> uint8 z = z.
Proof. intros H. unfold uint8, wrap. apply Z.mod_small. lia. Qed.

Section Stamp.
Context {C : Type}.

Lemma PixOffset_range (pi : Paletted C) (p : point) :
  pal_wf pi -> p ∈ pixels (Rect pi) ->
  0 <= PixOffset pi p < len (Pix pi).
Proof.
  intros (Hr & Hs & Hl) Hp. apply elem_of_pixels in Hp.
  unfold PixOffset. rewrite Hs, Hl. unfold Dx, Dy in *. nia.
Qed.

Lemma PixOffset_inj (pi : Paletted C) (p q : point) :
  pal_wf pi -> p ∈ pixels (Rect pi) -> q ∈ pixels (Rect pi) ->
  PixOffset pi p = PixOffset pi q -> p = q.
Proof.
  intros (Hr & Hs & Hl) Hp Hq. apply elem_of_pixels in Hp, Hq.
  unfold PixOffset. rewrite Hs. unfold Dx in *. intros E.
  destruct p as [x1 y1], q as [x2 y2]. cbn in *.
  assert (y1 = y2) by nia. subst y2. f_equal. lia.
Qed.

(** [SetColorIndex] on a pixel of the image stores the index for that
    pixel and for no other. *)
Lemma SetColorIndex_spec (pi : Paletted C) (p : point) (v : Z) :
  pal_wf pi -> p ∈ pixels (Rect pi) ->
  let pi' := SetColorIndex pi (int p.1) (int p.2) v in
  pal_wf pi' /\ Rect pi' = Rect pi /\ Palette pi' = Palette pi /\
  index_at pi' p = Some v /\
  (forall q, q ∈ pixels (Rect pi) -> q <> p -> index_at pi' q = index_at pi q).
Proof.
  intros Hwf Hp pi'.
  pose proof (PixOffset_range pi p Hwf Hp) as Hoff.
  pose proof Hp as Hp'. apply elem_of_pixels in Hp'.
  destruct Hwf as (Hr & Hs & Hl). pose proof Hr as (R1 & R2 & R3 & R4 & R5).
  assert (E1 : int p.1 = p.1) by (apply int_small; lia).
  assert (E2 : int p.2 = p.2) by (apply int_small; lia).
  assert (Epi : pi' = mkPaletted (<[Z.to_nat (PixOffset pi p) := v]> (Pix pi))
                        (Stride pi) (Rect pi) (Palette pi)).
  { subst pi'. unfold SetColorIndex. rewrite E1, E2. unfold In_rect.
    destruct (Z.leb_spec (MinX (Rect pi)) p.1); [|lia].
    destruct (Z.ltb_spec p.1 (MaxX (Rect pi))); [|lia].
    destruct (Z.leb_spec (MinY (Rect pi)) p.2); [|lia].
    destruct (Z.ltb_spec p.2 (MaxY (Rect pi))); [|lia]. reflexivity. }
  rewrite Epi. cbn [Rect Palette].
  split.
  { unfold pal_wf. cbn [Rect Stride Pix]. split; [done|]. split; [done|].
    unfold len in *. by rewrite length_insert. }
  split; [done|]. split; [done|]. split.
  - unfold index_at, PixOffset. cbn [Pix Rect Stride].
    apply list_lookup_insert_eq. unfold len in Hoff. fold (PixOffset pi p). lia.
  - intros q Hq Hne. unfold index_at, PixOffset. cbn [Pix Rect Stride].
    fold (PixOffset pi p) (PixOffset pi q).
    apply list_lookup_insert_ne. intros E.
    pose proof (PixOffset_range pi q (conj Hr (conj Hs Hl)) Hq) as Hoffq.
    apply Hne. symmetry. apply (PixOffset_inj pi p q (conj Hr (conj Hs Hl)) Hp Hq). lia.
Qed.

(** The pixels of a cluster, stamped with the cluster's index. *)
Lemma stamp_spec (v : Z) (px : list point) :
  forall pi : Paletted C,
    pal_wf pi -> Forall (fun p => p ∈ pixels (Rect pi)) px ->
    let pi' := fold_left (fun pi p => SetColorIndex pi (int p.1) (int p.2) v) px pi in
    pal_wf pi' /\ Rect pi' = Rect pi /\ Palette pi' = Palette pi /\
    (forall p, p ∈ px -> index_at pi' p = Some v) /\
    (forall q, q ∈ pixels (Rect pi) -> q ∉ px -> index_at pi' q = index_at pi q).
Proof.
  induction px as [|p px IH]; intros pi Hwf Hin; cbn [fold_left].
  - split; [done|]. split; [done|]. split; [done|]. split; [|done].
    intros p Hp. by apply elem_of_nil in Hp.
  - apply Forall_cons in Hin as [Hp Hin].
    destruct (SetColorIndex_spec pi p v Hwf Hp) as (Hwf1 & Hr1 & Hp1 & Hat & Hother).
    destruct (IH (SetColorIndex pi (int p.1) (int p.2) v) Hwf1)
      as (Hwf2 & Hr2 & Hp2 & Hin2 & Hout2).
    { by rewrite Hr1. }
    split; [done|]. split; [congruence|]. split; [congruence|]. split.
    + intros q Hq. destruct (decide (q ∈ px)) as [Hqpx|Hqpx]; [by apply Hin2|].
      apply elem_of_cons in Hq as [->|Hq]; [|done].
      rewrite Hout2; [done | by rewrite Hr1 | done].
    + intros q Hq Hnq. apply not_elem_of_cons in Hnq as [Hqp Hqpx].
      rewrite Hout2; [by apply Hother | by rewrite Hr1 | done].
Qed.

End Stamp.

(** The [int64] sums of [paletted] do not wrap. *)
Lemma sums_spec (img : Image) (px : list point) :
  img_ok img -> len px < 2 ^ 47 ->
  sums img px =
    (zsum ((fun p => cr (colorAt img p)) <$> px),
     zsum ((fun p => cg (colorAt img p)) <$> px),
     zsum ((fun p => cb (colorAt img p)) <$> px)).
Proof.
  intros Hok Hlen. unfold sums.
  enough (H : forall r g b,
    0 <= r -> 0 <= g -> 0 <= b ->
    r + 65535 * len px < 2 ^ 63 -> g + 65535 * len px < 2 ^ 63 ->
    b + 65535 * len px < 2 ^ 63 ->
    fold_left (fun '(rsum, gsum, bsum) p =>
                 let c := colorAt img p in
                 (int64 (rsum + int64 (cr c)),
                  int64 (gsum + int64 (cg c)),
                  int64 (bsum + int64 (cb c)))) px (r, g, b) =
      (r + zsum ((fun p => cr (colorAt img p)) <$> px),
       g + zsum ((fun p => cg (colorAt img p)) <$> px),
       b + zsum ((fun p => cb (colorAt img p)) <$> px))).
  { rewrite H by lia. done. }
  clear Hlen. unfold len.
  induction px as [|p px IH]; intros r g b Hr Hg Hb Br Bg Bb;
    cbn [fold_left fmap list_fmap zsum foldr length] in *.
  - f_equal; [f_equal|]; lia.
  - destruct (Hok (int p.1) (int p.2)) as (H1 & H2 & H3).
    fold (colorAt img p) in H1, H2, H3. unfold chan_ok in *.
    rewrite (int64_small (cr (colorAt img p))), (int64_small (cg (colorAt img p))),
      (int64_small (cb (colorAt img p))) by lia.
    rewrite (int64_small (r + _)), (int64_small (g + _)), (int64_small (b + _)) by lia.
    rewrite IH by lia.
    fold (zsum ((fun p => cr (colorAt img p)) <$> px)).
    fold (zsum ((fun p => cg (colorAt img p)) <$> px)).
    fold (zsum ((fun p => cb (colorAt img p)) <$> px)).
    f_equal; [f_equal|]; lia.
Qed.

(** one channel of the mean colour: the [int64] division and the
    conversion to [uint8] lose nothing *)
Lemma mean_channel (l : list Z) (n : Z) :
  Forall (fun v => 0 <= v <= 65535) l -> n = len l -> 0 < n ->
  div (zsum l) (256 * n) = Ret (zsum l / (256 * n)) /\
  uint8 (zsum l / (256 * n)) = zsum l / (256 * n).
Proof.
  intros Hl -> Hn. pose proof (zsum_bounds l 0 65535 Hl) as [Hlo Hhi].
  split.
  - unfold div. destruct (Z.eqb_spec (256 * len l) 0); [lia|].
    by rewrite Z.quot_div_nonneg by lia.
  - apply uint8_small. split; [apply Z.div_pos; lia|].
    apply Z.lt_succ_r. apply Z.div_lt_upper_bound; lia.
Qed.

(** One turn of the loop of [paletted] on a non-empty cluster. *)
Lemma paletted_step_spec (img : Image) (i : Z) (px : list point)
    (cp : list RGBA) (pi : Paletted RGBA) :
  img_ok img -> px <> [] -> len px < 2 ^ 47 -> 0 <= i < len cp ->
  paletted_step img i px (cp, pi) =
    Ret (<[Z.to_nat i := mean_colour img px]> cp,
         fold_left (fun pi p => SetColorIndex pi (int p.1) (int p.2) (uint8 i)) px pi).
Proof.
  intros Hok Hne Hlen Hi. unfold paletted_step.
  rewrite sums_spec by done.
  assert (Hpos : 0 < len px) by (unfold len; destruct px; [done | cbn; lia]).
  assert (En : int64 (int (Z.shiftl (len px) 8)) = 256 * len px).
  { rewrite Z.shiftl_mul_pow2 by lia.
    rewrite (int_small (len px * 2 ^ 8)) by lia.
    rewrite (int64_small (len px * 2 ^ 8)) by lia. lia. }
  rewrite En.
  assert (Hch : forall f : RGB -> Z,
            (forall c, rgb_ok c -> 0 <= f c <= 65535) ->
            Forall (fun v => 0 <= v <= 65535) ((fun p => f (colorAt img p)) <$> px)).
  { intros f Hf. apply Forall_fmap, Forall_forall. intros p _. cbn. apply Hf, Hok. }
  destruct (mean_channel ((fun p => cr (colorAt img p)) <$> px) (len px)) as [-> Er];
    [apply Hch; by intros c (H & _ & _) | unfold len; by rewrite length_fmap | done |].
  destruct (mean_channel ((fun p => cg (colorAt img p)) <$> px) (len px)) as [-> Eg];
    [apply Hch; by intros c (_ & H & _) | unfold len; by rewrite length_fmap | done |].
  destruct (mean_channel ((fun p => cb (colorAt img p)) <$> px) (len px)) as [-> Eb];
    [apply Hch; by intros c (_ & _ & H) | unfold len; by rewrite length_fmap | done |].
  cbn [mbind result_bind Go.bind].
  destruct (idx_lt cp i Hi) as (c0 & -> & _). cbn [mbind result_bind Go.bind].
  rewrite Er, Eg, Eb. reflexivity.
Qed.

(** The loop of [paletted] over clusters that are non-empty and disjoint:
    palette entry [i + j] is the mean colour of cluster [j], whose pixels
    are stamped with [uint8(i + j)]. *)
Lemma paletted_loop_spec (img : Image) (pxs : list (list point)) :
  img_ok img ->
  forall (i : Z) (cp : list RGBA) (pi : Paletted RGBA),
    pal_wf pi -> 0 <= i -> i + len pxs <= len cp ->
    Forall (fun px => px <> [] /\ len px < 2 ^ 47 /\
                      Forall (fun p => p ∈ pixels (Rect pi)) px) pxs ->
    NoDup (concat pxs) ->
    exists cp' pi',
      paletted_loop img i pxs (cp, pi) = Ret (cp', pi') /\
      pal_wf pi' /\ Rect pi' = Rect pi /\ length cp' = length cp /\
      (forall j px, pxs !! j = Some px ->
         cp' !! (Z.to_nat i + j)%nat = Some (mean_colour img px)) /\
      (forall k, (k < Z.to_nat i)%nat -> cp' !! k = cp !! k) /\
      (forall j px p, pxs !! j = Some px -> p ∈ px ->
         index_at pi' p = Some (uint8 (i + Z.of_nat j))) /\
      (forall q, q ∈ pixels (Rect pi) -> q ∉ concat pxs ->
         index_at pi' q = index_at pi q).
Proof.
  intros Hok. induction pxs as [|px pxs IH]; intros i cp pi Hwf Hi Hlen Hall Hnd.
  - exists cp, pi. split; [done|]. split; [done|]. split; [done|]. split; [done|].
    split; [intros j px H; by rewrite lookup_nil in H|]. split; [done|].
    split; [intros j px p H; by rewrite lookup_nil in H|]. done.
  - apply Forall_cons in Hall as [(Hne & Hl47 & Hin) Hall].
    cbn [concat] in Hnd. apply NoDup_app in Hnd as (Hnd1 & Hdisj & Hnd2).
    assert (Hlen' : i + 1 + len pxs <= len cp).
    { unfold len in *. cbn [length] in Hlen. lia. }
    cbn [paletted_loop].
    rewrite paletted_step_spec by (done || unfold len in *; lia).
    cbn [mbind result_bind Go.bind].
    destruct (stamp_spec (uint8 i) px pi Hwf Hin) as (Hwf1 & Hr1 & _ & Hin1 & Hout1).
    set (pi1 := fold_left (fun pi p => SetColorIndex pi (int p.1) (int p.2) (uint8 i)) px pi) in *.
    set (cp1 := <[Z.to_nat i := mean_colour img px]> cp).
    destruct (IH (i + 1) cp1 pi1 Hwf1) as (cp' & pi' & E & Hwf' & Hr' & Hl' & Hpal & Hkeep & Hidx & Hout).
    { lia. }
    { unfold len in *. subst cp1. rewrite length_insert. lia. }
    { rewrite Hr1. done. }
    { done. }
    exists cp', pi'. split; [done|]. split; [done|]. split; [congruence|].
    split; [subst cp1; by rewrite Hl', length_insert|].
    split.
    { intros [|j] px' Hj.
      - injection Hj as <-. rewrite Nat.add_0_r, Hkeep by lia.
        subst cp1. apply list_lookup_insert_eq. unfold len in *. lia.
      - cbn in Hj. replace (Z.to_nat i + S j)%nat with (Z.to_nat (i + 1) + j)%nat by lia.
        by apply Hpal. }
    split.
    { intros k Hk. rewrite Hkeep by lia. subst cp1.
      apply list_lookup_insert_ne. lia. }
    split.
    { intros [|j] px' p Hj Hp.
      - injection Hj as <-. rewrite Z.add_0_r.
        rewrite Hout; [by apply Hin1 | | by apply Hdisj].
        rewrite Hr1. rewrite Forall_forall in Hin. by apply Hin.
      - cbn in Hj. replace (i + Z.of_nat (S j)) with (i + 1 + Z.of_nat j) by lia.
        by eapply Hidx. }
    intros q Hq Hnq. cbn [concat] in Hnq. apply not_elem_of_app in Hnq as [Hq1 Hq2].
    rewrite Hout; [by apply Hout1 | by rewrite Hr1 | done].
Qed.

(** [paletted] on clusters that partition the pixels of the image into
    non-empty lists. *)
Lemma paletted_of_spec (img : Image) (pxs : list (list point)) :
  rect_ok (Bounds img) -> img_ok img -> len (pixels (Bounds img)) < 2 ^ 47 ->
  partitions pxs (Bounds img) -> Forall (fun px => px <> []) pxs ->
  exists pi,
    paletted_of img pxs = Ret pi /\
    pal_wf pi /\ Rect pi = Bounds img /\
    Palette pi = mean_colour img <$> pxs /\
    (forall j px p, pxs !! j = Some px -> p ∈ px ->
       index_at pi p = Some (uint8 (Z.of_nat j))).
Proof.
  intros Hb Hok HP [Hperm Hnd] Hne. unfold paletted_of.
  set (cp := replicate (length pxs) (mkRGBA 0 0 0 0)).
  assert (Hwf : pal_wf (NewPaletted (Bounds img) cp)).
  { unfold pal_wf, NewPaletted. cbn [Rect Stride Pix]. split; [done|]. split; [done|].
    unfold len. rewrite length_replicate.
    pose proof (length_pixels _ Hb). unfold len in *. lia. }
  destruct (paletted_loop_spec img pxs Hok 0 cp (NewPaletted (Bounds img) cp) Hwf)
    as (cp' & pi' & E & Hwf' & Hr' & Hl' & Hpal & _ & Hidx & _).
  { lia. }
  { unfold len. subst cp. rewrite length_replicate. lia. }
  { apply Forall_lookup_2. intros j px Hj.
    split; [by eapply Forall_lookup_1 in Hne|].
    pose proof (length_concat_lookup _ _ _ Hj) as Hle.
    rewrite (Permutation_length Hperm) in Hle.
    split; [unfold len in *; lia|].
    apply Forall_forall. intros p Hp. cbn [NewPaletted Rect].
    rewrite <- Hperm. apply elem_of_concat. exists px. split; [|done].
    by eapply list_elem_of_lookup_2. }
  { done. }
  rewrite E. cbn [mbind result_bind Go.bind].
  eexists. split; [done|]. cbn [Rect Palette].
  split.
  { destruct Hwf' as (H1 & H2 & H3). unfold pal_wf. cbn [Rect Stride Pix]. done. }
  split; [done|]. split.
  - apply list_eq. intros j. rewrite list_lookup_fmap.
    destruct (pxs !! j) as [px|] eqn:Ej; cbn.
    + by apply (Hpal j px).
    + apply lookup_ge_None_2. apply lookup_ge_None_1 in Ej.
      subst cp. rewrite Hl', length_replicate. done.
  - intros j px p Hj Hp. specialize (Hidx j px p Hj Hp).
    unfold index_at, PixOffset in *. cbn [Pix Rect Stride]. exact Hidx.
Qed.

(** ** The paletted image of the quantizers *)

Lemma img_rrgb_pixels : pixels (Bounds img_rrgb) <> [].
Proof. vm_compute. discriminate. Qed.

(** [X6] [paletted], the same text in both packages, on clusters that
    partition the pixels of the image into non-empty lists: it returns an
    image with the bounds of the original; palette entry [j] is the mean
    colour of cluster [j] (per channel the mean of the 16-bit values, as 8
    bits, opaque); and every pixel of cluster [j] carries the index
    [uint8(j)]. *)
Theorem paletted_palette_and_indices (img : Image) (pxs : list (list point)) :
  rect_ok (Bounds img) -> img_ok img -> len (pixels (Bounds img)) < 2 ^ 47 ->
  partitions pxs (Bounds img) -> Forall (fun px => px <> []) pxs ->
  exists pi,
    (forall cs ch, Median.px <$> cs = pxs ->
       Median.paletted (Median.mkQuantizer img cs ch) = Ret pi) /\
    (forall cs, Mean.px <$> cs = pxs ->
       Mean.paletted (Mean.mkQuantizer img cs) = Ret pi) /\
    Rect pi = Bounds img /\
    Palette pi = mean_colour img <$> pxs /\
    (forall j px p, pxs !! j = Some px -> p ∈ px ->
       index_at pi p = Some (uint8 (Z.of_nat j))).
Proof.
  intros Hb Hok HP Hpart Hne.
  destruct (paletted_of_spec img pxs Hb Hok HP Hpart Hne)
    as (pi & E & _ & Hr & Hpal & Hidx).
  exists pi. split.
  { intros cs ch <-. exact E. }
  split.
  { intros cs <-. exact E. }
  done.
Qed.

Lemma paletted_palette_and_indices_witness :
  exists pi,
    Mean.paletted (Mean.mkQuantizer img_rrgb
                     [Mean.mkCluster (pixels (Bounds img_rrgb)) wr 0 0 0 0]) = Ret pi /\
    Palette pi = [mean_colour img_rrgb (pixels (Bounds img_rrgb))].
Proof.
  destruct img_rrgb_ok as [Hb Hok].
  destruct (paletted_palette_and_indices img_rrgb [pixels (Bounds img_rrgb)]
              Hb Hok img_rrgb_small)
    as (pi & _ & E & _ & Hpal & _).
  - split; [cbn [concat]; by rewrite app_nil_r|].
    cbn [concat]. rewrite app_nil_r. apply NoDup_pixels.
  - constructor; [exact img_rrgb_pixels | constructor].
  - exists pi. split; [|exact Hpal]. apply E. reflexivity.
Defined.

Lemma median_Quantize_clusters (img : Image) (n : Z) (q : Median.quantizer) (k : nat) :
  median_clusters img n = Ret (q, k) ->
  Median.Quantize img n = Median.paletted q.
Proof.
  unfold median_clusters, Median.Quantize, Median.cluster_run. intros H.
  apply bind_Ret in H as (qz & -> & H). cbn [mbind result_bind Go.bind].
  rewrite H. reflexivity.
Qed.

Lemma mean_Image_clusters (img : Image) (n : Z) (q : Mean.quantizer) (k : nat) :
  mean_clusters img (if n >? 256 then 256 else n) = Ret (q, k) ->
  Mean.Image img n = Mean.paletted q.
Proof.
  unfold mean_clusters, Mean.Image, Mean.cluster_run. intros H.
  apply bind_Ret in H as (qz & -> & H). cbn [mbind result_bind Go.bind].
  destruct (_ >? 1).
  - rewrite H. reflexivity.
  - by injection H as <- _.
Qed.

(** every pixel is in one of the lists that partition the image *)
Lemma partition_cluster_of (pxs : list (list point)) (P : list point) (p : point) :
  concat pxs ≡ₚ P -> p ∈ P -> exists j px, pxs !! j = Some px /\ p ∈ px.
Proof.
  intros Hperm Hp. rewrite <- Hperm in Hp.
  apply elem_of_concat in Hp as (px & Hpx & Hin).
  apply list_elem_of_lookup_1 in Hpx as [j Hj]. eauto.
Qed.

(** [X7] Median [Quantize] on a non-empty image, asked for [n >= 2]
    colours: it returns an image with the bounds of the original and a
    palette of between 1 and [n] colours; every pixel belongs to a cluster
    [j] whose mean colour is palette entry [j], and carries the index
    [uint8(j)], which is [j] itself when [n <= 256]. *)
Theorem median_Quantize_image (img : Image) (n : Z) :
  rect_ok (Bounds img) -> img_ok img ->
  pixels (Bounds img) <> [] -> len (pixels (Bounds img)) < 2 ^ 47 ->
  2 <= n ->
  exists pi,
    Median.Quantize img n = Ret pi /\
    Rect pi = Bounds img /\
    1 <= len (Palette pi) <= n /\
    forall p, p ∈ pixels (Bounds img) ->
      exists (j : nat) px,
        p ∈ px /\
        Palette pi !! j = Some (mean_colour img px) /\
        index_at pi p = Some (uint8 (Z.of_nat j)) /\
        (n <= 256 -> uint8 (Z.of_nat j) = Z.of_nat j).
Proof.
  intros Hb Hok Hne HP Hn.
  destruct (median_run_spec img n Hb Hok Hn)
    as (q & k & E & Himg & Hl & _ & Hperm & Hnonempty & _).
  rewrite (median_Quantize_clusters img n q k E). unfold Median.paletted.
  rewrite Himg.
  destruct (paletted_of_spec img (Median.px <$> Median.cs q) Hb Hok HP)
    as (pi & Epal & _ & Hr & Hpal & Hidx).
  { split; [done|]. rewrite Hperm. apply NoDup_pixels. }
  { apply Forall_fmap. by apply Hnonempty. }
  exists pi. split; [done|]. split; [done|].
  assert (Hlen : len (Palette pi) = len (Median.cs q)).
  { unfold len. by rewrite Hpal, !length_fmap. }
  split; [lia|].
  intros p Hp.
  destruct (partition_cluster_of _ _ p Hperm Hp) as (j & px & Hj & Hin).
  exists j, px. split; [done|]. split.
  { rewrite Hpal, list_lookup_fmap, Hj. done. }
  split; [by eapply Hidx|].
  intros H256. apply uint8_small.
  apply lookup_lt_Some in Hj. rewrite length_fmap in Hj. unfold len in *. lia.
Qed.

Lemma median_Quantize_image_witness :
  rect_ok (Bounds img_rrgb) /\ img_ok img_rrgb /\
  pixels (Bounds img_rrgb) <> [] /\ len (pixels (Bounds img_rrgb)) < 2 ^ 47 /\
  2 <= 3 /\
  exists pi,
    Median.Quantize img_rrgb 3 = Ret pi /\
    Rect pi = Bounds img_rrgb /\
    1 <= len (Palette pi) <= 3.
Proof.
  destruct img_rrgb_ok as [Hb Hok].
  split; [exact Hb|]. split; [exact Hok|]. split; [exact img_rrgb_pixels|].
  split; [exact img_rrgb_small|]. split; [lia|].
  destruct (median_Quantize_image img_rrgb 3 Hb Hok img_rrgb_pixels img_rrgb_small
              ltac:(lia)) as (pi & E & Hr & Hl & _).
  exists pi. split; [exact E|]. split; [exact Hr | exact Hl].
Defined.

(** [X8] Mean [Image] on a non-empty image, asked for [n >= 1] colours: it
    returns an image with the bounds of the original and a palette of
    between 1 and [min n 256] colours; every pixel belongs to a cluster
    [j] whose mean colour is palette entry [j], and carries the index [j]:
    a valid index of the palette, whatever [n]. *)
Theorem mean_Image_image (img : Image) (n : Z) :
  rect_ok (Bounds img) -> img_ok img ->
  pixels (Bounds img) <> [] -> len (pixels (Bounds img)) < 2 ^ 47 ->
  1 <= n ->
  exists pi,
    Mean.Image img n = Ret pi /\
    Rect pi = Bounds img /\
    1 <= len (Palette pi) <= Z.min n 256 /\
    forall p, p ∈ pixels (Bounds img) ->
      exists (j : nat) px,
        p ∈ px /\
        Palette pi !! j = Some (mean_colour img px) /\
        index_at pi p = Some (Z.of_nat j).
Proof.
  intros Hb Hok Hne HP Hn.
  set (n' := if n >? 256 then 256 else n).
  assert (Hn' : 1 <= n' /\ n' = Z.min n 256).
  { subst n'. destruct (Z.gtb_spec n 256); lia. }
  destruct (mean_run_spec img n' Hb Hok HP ltac:(lia))
    as (q & k & E & Himg & Hl & _ & Hperm & Hnonempty & _).
  rewrite (mean_Image_clusters img n q k E). unfold Mean.paletted.
  rewrite Himg.
  destruct (paletted_of_spec img (Mean.px <$> Mean.cs q) Hb Hok HP)
    as (pi & Epal & _ & Hr & Hpal & Hidx).
  { split; [done|]. rewrite Hperm. apply NoDup_pixels. }
  { apply Forall_fmap. by apply Hnonempty. }
  exists pi. split; [done|]. split; [done|].
  assert (Hlen : len (Palette pi) = len (Mean.cs q)).
  { unfold len. by rewrite Hpal, !length_fmap. }
  split; [lia|].
  intros p Hp.
  destruct (partition_cluster_of _ _ p Hperm Hp) as (j & px & Hj & Hin).
  exists j, px. split; [done|]. split.
  { rewrite Hpal, list_lookup_fmap, Hj. done. }
  rewrite (Hidx j px p Hj Hin). f_equal. apply uint8_small.
  apply lookup_lt_Some in Hj. rewrite length_fmap in Hj. unfold len in *. lia.
Qed.

Lemma mean_Image_image_witness :
  rect_ok (Bounds img_rrgb) /\ img_ok img_rrgb /\
  pixels (Bounds img_rrgb) <> [] /\ len (pixels (Bounds img_rrgb)) < 2 ^ 47 /\
  1 <= 300 /\
  exists pi,
    Mean.Image img_rrgb 300 = Ret pi /\
    Rect pi = Bounds img_rrgb /\
    1 <= len (Palette pi) <= Z.min 300 256.
Proof.
  destruct img_rrgb_ok as [Hb Hok].
  split; [exact Hb|]. split; [exact Hok|]. split; [exact img_rrgb_pixels|].
  split; [exact img_rrgb_small|]. split; [lia|].
  destruct (mean_Image_image img_rrgb 300 Hb Hok img_rrgb_pixels img_rrgb_small
              ltac:(lia)) as (pi & E & Hr & Hl & _).
  exists pi. split; [exact E|]. split; [exact Hr | exact Hl].
Defined.

(** ** [sPalette.index]: the first nearest entry *)

Lemma int64_range (z : Z) : - 2 ^ 63 <= int64 z < 2 ^ 63.
Proof. apply int_range. Qed.

Lemma sqdist_range (c d : Palette.sRGB) : - 2 ^ 63 <= Palette.sqdist c d < 2 ^ 63.
Proof. unfold Palette.sqdist. apply int64_range. Qed.

Lemma sqdist_sdist2 (c d : Palette.sRGB) :
  srgb_ok c -> srgb_ok d -> Palette.sqdist c d = sdist2 c d.
Proof.
  unfold srgb_ok. intros (Hr & Hg & Hb) (Hr' & Hg' & Hb').
  unfold Palette.sqdist, sdist2.
  rewrite !(int32_small (_ - _)) by lia.
  rewrite !(int64_small (_ - _)) by lia.
  assert (Hsq : forall z, - 2 ^ 30 <= z <= 2 ^ 30 -> 0 <= z * z <= 2 ^ 60) by (intros; nia).
  pose proof (Hsq (Palette.sr c - Palette.sr d) ltac:(lia)).
  pose proof (Hsq (Palette.sg c - Palette.sg d) ltac:(lia)).
  pose proof (Hsq (Palette.sb c - Palette.sb d) ltac:(lia)).
  rewrite !(int64_small (_ * _)) by lia.
  rewrite (int64_small ((Palette.sr c - Palette.sr d) * (Palette.sr c - Palette.sr d)
                        + (Palette.sg c - Palette.sg d) * (Palette.sg c - Palette.sg d))) by lia.
  rewrite int64_small by lia.
  lia.
Qed.

(** The scan from position [j] with the best distance [min] so far at
    [i]: it keeps [i] when no entry is nearer than [min], and otherwise
    returns the position of the first entry of least distance. *)
Lemma index_from_min (c : Palette.sRGB) (p : Palette.sPalette) :
  forall j i min,
    (Palette.index_from p c j i min = i /\
     Forall (fun pc => min <= Palette.sqdist c pc) p) \/
    (exists (k : nat) pc,
       Palette.index_from p c j i min = j + Z.of_nat k /\
       p !! k = Some pc /\ Palette.sqdist c pc < min /\
       (forall k' pc', p !! k' = Some pc' -> Palette.sqdist c pc <= Palette.sqdist c pc') /\
       (forall k' pc', p !! k' = Some pc' -> (k' < k)%nat ->
          Palette.sqdist c pc < Palette.sqdist c pc')).
Proof.
  induction p as [|pc p IH]; intros j i min; cbn [Palette.index_from].
  - left. split; [done | constructor].
  - destruct (Z.ltb_spec (Palette.sqdist c pc) min) as [Hlt|Hge].
    + right. destruct (IH (j + 1) j (Palette.sqdist c pc))
        as [[-> Hall]|(k & pc' & -> & Hk & Hless & Hmin & Hfirst)].
      * exists 0%nat, pc. split; [lia|]. split; [done|]. split; [done|]. split.
        -- intros [|k'] pc' Hk'; cbn in Hk'.
           ++ injection Hk' as <-. lia.
           ++ rewrite Forall_forall in Hall. apply Hall. by eapply list_elem_of_lookup_2.
        -- intros k' pc' _ Hk'. lia.
      * exists (S k), pc'. split; [lia|]. split; [done|]. split; [lia|]. split.
        -- intros [|k'] pc'' Hk'; cbn in Hk'.
           ++ injection Hk' as <-. lia.
           ++ by eapply Hmin.
        -- intros [|k'] pc'' Hk' Hlt'; cbn in Hk'.
           ++ injection Hk' as <-. lia.
           ++ eapply Hfirst; [done|lia].
    + destruct (IH (j + 1) i min)
        as [[-> Hall]|(k & pc' & -> & Hk & Hless & Hmin & Hfirst)].
      * left. split; [done|]. by constructor.
      * right. exists (S k), pc'. split; [lia|]. split; [done|]. split; [done|]. split.
        -- intros [|k'] pc'' Hk'; cbn in Hk'.
           ++ injection Hk' as <-. lia.
           ++ by eapply Hmin.
        -- intros [|k'] pc'' Hk' Hlt'; cbn in Hk'.
           ++ injection Hk' as <-. lia.
           ++ eapply Hfirst; [done|lia].
Qed.

(** [X9] [sPalette.index] on a non-empty palette returns the position of
    the first entry at the least distance [s] the scan computes; for
    colours whose channels stay within 30 bits, which covers the colour
    values 0-ffff with any diffused error, that distance is the squared
    Euclidean distance, so the entry is the first nearest one. *)
Theorem sPalette_index_first_nearest (p : Palette.sPalette) (c : Palette.sRGB) :
  p <> [] ->
  exists (i : nat) pi,
    Palette.index p c = Z.of_nat i /\ p !! i = Some pi /\
    (forall j pc, p !! j = Some pc ->
       Palette.sqdist c pi <= Palette.sqdist c pc /\
       ((j < i)%nat -> Palette.sqdist c pi < Palette.sqdist c pc)) /\
    (srgb_ok c -> Forall srgb_ok p ->
     forall j pc, p !! j = Some pc ->
       sdist2 c pi <= sdist2 c pc /\ ((j < i)%nat -> sdist2 c pi < sdist2 c pc)).
Proof.
  intros Hne. unfold Palette.index.
  assert (Hmain : exists (i : nat) pi,
    Palette.index_from p c 0 0 MaxInt64 = Z.of_nat i /\ p !! i = Some pi /\
    (forall j pc, p !! j = Some pc ->
       Palette.sqdist c pi <= Palette.sqdist c pc /\
       ((j < i)%nat -> Palette.sqdist c pi < Palette.sqdist c pc))).
  { destruct (index_from_min c p 0 0 MaxInt64)
      as [[-> Hall]|(k & pc & -> & Hk & Hless & Hmin & Hfirst)].
    - destruct p as [|p0 p]; [done|]. exists 0%nat, p0.
      split; [done|]. split; [done|]. intros j pc Hj. split; [|lia].
      rewrite Forall_forall in Hall.
      pose proof (Hall pc ltac:(by eapply list_elem_of_lookup_2)) as H1.
      pose proof (sqdist_range c p0) as H2.
      unfold MaxInt64 in H1. lia.
    - exists k, pc. split; [lia|]. split; [done|].
      intros j pc' Hj. split; [by eapply Hmin | intros Hlt; by eapply Hfirst]. }
  destruct Hmain as (i & pi & E & Hi & Hmin).
  exists i, pi. split; [done|]. split; [done|]. split; [done|].
  intros Hc Hp j pc Hj.
  assert (Hpi : srgb_ok pi) by (by eapply Forall_lookup_1 in Hp).
  assert (Hpc : srgb_ok pc) by (by eapply Forall_lookup_1 in Hp).
  rewrite <- !sqdist_sdist2 by done. by apply Hmin.
Qed.

Lemma sPalette_index_first_nearest_witness :
  exists (i : nat) pi,
    Palette.index spal2 (Palette.mksRGB 60 0 0) = Z.of_nat i /\ spal2 !! i = Some pi.
Proof.
  destruct (sPalette_index_first_nearest spal2 (Palette.mksRGB 60 0 0))
    as (i & pi & E & Hi & _).
  - discriminate.
  - exists i, pi. split; [exact E | exact Hi].
Defined.

(** ** [TreePalette]: the descent and the walk *)

Lemma tree_walk_full (t : Palette.TreePalette) :
  full t -> forall p, Palette.walk t p = Ret (p ++ (snd <$> leaves t)).
Proof.
  induction t as [|ty ix col sp lo IHlo hi IHhi]; cbn; [done|].
  intros Hf p.
  destruct (Z.eqb_spec ty Palette.TLeaf) as [->|Hne]; [done|].
  destruct Hf as [->|[Flo Fhi]]; [done|].
  rewrite IHlo by done. cbn [mbind result_bind Go.bind].
  rewrite IHhi by done. by rewrite fmap_app, app_assoc.
Qed.

(** A split node with a nil child on the way of the descent: the closure
    dereferences nil. *)
Lemma tree_search_nil_child (c : RGB) (ty ix : Z) (col : RGB) (sp : Z) :
  ty <> Palette.TLeaf ->
  Palette.search (Palette.Node ty ix col sp Palette.Nil Palette.Nil) c =
    Panic NilDereference.
Proof.
  intros Hne. unfold Palette.search. cbn.
  destruct (Z.eqb_spec ty Palette.TLeaf); [done|].
  by match goal with |- (if ?b then _ else _) = _ => destruct b end.
Qed.

(** [X10] [IndexNear] and [ColorNear] of a [TreePalette] answer from the
    same leaf: on a tree without nil child both return, the index and the
    colour of one leaf of the tree; on the nil tree they return -1 and the
    grey 0x7fff; and a split node whose children are nil makes both panic
    with a nil dereference. *)
Theorem tree_index_and_colour_agree (t : Palette.TreePalette) (c : RGB) :
  (full t ->
   exists ix col, (ix, col) ∈ leaves t /\
     Palette.IndexNear t c = Ret ix /\ Palette.ColorNear t c = Ret col) /\
  (Palette.IndexNear Palette.Nil c = Ret (-1) /\
   Palette.ColorNear Palette.Nil c = Ret (mkRGB 32767 32767 32767)) /\
  (forall ty ix col sp, ty <> Palette.TLeaf ->
     Palette.IndexNear (Palette.Node ty ix col sp Palette.Nil Palette.Nil) c =
       Panic NilDereference /\
     Palette.ColorNear (Palette.Node ty ix col sp Palette.Nil Palette.Nil) c =
       Panic NilDereference).
Proof.
  split; [|split; [done|]].
  - intros Hf.
    destruct (tree_search_full (cr c) (cg c) (cb c) t Hf false)
      as (ix & col & sp & lo & hi & E & Hin).
    exists ix, col. split; [done|].
    unfold Palette.IndexNear, Palette.ColorNear, Palette.search.
    destruct t; [done|]. rewrite E. done.
  - intros ty ix col sp Hne.
    unfold Palette.IndexNear, Palette.ColorNear.
    rewrite (tree_search_nil_child c ty ix col sp Hne). done.
Qed.

Lemma tree_index_and_colour_agree_witness :
  exists ix col, (ix, col) ∈ leaves tree2 /\
    Palette.IndexNear tree2 (mkRGB 60 0 0) = Ret ix /\
    Palette.ColorNear tree2 (mkRGB 60 0 0) = Ret col.
Proof.
  destruct (tree_index_and_colour_agree tree2 (mkRGB 60 0 0)) as [H _].
  apply H. cbn. right. split; by left.
Defined.

(** [X11] [ColorPalette] of a [TreePalette] without nil child is the list
    of the colours of its leaves, low subtree first, and the empty palette
    for the nil tree.  So when the leaves carry the indices 0, 1, 2, ... in
    that order, the palette colour at the index [IndexNear] returns is the
    colour [ColorNear] returns. *)
Theorem tree_ColorPalette_leaves (t : Palette.TreePalette) :
  Palette.ColorPalette Palette.Nil = Ret [] /\
  (full t ->
   Palette.ColorPalette t = Ret (snd <$> leaves t) /\
   (fst <$> leaves t = seqZ 0 (len (leaves t)) ->
    forall c, exists ix col,
      Palette.IndexNear t c = Ret ix /\ Palette.ColorNear t c = Ret col /\
      0 <= ix /\ (snd <$> leaves t) !! Z.to_nat ix = Some col)).
Proof.
  split; [done|]. intros Hf. split.
  - unfold Palette.ColorPalette. destruct t; [done|].
    by rewrite tree_walk_full.
  - intros Hnum c.
    destruct (tree_search_full (cr c) (cg c) (cb c) t Hf false)
      as (ix & col & sp & lo & hi & E & Hin).
    exists ix, col.
    assert (EI : Palette.IndexNear t c = Ret ix).
    { unfold Palette.IndexNear, Palette.search. destruct t; [done|]. by rewrite E. }
    assert (EC : Palette.ColorNear t c = Ret col).
    { unfold Palette.ColorNear, Palette.search. destruct t; [done|]. by rewrite E. }
    split; [done|]. split; [done|].
    apply list_elem_of_lookup_1 in Hin as [k Hk].
    assert (Hix : (fst <$> leaves t) !! k = Some ix) by (by rewrite list_lookup_fmap, Hk).
    rewrite Hnum in Hix. apply lookup_seqZ in Hix as [Hix Hklt].
    assert (Ek : Z.to_nat ix = k) by lia.
    split; [lia|]. rewrite Ek, list_lookup_fmap, Hk. done.
Qed.

Lemma tree_ColorPalette_leaves_witness :
  Palette.ColorPalette tree3 = Ret [mkRGB 0 0 0; mkRGB 100 0 0; mkRGB 0 200 0] /\
  exists ix col,
    Palette.IndexNear tree3 (mkRGB 60 70 0) = Ret ix /\
    Palette.ColorNear tree3 (mkRGB 60 70 0) = Ret col /\
    0 <= ix /\ (snd <$> leaves tree3) !! Z.to_nat ix = Some col.
Proof.
  destruct (tree_ColorPalette_leaves tree3) as [_ H].
  destruct H as [H1 H2].
  - cbn. right. split; [right; split; by left | by left].
  - split; [exact H1|]. apply H2. reflexivity.
Defined.

(** ** The passes of the ditherers *)

Lemma idx_cases {A} (l : list A) (i : Z) :
  (exists a, idx l i = Ret a /\ 0 <= i < len l) \/
  (idx l i = Panic IndexOutOfRange /\ (i < 0 \/ len l <= i)).
Proof.
  destruct (Z_lt_dec i 0) as [Hneg|Hpos].
  - right. split; [apply idx_out|]; lia.
  - destruct (Z_le_dec (len l) i) as [Hge|Hlt].
    + right. split; [apply idx_out|]; lia.
    + left. destruct (idx_lt l i ltac:(lia)) as (a & E & _). exists a. split; [done|lia].
Qed.

Lemma forM_app {A B} (l1 l2 : list B) (a : A) (f : A -> B -> result A) :
  Dither.forM (l1 ++ l2) a f = (a ← Dither.forM l1 a f; Dither.forM l2 a f).
Proof.
  revert a. induction l1 as [|b l1 IH]; intros a; cbn; [done|].
  destruct (f a b); cbn; [apply IH | done | done].
Qed.

Lemma Dither_diffuse_in (rt pc : RGB) (dn : list RGB) (x : Z) :
  0 <= x -> x + 1 < len dn ->
  exists rt' dn', Dither.Dither_diffuse rt pc dn x = Ret (rt', dn') /\ len dn' = len dn.
Proof.
  intros H0 H1. unfold Dither.Dither_diffuse.
  destruct (idx_lt dn (x + 1) ltac:(lia)) as (a & -> & _).
  cbn [mbind result_bind Go.bind].
  set (dn1 := <[Z.to_nat (x + 1) := _]> dn).
  assert (Hl1 : len dn1 = len dn) by (unfold len; subst dn1; by rewrite length_insert).
  destruct (idx_lt dn1 (x + 1) ltac:(lia)) as (d1 & -> & _).
  cbn [mbind result_bind Go.bind].
  destruct (idx_lt dn1 x ltac:(lia)) as (d0 & -> & _).
  cbn [mbind result_bind Go.bind].
  eexists _, _. split; [done|]. unfold len in *. by rewrite length_insert.
Qed.

Lemma Dither_diffuse_out (rt pc : RGB) (dn : list RGB) (x : Z) :
  x < 0 \/ len dn <= x + 1 ->
  Dither.Dither_diffuse rt pc dn x = Panic IndexOutOfRange.
Proof.
  intros H. unfold Dither.Dither_diffuse.
  destruct (idx_cases dn (x + 1)) as [(a & -> & Hin)|[-> _]]; [|done].
  cbn [mbind result_bind Go.bind].
  set (dn1 := <[Z.to_nat (x + 1) := _]> dn).
  assert (Hl1 : len dn1 = len dn) by (unfold len; subst dn1; by rewrite length_insert).
  destruct (idx_lt dn1 (x + 1) ltac:(lia)) as (d1 & -> & _).
  cbn [mbind result_bind Go.bind].
  rewrite (idx_out dn1 x) by lia. done.
Qed.

Lemma dither211_diffuse_in (rt pc : RGB) (dn : list RGB) (dx : Z) :
  0 <= dx -> dx + 1 < len dn ->
  exists rt' dn', Dither.dither211_diffuse rt pc dn dx = Ret (rt', dn') /\ len dn' = len dn.
Proof.
  intros H0 H1. unfold Dither.dither211_diffuse.
  destruct (idx_lt dn (dx + 1) ltac:(lia)) as (a & -> & _).
  cbn [mbind result_bind Go.bind].
  set (dn1 := <[Z.to_nat (dx + 1) := _]> dn).
  assert (Hl1 : len dn1 = len dn) by (unfold len; subst dn1; by rewrite length_insert).
  destruct (idx_lt dn1 dx ltac:(lia)) as (d0 & -> & _).
  cbn [mbind result_bind Go.bind].
  eexists _, _. split; [done|]. unfold len in *. by rewrite length_insert.
Qed.

Section DitherRun.
Variable Index : list RGB -> RGB -> Z.
Variable i0 : Image.
Variable cp : list RGB.

Lemma SetColorIndex_valid (pi : Paletted RGB) (x y v : Z) :
  0 <= v < len cp -> Forall (fun v => 0 <= v < len cp) (Pix pi) ->
  Rect (SetColorIndex pi x y v) = Rect pi /\
  Palette (SetColorIndex pi x y v) = Palette pi /\
  Forall (fun v => 0 <= v < len cp) (Pix (SetColorIndex pi x y v)).
Proof.
  intros Hv Hall. unfold SetColorIndex. destruct (In_rect x y (Rect pi)); [|done].
  cbn [Rect Palette Pix]. split; [done|]. split; [done|].
  set (i := Z.to_nat _).
  destruct (decide (i < length (Pix pi))%nat).
  - by apply Forall_insert.
  - by rewrite list_insert_ge by lia.
Qed.

Hypothesis Hcp : len cp <= 256.
Hypothesis HIndex : forall c, 0 <= Index cp c < len cp.

Lemma uint8_Index (c : RGB) : uint8 (Index cp c) = Index cp c.
Proof. apply uint8_small. pose proof (HIndex c). lia. Qed.

Lemma Dither_pixel_in (L y x : Z) (st : Dither.state) :
  pass_inv i0 cp L st -> 0 <= x -> x + 1 < L ->
  exists st', Dither.Dither_pixel Index i0 cp y st x = Ret st' /\ pass_inv i0 cp L st'.
Proof.
  destruct st as [[rt dn] pi]. intros (Hl & Hr & Hp & Hv) H0 H1. cbn in Hl, Hr, Hp, Hv.
  unfold Dither.Dither_pixel.
  set (rt1 := Dither.zip3 Dither.adjust16 (At i0 x y) rt).
  destruct (idx_lt cp (Index cp rt1) (HIndex rt1)) as (pc & -> & _).
  cbn [mbind result_bind Go.bind].
  destruct (Dither_diffuse_in rt1 pc dn x H0 ltac:(lia)) as (rt' & dn' & -> & Hl').
  cbn [mbind result_bind Go.bind].
  eexists. split; [done|]. unfold pass_inv. cbn [fst snd].
  rewrite uint8_Index.
  destruct (SetColorIndex_valid pi x y (Index cp rt1) (HIndex rt1) Hv) as (E1 & E2 & E3).
  split; [lia|]. split; [congruence|]. split; [congruence|done].
Qed.

Lemma dither211_pixel_in (L y x : Z) (st : Dither.state) :
  pass_inv i0 cp L st -> 0 <= x - MinX (Bounds i0) -> x - MinX (Bounds i0) + 1 < L ->
  exists st', Dither.dither211_pixel Index i0 cp y st x = Ret st' /\ pass_inv i0 cp L st'.
Proof.
  destruct st as [[rt dn] pi]. intros (Hl & Hr & Hp & Hv) H0 H1. cbn in Hl, Hr, Hp, Hv.
  unfold Dither.dither211_pixel.
  set (rt1 := Dither.zip3 Dither.adjust (At i0 x y) rt).
  set (afc := Dither.map3 uint16 rt1).
  destruct (idx_lt cp (Index cp afc) (HIndex afc)) as (pc & -> & _).
  cbn [mbind result_bind Go.bind].
  destruct (dither211_diffuse_in rt1 pc dn (x - MinX (Bounds i0)) H0 ltac:(lia))
    as (rt' & dn' & -> & Hl').
  cbn [mbind result_bind Go.bind].
  eexists. split; [done|]. unfold pass_inv. cbn [fst snd].
  rewrite uint8_Index.
  destruct (SetColorIndex_valid pi x y (Index cp afc) (HIndex afc) Hv) as (E1 & E2 & E3).
  split; [lia|]. split; [congruence|]. split; [congruence|done].
Qed.

(** a pixel of [Dither] outside the buffer: index out of range *)
Lemma Dither_pixel_out (L y x : Z) (st : Dither.state) :
  pass_inv i0 cp L st -> x < 0 \/ L <= x + 1 ->
  Dither.Dither_pixel Index i0 cp y st x = Panic IndexOutOfRange.
Proof.
  destruct st as [[rt dn] pi]. intros (Hl & Hr & Hp & Hv) Hx. cbn in Hl.
  unfold Dither.Dither_pixel.
  set (rt1 := Dither.zip3 Dither.adjust16 (At i0 x y) rt).
  destruct (idx_lt cp (Index cp rt1) (HIndex rt1)) as (pc & -> & _).
  cbn [mbind result_bind Go.bind].
  rewrite Dither_diffuse_out by lia. done.
Qed.

(** a loop over pixels all inside the buffer returns *)
Lemma forM_pixels_in (L : Z) (f : Dither.state -> Z -> result Dither.state) (l : list Z) :
  (forall st x, x ∈ l -> pass_inv i0 cp L st -> exists st', f st x = Ret st' /\ pass_inv i0 cp L st') ->
  forall st, pass_inv i0 cp L st ->
    exists st', Dither.forM l st f = Ret st' /\ pass_inv i0 cp L st'.
Proof.
  induction l as [|x l IH]; intros Hf st Hst; cbn [Dither.forM].
  - by exists st.
  - destruct (Hf st x ltac:(left) Hst) as (st1 & -> & Hst1).
    cbn [mbind result_bind Go.bind]. apply IH; [|done].
    intros st' x' Hx'. apply Hf. by right.
Qed.

(** a loop of [Dither] over pixels of which one is outside the buffer *)
Lemma forM_Dither_out (L y : Z) (l : list Z) :
  (exists x, x ∈ l /\ (x < 0 \/ L <= x + 1)) ->
  forall st, pass_inv i0 cp L st ->
    Dither.forM l st (Dither.Dither_pixel Index i0 cp y) = Panic IndexOutOfRange.
Proof.
  induction l as [|x l IH]; intros (x0 & Hin & Hbad) st Hst; cbn [Dither.forM].
  - by apply elem_of_nil in Hin.
  - destruct (decide (x < 0 \/ L <= x + 1)) as [Hx|Hx].
    + by rewrite (Dither_pixel_out L y x st Hst Hx).
    + destruct (Dither_pixel_in L y x st Hst ltac:(lia) ltac:(lia)) as (st1 & -> & Hst1).
      cbn [mbind result_bind Go.bind]. apply IH; [|done].
      exists x0. split; [|done]. apply elem_of_cons in Hin as [->|Hin]; [done|done].
Qed.

End DitherRun.

Section DitherImage.
Variable Index : list RGB -> RGB -> Z.
Variable i0 : Image.
Variable cp : list RGB.
Hypothesis Hcp : len cp <= 256.
Hypothesis HIndex : forall c, 0 <= Index cp c < len cp.
Hypothesis HDx : 0 < Dx (Bounds i0).
Hypothesis HDy : 0 < Dy (Bounds i0).

Lemma pass_inv_start :
  pass_inv i0 cp (Dx (Bounds i0) + 1)
    (Dither.zeroRGB, replicate (Z.to_nat (Dx (Bounds i0) + 1)) Dither.zeroRGB,
     NewPaletted (Bounds i0) cp).
Proof.
  unfold pass_inv. cbn [fst snd NewPaletted Rect Palette Pix].
  split; [unfold len; rewrite length_replicate; lia|]. split; [done|]. split; [done|].
  apply Forall_replicate. pose proof (HIndex Dither.zeroRGB). lia.
Qed.

Lemma pass_start_row (st : Dither.state) :
  pass_inv i0 cp (Dx (Bounds i0) + 1) st ->
  exists rt,
    idx st.1.2 0 = Ret rt /\
    pass_inv i0 cp (Dx (Bounds i0) + 1) (rt, <[0%nat := Dither.zeroRGB]> st.1.2, st.2).
Proof.
  destruct st as [[rt dn] pi]. intros (Hl & Hr & Hp & Hv). cbn [fst snd] in *.
  destruct (idx_lt dn 0 ltac:(lia)) as (a & -> & _). exists a. split; [done|].
  unfold pass_inv. cbn [fst snd]. unfold len in *. rewrite length_insert. done.
Qed.

Lemma dither211_row_in (st : Dither.state) (y : Z) :
  pass_inv i0 cp (Dx (Bounds i0) + 1) st ->
  exists st', Dither.dither211_row Index i0 cp st y = Ret st' /\
              pass_inv i0 cp (Dx (Bounds i0) + 1) st'.
Proof.
  intros Hst. destruct (pass_start_row st Hst) as (rt0 & E & Hst0).
  destruct st as [[rt dn] pi]. cbn [fst snd] in *.
  unfold Dither.dither211_row. rewrite E. cbn [mbind result_bind Go.bind].
  apply forM_pixels_in; [|done].
  intros st x Hx Hin. apply elem_of_seqZ in Hx. unfold Dx in *.
  apply dither211_pixel_in; (done || lia).
Qed.

Lemma Dither_row_in (st : Dither.state) (y : Z) :
  MinX (Bounds i0) = 0 ->
  pass_inv i0 cp (Dx (Bounds i0) + 1) st ->
  exists st', Dither.Dither_row Index i0 cp st y = Ret st' /\
              pass_inv i0 cp (Dx (Bounds i0) + 1) st'.
Proof.
  intros H0 Hst. destruct (pass_start_row st Hst) as (rt0 & E & Hst0).
  destruct st as [[rt dn] pi]. cbn [fst snd] in *.
  unfold Dither.Dither_row. rewrite E. cbn [mbind result_bind Go.bind].
  apply forM_pixels_in; [|done].
  intros st x Hx Hin. apply elem_of_seqZ in Hx. unfold Dx in *.
  apply Dither_pixel_in; (done || lia).
Qed.

Lemma Dither_row_out (st : Dither.state) (y : Z) :
  MinX (Bounds i0) <> 0 ->
  pass_inv i0 cp (Dx (Bounds i0) + 1) st ->
  Dither.Dither_row Index i0 cp st y = Panic IndexOutOfRange.
Proof.
  intros H0 Hst. destruct (pass_start_row st Hst) as (rt0 & E & Hst0).
  destruct st as [[rt dn] pi]. cbn [fst snd] in *.
  unfold Dither.Dither_row. rewrite E. cbn [mbind result_bind Go.bind].
  apply (forM_Dither_out Index i0 cp Hcp HIndex (Dx (Bounds i0) + 1)); [|done].
  unfold Dx in *.
  destruct (Z_lt_dec (MinX (Bounds i0)) 0) as [Hneg|Hpos].
  - exists (MinX (Bounds i0)). split; [apply elem_of_seqZ; lia | lia].
  - exists (MaxX (Bounds i0) - 1). split; [apply elem_of_seqZ; lia | lia].
Qed.

Lemma not_zero_area :
  (MaxY (Bounds i0) - MinY (Bounds i0) =? 0) || (MaxX (Bounds i0) - MinX (Bounds i0) =? 0)
  = false.
Proof.
  unfold Dx, Dy in *.
  destruct (Z.eqb_spec (MaxY (Bounds i0) - MinY (Bounds i0)) 0); [lia|].
  destruct (Z.eqb_spec (MaxX (Bounds i0) - MinX (Bounds i0)) 0); [lia|]. done.
Qed.

Lemma dither211_run :
  exists pi,
    Dither.dither211 Index i0 cp = Ret (Some pi) /\
    Rect pi = Bounds i0 /\ Palette pi = cp /\
    Forall (fun v => 0 <= v < len cp) (Pix pi).
Proof.
  unfold Dither.dither211.
  destruct (Z.gtb_spec (len cp) 256); [lia|].
  rewrite not_zero_area. fold (Dx (Bounds i0)).
  rewrite make_Ret by lia. cbn [mbind result_bind Go.bind].
  destruct (forM_pixels_in i0 cp (Dx (Bounds i0) + 1) (Dither.dither211_row Index i0 cp)
              (seqZ (MinY (Bounds i0)) (MaxY (Bounds i0) - MinY (Bounds i0))))
    with (st := (Dither.zeroRGB, replicate (Z.to_nat (Dx (Bounds i0) + 1)) Dither.zeroRGB,
                 NewPaletted (Bounds i0) cp))
    as ([[rt dn] pi] & E & (_ & Hr & Hp & Hv)).
  - intros st y _ Hst. by apply dither211_row_in.
  - apply pass_inv_start.
  - exists pi. unfold Dither.state in E. rewrite E. done.
Qed.

Lemma Dither_run :
  MinX (Bounds i0) = 0 ->
  exists pi,
    Dither.Dither Index i0 cp = Ret (Some pi) /\
    Rect pi = Bounds i0 /\ Palette pi = cp /\
    Forall (fun v => 0 <= v < len cp) (Pix pi).
Proof.
  intros H0. unfold Dither.Dither.
  destruct (Z.gtb_spec (len cp) 256); [lia|].
  rewrite not_zero_area. fold (Dx (Bounds i0)).
  rewrite make_Ret by lia. cbn [mbind result_bind Go.bind].
  destruct (forM_pixels_in i0 cp (Dx (Bounds i0) + 1) (Dither.Dither_row Index i0 cp)
              (seqZ (MinY (Bounds i0)) (MaxY (Bounds i0) - MinY (Bounds i0))))
    with (st := (Dither.zeroRGB, replicate (Z.to_nat (Dx (Bounds i0) + 1)) Dither.zeroRGB,
                 NewPaletted (Bounds i0) cp))
    as ([[rt dn] pi] & E & (_ & Hr & Hp & Hv)).
  - intros st y _ Hst. by apply Dither_row_in.
  - apply pass_inv_start.
  - exists pi. unfold Dither.state in E. rewrite E. done.
Qed.

Lemma Dither_run_out :
  MinX (Bounds i0) <> 0 ->
  Dither.Dither Index i0 cp = Panic IndexOutOfRange.
Proof.
  intros H0. unfold Dither.Dither.
  destruct (Z.gtb_spec (len cp) 256); [lia|].
  rewrite not_zero_area. fold (Dx (Bounds i0)).
  rewrite make_Ret by lia. cbn [mbind result_bind Go.bind].
  rewrite seqZ_cons by (unfold Dy in *; lia). cbn [Dither.forM].
  rewrite Dither_row_out; [done | done | apply pass_inv_start].
Qed.

End DitherImage.

Lemma Index0_valid (c : RGB) : 0 <= Index0 [mkRGB 0 0 0] c < len [mkRGB 0 0 0].
Proof. unfold Index0, len. cbn. lia. Qed.

(** [X12] [Dither] indexes its buffer of diffused errors with the pixel's
    [x], not with [x - b.Min.X]: on an image of non-empty bounds whose
    [Min.X] is not 0 it panics with an index out of range (for a palette of
    at most 256 colours and a palette index function that returns indices
    of the palette). *)
Theorem Dither_offset_bounds_panic (Index : list RGB -> RGB -> Z) (i0 : Image)
    (cp : list RGB) :
  len cp <= 256 -> (forall c, 0 <= Index cp c < len cp) ->
  0 < Dx (Bounds i0) -> 0 < Dy (Bounds i0) ->
  MinX (Bounds i0) <> 0 ->
  Dither.Dither Index i0 cp = Panic IndexOutOfRange.
Proof. apply Dither_run_out. Qed.

Lemma Dither_offset_bounds_panic_witness :
  Dither.Dither Index0 img_off [mkRGB 0 0 0] = Panic IndexOutOfRange.
Proof.
  apply (Dither_offset_bounds_panic Index0 img_off [mkRGB 0 0 0]).
  - unfold len. cbn. lia.
  - exact Index0_valid.
  - unfold Dx. cbn. lia.
  - unfold Dy. cbn. lia.
  - cbn. lia.
Defined.

(** [X13] The ditherers return: on an image of non-empty bounds, with a
    palette of at most 256 colours and a palette index function that
    returns indices of the palette, [dither211] returns an image with the
    bounds of the original and the given palette, in which every stored
    pixel index is an index of the palette; and so does [Dither] when the
    bounds start at [x = 0]. *)
Theorem ditherers_return (Index : list RGB -> RGB -> Z) (i0 : Image) (cp : list RGB) :
  len cp <= 256 -> (forall c, 0 <= Index cp c < len cp) ->
  0 < Dx (Bounds i0) -> 0 < Dy (Bounds i0) ->
  (exists pi,
     Dither.dither211 Index i0 cp = Ret (Some pi) /\
     Rect pi = Bounds i0 /\ Palette pi = cp /\
     Forall (fun v => 0 <= v < len cp) (Pix pi)) /\
  (MinX (Bounds i0) = 0 ->
   exists pi,
     Dither.Dither Index i0 cp = Ret (Some pi) /\
     Rect pi = Bounds i0 /\ Palette pi = cp /\
     Forall (fun v => 0 <= v < len cp) (Pix pi)).
Proof.
  intros Hcp HI Hx Hy. split.
  - by apply dither211_run.
  - by apply Dither_run.
Qed.

Lemma ditherers_return_witness :
  exists pi,
    Dither.dither211 Index0 img_off [mkRGB 0 0 0] = Ret (Some pi) /\
    Rect pi = Bounds img_off /\ Palette pi = [mkRGB 0 0 0].
Proof.
  destruct (ditherers_return Index0 img_off [mkRGB 0 0 0]) as [(pi & E & Hr & Hp & _) _].
  - unfold len. cbn. lia.
  - exact Index0_valid.
  - unfold Dx. cbn. lia.
  - unfold Dy. cbn. lia.
  - exists pi. split; [exact E|]. split; [exact Hr | exact Hp].
Defined.

(** ** The cut of a cluster *)

Lemma constant_lookup (l : list Z) (v : Z) (j : Z) :
  (forall a, a ∈ l -> a = v) -> 0 <= j < len l -> default 0 (l !! Z.to_nat j) = v.
Proof.
  intros Hc Hj. destruct (idx_lt l j Hj) as (a & _ & La). rewrite La. cbn.
  apply Hc. by eapply list_elem_of_lookup_2.
Qed.

(** The cut search on a sorted buffer that holds a single value, or
    nothing: an index out of range. *)
Lemma median_of_constant (ch : list Z) (v : Z) :
  StronglySorted Z.le ch -> (forall a, a ∈ ch -> a = v) ->
  let m1 := Z.quot (len ch) 2 in
  (a ← idx ch m1;
   b ← idx ch (m1 - 1);
   if negb (a =? b) then Ret (uint32 a)
   else
     m1' ← Median.dec_m1 (S (length ch)) ch (m1 - 1);
     m2' ← Median.inc_m2 (S (length ch)) ch (m1 + 1);
     if m1' >? len ch - m2' then v ← idx ch m1'; Ret (uint32 v)
     else v ← idx ch m2'; Ret (uint32 v)) = Panic IndexOutOfRange.
Proof.
  intros Hss Hc. cbv zeta.
  destruct (Z_le_gt_dec (len ch) 1) as [Hshort|Hlong].
  - assert (Hq : Z.quot (len ch) 2 = 0).
    { assert (Hl : 0 <= len ch) by (unfold len; lia).
      destruct (Z.eq_dec (len ch) 0) as [->|]; [done|].
      replace (len ch) with 1 by lia. done. }
    rewrite Hq.
    destruct (idx_cases ch 0) as [(a & -> & _)|[-> _]]; [|done].
    cbn [mbind result_bind Go.bind]. rewrite (idx_out ch (0 - 1)) by lia. done.
  - assert (Hq : 1 <= Z.quot (len ch) 2 < len ch).
    { pose proof (quot2_bounds (len ch)) as [Hq _]. specialize (Hq ltac:(lia)). lia. }
    set (m1 := Z.quot (len ch) 2) in *.
    destruct (idx_at ch m1 ltac:(lia)) as [-> _].
    destruct (idx_at ch (m1 - 1) ltac:(lia)) as [-> _].
    cbn [mbind result_bind Go.bind].
    rewrite !(constant_lookup ch v) by (done || lia).
    rewrite Z.eqb_refl. cbn [negb].
    destruct (dec_m1_spec ch (S (length ch)) (m1 - 1)) as (m1' & -> & Hm1 & _ & Hb1);
      [lia | unfold len in *; lia |].
    destruct (inc_m2_spec ch (S (length ch)) (m1 + 1)) as (m2' & -> & Hm2 & _ & Hb2);
      [lia | unfold len in *; lia |].
    cbn [mbind result_bind Go.bind].
    assert (m1' = 0).
    { destruct Hb1 as [->|Hb1]; [done|].
      destruct (Z.eq_dec m1' 0) as [->|]; [done|]. exfalso. apply Hb1.
      by rewrite !(constant_lookup ch v) by (done || lia). }
    assert (m2' = len ch).
    { destruct Hb2 as [->|Hb2]; [done|].
      destruct (Z.eq_dec m2' (len ch)) as [->|]; [done|]. exfalso. apply Hb2.
      by rewrite !(constant_lookup ch v) by (done || lia). }
    subst m1' m2'.
    destruct (Z.gtb_spec 0 (len ch - len ch)); [lia|].
    rewrite (idx_out ch (len ch)) by lia. done.
Qed.

(** [medianCut] on a cluster without a range in its widest channel. *)
Lemma medianCut_no_range (q : Median.quantizer) (c : Median.cluster) :
  img_ok (Median.img q) ->
  len (Median.px c) <= Median.ch q ->
  ~ has_range (Median.img q) (Median.widestCh c) (Median.px c) ->
  Median.medianCut q c = Panic IndexOutOfRange.
Proof.
  intros Hok Hch Hnr. unfold Median.medianCut.
  destruct (Z.ltb_spec (Median.ch q) (len (Median.px c))); [lia|].
  cbn [mbind result_bind Go.bind].
  set (w := Median.widestCh c) in *. set (im := Median.img q) in *.
  assert (Hvals : (fun p => uint16 (channel w (colorAt im p))) <$> Median.px c
                  = value im w <$> Median.px c).
  { apply list_fmap_ext. intros i p _. apply uint16_small, value_range, Hok. }
  rewrite Hvals. unfold Median.sort.
  set (chs := merge_sort Z.le (value im w <$> Median.px c)).
  assert (Hperm : chs ≡ₚ value im w <$> Median.px c) by apply merge_sort_Permutation.
  assert (Hss : StronglySorted Z.le chs).
  { subst chs. apply StronglySorted_merge_sort; apply _. }
  assert (Heq : forall p1 p2, p1 ∈ Median.px c -> p2 ∈ Median.px c ->
                              value im w p1 = value im w p2).
  { intros p1 p2 H1 H2.
    destruct (Z.lt_trichotomy (value im w p1) (value im w p2)) as [Hlt|[E|Hgt]]; [|done|].
    - exfalso. apply Hnr. exists p1, p2. done.
    - exfalso. apply Hnr. exists p2, p1. split; [done|]. split; [done|lia]. }
  set (v := match Median.px c with [] => 0 | p :: _ => value im w p end).
  assert (Hc : forall a, a ∈ chs -> a = v).
  { intros a Ha. rewrite Hperm in Ha. apply list_elem_of_fmap in Ha as (p & -> & Hp).
    subst v. destruct (Median.px c) as [|p0 px0]; [by apply elem_of_nil in Hp|].
    apply Heq; [done | left]. }
  exact (median_of_constant chs v Hss Hc).
Qed.

(** [X14] What the comment of [medianCut] promises, and why it asks for a
    range: on a cluster that fits the buffer [q.ch], if two pixels differ
    in the channel [c.widestCh] then [medianCut] returns a value [m] at
    which [split] cuts the cluster into two non-empty parts, the pixels
    with [v < m] and those with [v >= m]; if no two pixels differ in that
    channel (one value, or no pixel) it panics with an index out of
    range. *)
Theorem medianCut_guarantee (q : Median.quantizer) (c : Median.cluster) :
  img_ok (Median.img q) ->
  len (Median.px c) <= Median.ch q ->
  (has_range (Median.img q) (Median.widestCh c) (Median.px c) ->
   exists m spx cpx,
     Median.medianCut q c = Ret m /\
     Median.split q c m = Ret (spx, cpx) /\
     spx <> [] /\ cpx <> [] /\ spx ++ cpx ≡ₚ Median.px c /\
     Forall (fun p => value (Median.img q) (Median.widestCh c) p < m) spx /\
     Forall (fun p => m <= value (Median.img q) (Median.widestCh c) p) cpx) /\
  (~ has_range (Median.img q) (Median.widestCh c) (Median.px c) ->
   Median.medianCut q c = Panic IndexOutOfRange).
Proof.
  intros Hok Hch. split; [|by apply medianCut_no_range].
  intros Hr.
  destruct (medianCut_spec q c Hok Hch Hr)
    as (m & Ecut & (pl & Hpl & Hplv) & (ph & Hph & Hphv)).
  unfold Median.split.
  destruct (split_px_spec (Median.img q) (Median.widestCh c) (fun v => v <? m)
              (Median.px c)) as (spx & cpx & Esplit & _).
  destruct (split_px_nonempty (Median.img q) (Median.widestCh c) (fun v => v <? m)
              _ _ _ Esplit) as (Hperm & Hlow & Hhigh & Hsne & Hcne).
  exists m, spx, cpx. split; [done|]. split; [done|]. split.
  { apply Hsne. exists pl. split; [done|]. apply Z.ltb_lt. exact Hplv. }
  split.
  { apply Hcne. exists ph. split; [done|]. apply Z.ltb_ge. exact Hphv. }
  split; [done|]. split.
  - eapply Forall_impl; [exact Hlow|]. intros p Hp. cbn in Hp.
    apply Z.ltb_lt in Hp. exact Hp.
  - eapply Forall_impl; [exact Hhigh|]. intros p Hp. cbn in Hp.
    apply Z.ltb_ge in Hp. exact Hp.
Qed.

Lemma medianCut_guarantee_witness :
  exists m spx cpx,
    Median.medianCut (Median.mkQuantizer img_rrgb [] 4)
      (Median.mkCluster (pixels (Bounds img_rrgb)) wr) = Ret m /\
    Median.split (Median.mkQuantizer img_rrgb [] 4)
      (Median.mkCluster (pixels (Bounds img_rrgb)) wr) m = Ret (spx, cpx) /\
    spx <> [] /\ cpx <> [].
Proof.
  destruct img_rrgb_ok as [Hb Hok].
  destruct (medianCut_guarantee (Median.mkQuantizer img_rrgb [] 4)
              (Median.mkCluster (pixels (Bounds img_rrgb)) wr)) as [H _].
  - exact Hok.
  - vm_compute. discriminate.
  - destruct H as (m & spx & cpx & E1 & E2 & H1 & H2 & _).
    + exists (0, 1), (0, 0). cbn [Median.px Median.img Median.widestCh].
      split; [apply elem_of_pixels; cbn; lia|].
      split; [apply elem_of_pixels; cbn; lia|].
      vm_compute. reflexivity.
    + exists m, spx, cpx. split; [exact E1|]. split; [exact E2|]. split; [exact H1 | exact H2].
Defined.

(** [X15] The cut of the mean quantizer.  On a cluster whose statistics are
    those of its pixels and whose widest channel has a range, [cutValue]
    returns a value [m] with [min <= m < max], in either stage, and [split]
    at [m] cuts the cluster into two non-empty parts: the pixels below [m]
    (with those equal to [m] when [m] is the minimum) and the rest.  On an
    empty cluster [cutValue] divides by zero. *)
Theorem mean_cut_and_split (img : Image) (c : Mean.cluster) (early : bool) :
  img_ok img -> in_sync img c -> len (Mean.px c) < 2 ^ 47 ->
  (Mean.max c > Mean.min c ->
   exists m spx cpx,
     Mean.cutValue img c early = Ret m /\ Mean.min c <= m < Mean.max c /\
     Mean.split img c m = Ret (spx, cpx) /\
     spx <> [] /\ cpx <> [] /\ spx ++ cpx ≡ₚ Mean.px c /\
     Forall (fun p => value img (Mean.widestCh c) p < m \/
                      (m = Mean.min c /\ value img (Mean.widestCh c) p = m)) spx /\
     Forall (fun p => m <= value img (Mean.widestCh c) p /\
                      (m = Mean.min c -> m < value img (Mean.widestCh c) p)) cpx) /\
  (Mean.px c = [] -> Mean.cutValue img c early = Panic DivideByZero).
Proof.
  intros Hok Hs Hlen. split; [|apply cutValue_empty].
  intros Hr.
  assert (Hne : Mean.px c <> []) by (by apply (in_sync_nonempty img)).
  destruct (cutValue_spec img c early Hok Hs Hne Hlen Hr) as (m & Ecut & Hm).
  destruct (mean_split_spec img c m Hok Hs Hne Hm)
    as (spx & cpx & Esplit & Hperm & Hspx & Hcpx).
  exists m, spx, cpx. split; [done|]. split; [done|]. split; [done|].
  split; [done|]. split; [done|]. split; [done|].
  unfold Mean.split in Esplit.
  destruct (split_px_nonempty img _ _ _ _ _ Esplit) as (_ & Hlow & Hhigh & _).
  split.
  - eapply Forall_impl; [exact Hlow|]. intros p Hp. cbn in Hp.
    fold (value img (Mean.widestCh c) p) in Hp.
    apply orb_true_iff in Hp as [Hp|Hp].
    + left. by apply Z.ltb_lt.
    + right. apply andb_true_iff in Hp as [H1 H2].
      apply Z.eqb_eq in H1, H2. done.
  - eapply Forall_impl; [exact Hhigh|]. intros p Hp. cbn in Hp.
    fold (value img (Mean.widestCh c) p) in Hp.
    apply orb_false_iff in Hp as [H1 H2]. apply Z.ltb_ge in H1.
    split; [done|]. intros Em. apply andb_false_iff in H2 as [H2|H2].
    + apply Z.eqb_neq in H2. done.
    + apply Z.eqb_neq in H2. lia.
Qed.

Lemma mean_cut_and_split_witness :
  exists m spx cpx,
    Mean.cutValue img_rrgb
      (Mean.setPriority img_rrgb (Mean.mkCluster (pixels (Bounds img_rrgb)) wr 0 0 0 0) true)
      true = Ret m /\
    Mean.split img_rrgb
      (Mean.setPriority img_rrgb (Mean.mkCluster (pixels (Bounds img_rrgb)) wr 0 0 0 0) true)
      m = Ret (spx, cpx) /\
    spx <> [] /\ cpx <> [].
Proof.
  destruct img_rrgb_ok as [Hb Hok].
  destruct (mean_cut_and_split img_rrgb
              (Mean.setPriority img_rrgb
                 (Mean.mkCluster (pixels (Bounds img_rrgb)) wr 0 0 0 0) true) true)
    as [H _].
  - exact Hok.
  - apply mean_setPriority_sync.
  - vm_compute. reflexivity.
  - destruct H as (m & spx & cpx & E1 & _ & E2 & H1 & H2 & _).
    + vm_compute. reflexivity.
    + exists m, spx, cpx. split; [exact E1|]. split; [exact E2|]. split; [exact H1 | exact H2].
Defined.

(** [X16] [setWidestChannel] leaves the pixel list of the cluster as it is
    and returns true exactly when two pixels of the cluster differ in
    colour; the channel it then stores is one in which two pixels
    differ. *)
Theorem setWidestChannel_meaning (img : Image) (c : Median.cluster) :
  img_ok img ->
  Median.px (Median.setWidestChannel img c).1 = Median.px c /\
  ((Median.setWidestChannel img c).2 = true <-> ~ single_colour img (Median.px c)) /\
  ((Median.setWidestChannel img c).2 = true ->
   has_range img (Median.widestCh (Median.setWidestChannel img c).1) (Median.px c)).
Proof.
  intros Hok. split; [apply median_setWidestChannel_px|].
  pose proof (median_setWidestChannel_true img c Hok) as Ht.
  pose proof (median_setWidestChannel_false img c Hok) as Hf.
  split; [|exact Ht]. split.
  - intros E Hs. destruct (Ht E) as (p1 & p2 & H1 & H2 & Hlt).
    unfold value in Hlt. rewrite (Hs p1 p2 H1 H2) in Hlt. lia.
  - intros Hns. destruct (Median.setWidestChannel img c).2; [done|].
    exfalso. by apply Hns, Hf.
Qed.

Lemma setWidestChannel_meaning_witness :
  Median.px (Median.setWidestChannel img_rrgb
               (Median.mkCluster (pixels (Bounds img_rrgb)) wr)).1
  = pixels (Bounds img_rrgb).
Proof.
  destruct img_rrgb_ok as [Hb Hok].
  destruct (setWidestChannel_meaning img_rrgb
              (Median.mkCluster (pixels (Bounds img_rrgb)) wr) Hok) as [H _].
  exact H.
Defined.

(** ** The priority queue is a heap by population *)

Ltac dlia := zify; Z.to_euclidean_division_equations; lia.

Lemma Swap_length (q : Median.queue) (i j : nat) :
  length (Median.Swap q i j) = length q.
Proof. unfold Median.Swap, Median.queue. by rewrite !length_insert. Qed.

Lemma Swap_lookup (q : Median.queue) (i j k : nat) :
  (i < length q)%nat -> (j < length q)%nat ->
  Median.Swap q i j !!! k =
    if decide (k = j) then q !!! i else if decide (k = i) then q !!! j else q !!! k.
Proof.
  intros Hi Hj. unfold Median.Swap, Median.queue in *.
  destruct (decide (k = j)) as [->|Hkj].
  - apply list_lookup_total_insert_eq. rewrite length_insert. done.
  - rewrite list_lookup_total_insert_ne by done.
    destruct (decide (k = i)) as [->|Hki].
    + by rewrite list_lookup_total_insert_eq.
    + by rewrite list_lookup_total_insert_ne.
Qed.

Section HeapOrder.
Variable cs : list Median.cluster.

Let key (q : Median.queue) (k : nat) : Z := pop_of cs (q !!! k).

Lemma Less_key (q : Median.queue) (a b : nat) :
  (Median.Less cs q a b = true -> key q a > key q b) /\
  (Median.Less cs q a b = false -> key q a <= key q b).
Proof.
  unfold Median.Less, key, pop_of.
  destruct (Z.gtb_spec (len (Median.px (cs !!! (q !!! a))))
                       (len (Median.px (cs !!! (q !!! b))))); split; (done || lia).
Qed.

Lemma Swap_key (q : Median.queue) (i j k : nat) :
  (i < length q)%nat -> (j < length q)%nat ->
  key (Median.Swap q i j) k =
    if decide (k = j) then key q i else if decide (k = i) then key q j else key q k.
Proof.
  intros Hi Hj. unfold key. rewrite Swap_lookup by done.
  by destruct (decide (k = j)), (decide (k = i)).
Qed.

(** Sifting up from [j] restores the heap when [j] is the only entry that
    may have more pixels than its parent. *)
Lemma up_heap (fuel : nat) :
  forall (q : Median.queue) (j : nat),
    (j < length q)%nat -> (j < fuel)%nat ->
    (forall k, (0 < k < length q)%nat -> k <> j ->
       key q k <= key q ((k - 1) / 2)%nat) ->
    (forall k, (0 < k < length q)%nat -> ((k - 1) / 2)%nat = j -> (0 < j)%nat ->
       key q k <= key q ((j - 1) / 2)%nat) ->
    heap_ok cs (Median.up cs fuel q j).
Proof.
  induction fuel as [|fuel IH]; intros q j Hj Hf H1 H2; [lia|].
  cbn [Median.up].
  destruct (Nat.eqb_spec ((j - 1) / 2) j) as [E|NE]; cbn [orb].
  { intros k Hk. destruct (decide (k = j)) as [->|Hkj]; [dlia|]. by apply H1. }
  destruct (Median.Less cs q j ((j - 1) / 2)) eqn:EL; cbn [negb].
  2:{ apply Less_key in EL. intros k Hk.
      destruct (decide (k = j)) as [->|Hkj]; [done|]. by apply H1. }
  apply Less_key in EL.
  assert (Hj0 : (0 < j)%nat) by dlia.
  assert (Hi : ((j - 1) / 2 < j)%nat) by dlia.
  set (i := ((j - 1) / 2)%nat) in *.
  apply IH.
  - rewrite Swap_length. lia.
  - lia.
  - intros k Hk Hki. rewrite Swap_length in Hk.
    rewrite !Swap_key by lia.
    destruct (decide (k = j)) as [->|Hkj].
    + fold i. destruct (decide (i = j)); [lia|].
      destruct (decide (i = i)); [lia|done].
    + destruct (decide (k = i)); [done|].
      destruct (decide (((k - 1) / 2)%nat = j)) as [Epj|Npj].
      * specialize (H2 k Hk Epj Hj0). fold i in H2. done.
      * destruct (decide (((k - 1) / 2)%nat = i)) as [Epi|Npi].
        -- specialize (H1 k Hk Hkj). rewrite Epi in H1. lia.
        -- by apply H1.
  - intros k Hk Epi Hi0. rewrite Swap_length in Hk.
    rewrite !Swap_key by lia.
    assert (Hp : key q i <= key q ((i - 1) / 2)%nat) by (apply H1; lia).
    destruct (decide (((i - 1) / 2)%nat = j)); [dlia|].
    destruct (decide (((i - 1) / 2)%nat = i)); [dlia|].
    destruct (decide (k = j)) as [->|Hkj]; [done|].
    destruct (decide (k = i)); [dlia|].
    specialize (H1 k Hk Hkj). rewrite Epi in H1. lia.
Qed.

(** Sifting down from [i] in the first [n] entries restores the heap there
    when the children of [i] are the only entries that may have more
    pixels than their parent; the entries from [n] on stay. *)
Lemma down_heap (fuel : nat) :
  forall (q : Median.queue) (i n : nat),
    (n <= length q)%nat -> (n - i <= fuel)%nat ->
    (forall k, (0 < k < n)%nat -> ((k - 1) / 2)%nat <> i ->
       key q k <= key q ((k - 1) / 2)%nat) ->
    (forall k, (0 < k < n)%nat -> ((k - 1) / 2)%nat = i -> (0 < i)%nat ->
       key q k <= key q ((i - 1) / 2)%nat) ->
    (forall k, (0 < k < n)%nat ->
       key (Median.down cs fuel q i n) k
       <= key (Median.down cs fuel q i n) ((k - 1) / 2)%nat) /\
    length (Median.down cs fuel q i n) = length q /\
    (forall k, (n <= k)%nat -> Median.down cs fuel q i n !!! k = q !!! k).
Proof.
  induction fuel as [|fuel IH]; intros q i n Hn Hf H1 H2.
  { cbn [Median.down]. split; [|done]. intros k Hk. apply H1; [done|dlia]. }
  cbn [Median.down].
  destruct (Nat.leb_spec n (2 * i + 1)) as [Hleaf|Hchild].
  { split; [|done]. intros k Hk. apply H1; [done|dlia]. }
  set (j1 := (2 * i + 1)%nat) in *.
  set (j := if ((j1 + 1 <? n)%nat && Median.Less cs q (j1 + 1) j1)%bool
            then (j1 + 1)%nat else j1).
  assert (Hjcase : (j = j1 \/ j = j1 + 1)%nat /\ (j < n)%nat /\
                   forall k, (0 < k < n)%nat -> ((k - 1) / 2)%nat = i -> key q k <= key q j).
  { subst j. destruct (Nat.ltb_spec (j1 + 1) n) as [Hj2|Hj2]; cbn [andb].
    - destruct (Median.Less cs q (j1 + 1) j1) eqn:EL; apply Less_key in EL.
      + split; [by right|]. split; [done|]. intros k Hk Ek.
        assert (Hc : k = j1 \/ k = (j1 + 1)%nat) by dlia.
        destruct Hc as [->| ->]; lia.
      + split; [by left|]. split; [lia|]. intros k Hk Ek.
        assert (Hc : k = j1 \/ k = (j1 + 1)%nat) by dlia.
        destruct Hc as [->| ->]; lia.
    - split; [by left|]. split; [lia|]. intros k Hk Ek.
      assert (Hc : k = j1) by dlia. subst k. lia. }
  clearbody j. destruct Hjcase as (Hjc & Hjn & Hjmax).
  assert (Hpj : ((j - 1) / 2)%nat = i) by dlia.
  assert (Hij : (i < j)%nat) by dlia.
  destruct (Median.Less cs q j i) eqn:EL; cbn [negb]; apply Less_key in EL.
  2:{ split; [|done]. intros k Hk.
      destruct (decide (((k - 1) / 2)%nat = i)) as [Ek|Nk].
      - rewrite Ek. specialize (Hjmax k Hk Ek). lia.
      - by apply H1. }
  destruct (IH (Median.Swap q i j) j n) as (G1 & G2 & G3).
  - rewrite Swap_length. lia.
  - lia.
  - intros k Hk Npj. rewrite !Swap_key by lia.
    destruct (decide (k = j)) as [->|Hkj].
    + rewrite Hpj. destruct (decide (i = j)); [lia|].
      destruct (decide (i = i)); [lia|done].
    + destruct (decide (((k - 1) / 2)%nat = j)); [done|].
      destruct (decide (k = i)) as [->|Hki].
      * destruct (decide (((i - 1) / 2)%nat = i)); [dlia|].
        apply (H2 j); [lia | done | lia].
      * destruct (decide (((k - 1) / 2)%nat = i)) as [Ek|Nk].
        -- by apply Hjmax.
        -- by apply H1.
  - intros k Hk Epk Hj0. rewrite !Swap_key by lia.
    rewrite Hpj.
    destruct (decide (i = j)); [lia|]. destruct (decide (i = i)); [|done].
    destruct (decide (k = j)); [dlia|]. destruct (decide (k = i)); [dlia|].
    assert (Hk1 : key q k <= key q ((k - 1) / 2)%nat) by (apply H1; [done|lia]).
    rewrite Epk in Hk1. done.
  - split; [done|]. split; [by rewrite G2, Swap_length|].
    intros k Hk. rewrite G3 by done. rewrite Swap_lookup by lia.
    destruct (decide (k = j)); [lia|]. destruct (decide (k = i)); [lia|done].
Qed.

(** the first entry of a heap has the most pixels *)
Lemma heap_root_max (q : Median.queue) :
  heap_ok cs q -> forall k, (k < length q)%nat -> key q k <= key q 0.
Proof.
  intros Hh k. induction k as [k IH] using lt_wf_ind. intros Hk.
  destruct (decide (k = 0)%nat) as [->|Hk0]; [done|].
  pose proof (Hh k ltac:(lia)) as H1. fold (key q k) (key q ((k - 1) / 2)%nat) in H1.
  assert (Hp : ((k - 1) / 2 < k)%nat) by dlia.
  specialize (IH _ Hp ltac:(lia)). lia.
Qed.

Lemma heap_Push_heap (q : Median.queue) (c : nat) :
  heap_ok cs q -> heap_ok cs (Median.heap_Push cs q c).
Proof.
  intros Hh. unfold Median.heap_Push.
  assert (Hlen : length (q ++ [c]) = S (length q)) by (rewrite length_app; cbn; lia).
  apply up_heap.
  - lia.
  - lia.
  - intros k Hk Hkj. rewrite Hlen in Hk, Hkj.
    unfold key, Median.queue in *. rewrite !lookup_total_app_l by dlia.
    apply Hh. lia.
  - intros k Hk Ek Hj0. rewrite Hlen in Hk, Ek. dlia.
Qed.

Lemma heap_Pop_heap (q : Median.queue) :
  heap_ok cs q -> q <> [] ->
  Median.heap_Pop cs q =
    Ret (q !!! 0%nat,
         take (length q - 1)
           (Median.down cs (length q) (Median.Swap q 0 (length q - 1)) 0 (length q - 1))) /\
  heap_ok cs (take (length q - 1)
                (Median.down cs (length q) (Median.Swap q 0 (length q - 1)) 0
                   (length q - 1))) /\
  (forall y, y ∈ q -> pop_of cs y <= pop_of cs (q !!! 0%nat)).
Proof.
  intros Hh Hne.
  assert (Hlen : (0 < length q)%nat) by (destruct q; [done | cbn; lia]).
  set (n := (length q - 1)%nat).
  set (q1 := Median.Swap q 0 n).
  assert (Hl1 : length q1 = length q) by apply Swap_length.
  destruct (down_heap (length q) q1 0 n) as (G1 & G2 & G3).
  - lia.
  - lia.
  - intros k Hk Npk. subst q1. rewrite !Swap_key by lia.
    destruct (decide (k = n)); [lia|]. destruct (decide (k = 0)%nat); [lia|].
    destruct (decide (((k - 1) / 2)%nat = n)); [dlia|].
    destruct (decide (((k - 1) / 2)%nat = 0)%nat); [done|].
    apply Hh. lia.
  - intros k Hk Epk H0. lia.
  - set (q2 := Median.down cs (length q) q1 0 n) in *.
    split; [|split].
    + unfold Median.heap_Pop. fold n. fold q1. rewrite Hl1. fold q2.
      destruct (idx_lt q 0) as (c0 & -> & _); [unfold len; lia|].
      cbn [mbind result_bind Go.bind].
      destruct (idx_lt q2 (Z.of_nat n)) as (c & -> & Hc); [unfold len; lia|].
      cbn [mbind result_bind Go.bind]. rewrite Nat2Z.id in Hc.
      apply list_lookup_total_correct in Hc. rewrite <- Hc.
      rewrite G3 by lia. subst q1. rewrite Swap_lookup by lia.
      destruct (decide (n = n)); [done|lia].
    + intros j Hj. rewrite length_take in Hj.
      assert (Hjn : (j < n)%nat) by lia.
      assert (Ht : forall k, (k < n)%nat -> take n q2 !!! k = q2 !!! k).
      { intros k Hk. unfold Median.queue in *.
        rewrite !list_lookup_total_alt. by rewrite lookup_take_lt. }
      rewrite !Ht by dlia. apply G1. lia.
    + intros y Hy. apply list_elem_of_lookup_1 in Hy as [k Hk].
      pose proof (lookup_lt_Some _ _ _ Hk) as Hklt.
      apply list_lookup_total_correct in Hk. subst y.
      by apply heap_root_max.
Qed.

End HeapOrder.

(** [X17] The queue of clusters is a heap by population.  On a queue in
    heap order, [heap.Push] gives a queue in heap order that holds the new
    cluster and the old ones; [heap.Pop] on a non-empty queue returns a
    queued cluster with the most pixels and leaves the others, in heap
    order; on the empty queue it panics with an index out of range. *)
Theorem queue_is_max_heap (cs : list Median.cluster) (q : Median.queue) (c : nat) :
  heap_ok cs q ->
  (heap_ok cs (Median.heap_Push cs q c) /\ Median.heap_Push cs q c ≡ₚ c :: q) /\
  (q <> [] ->
   exists x q',
     Median.heap_Pop cs q = Ret (x, q') /\ q ≡ₚ x :: q' /\ heap_ok cs q' /\
     forall y, y ∈ q -> pop_of cs y <= pop_of cs x) /\
  (q = [] -> Median.heap_Pop cs q = Panic IndexOutOfRange).
Proof.
  intros Hh. split; [|split].
  - split; [by apply heap_Push_heap | apply heap_Push_perm].
  - intros Hne.
    destruct (heap_Pop_heap cs q Hh Hne) as (E & Hh' & Hmax).
    destruct (heap_Pop_spec cs q Hne) as (x & q' & E' & Hperm).
    rewrite E in E'. injection E' as <- <-.
    eexists _, _. split; [exact E|]. split; [exact Hperm|]. split; [exact Hh' | exact Hmax].
  - intros ->. reflexivity.
Qed.

Lemma queue_is_max_heap_witness :
  exists x q',
    Median.heap_Pop [Median.mkCluster [(0, 0); (1, 0)] wr; Median.mkCluster [(0, 1)] wr]
      [0%nat; 1%nat] = Ret (x, q') /\
    [0%nat; 1%nat] ≡ₚ x :: q'.
Proof.
  destruct (queue_is_max_heap
              [Median.mkCluster [(0, 0); (1, 0)] wr; Median.mkCluster [(0, 1)] wr]
              [0%nat; 1%nat] 0%nat) as (_ & H & _).
  - intros j Hj. cbn [length] in Hj.
    assert (Ej : j = 1%nat) by lia. subst j. vm_compute. discriminate.
  - destruct H as (x & q' & E & Hperm & _); [discriminate|].
    exists x, q'. split; [exact E | exact Hperm].
Defined.

(** ** Clusters do not share colours *)

(** Cutting one list in two parts that share no colour keeps the lists
    from sharing colours. *)
Lemma colour_closed_split (img : Image) (pxs : list (list point)) (s : nat)
    (px a b : list point) :
  pxs !! s = Some px -> a ++ b ≡ₚ px ->
  (forall p q, p ∈ a -> q ∈ b -> colorAt img p <> colorAt img q) ->
  colour_closed img pxs ->
  colour_closed img (<[s := a]> pxs ++ [b]).
Proof.
  intros Hs Hperm Hdisj Hcl.
  assert (Hslt : (s < length pxs)%nat) by (by eapply lookup_lt_Some).
  assert (Hina : forall p, p ∈ a -> p ∈ px).
  { intros p Hp. rewrite <- Hperm. apply elem_of_app. by left. }
  assert (Hinb : forall p, p ∈ b -> p ∈ px).
  { intros p Hp. rewrite <- Hperm. apply elem_of_app. by right. }
  (* where a list of the new family comes from *)
  assert (Hfrom : forall k pxk p,
            (<[s := a]> pxs ++ [b]) !! k = Some pxk -> p ∈ pxk ->
            (k = s /\ pxk = a) \/ (k = length pxs /\ pxk = b) \/
            (k <> s /\ (k < length pxs)%nat /\ pxs !! k = Some pxk)).
  { intros k pxk p Hk Hp.
    destruct (decide (k < length pxs)%nat) as [Hlt|Hge].
    - rewrite lookup_app_l in Hk by (by rewrite length_insert).
      destruct (decide (k = s)) as [->|Hks].
      + rewrite list_lookup_insert_eq in Hk by done. injection Hk as <-. by left.
      + rewrite list_lookup_insert_ne in Hk by done. right. right. done.
    - rewrite lookup_app_r in Hk by (rewrite length_insert; lia).
      rewrite length_insert in Hk.
      destruct (k - length pxs)%nat as [|d] eqn:Ed; cbn in Hk; [|done].
      injection Hk as <-. right. left. split; [lia|done]. }
  intros k1 k2 px1 px2 p q H1 H2 Hp Hq Hc.
  destruct (Hfrom k1 px1 p H1 Hp) as [[-> ->]|[[-> ->]|(N1 & L1 & E1)]];
    destruct (Hfrom k2 px2 q H2 Hq) as [[-> ->]|[[-> ->]|(N2 & L2 & E2)]];
    try done.
  - exfalso. by apply (Hdisj p q).
  - exfalso. apply N2. symmetry. apply (Hcl s k2 px px2 p q); auto.
  - exfalso. apply (Hdisj q p); done.
  - exfalso. assert (s = k2) by (apply (Hcl s k2 px px2 p q); auto). lia.
  - exfalso. apply N1. apply (Hcl k1 s px1 px p q); auto.
  - exfalso. assert (k1 = s) by (apply (Hcl k1 s px1 px p q); auto). lia.
  - by apply (Hcl k1 k2 px1 px2 p q).
Qed.

(** non-empty lists that share no colour: no more lists than colours *)
Lemma clusters_le_colours (img : Image) (pxs : list (list point)) :
  concat pxs ≡ₚ pixels (Bounds img) ->
  Forall (fun px => px <> []) pxs ->
  colour_closed img pxs ->
  (length pxs <= length (colours img))%nat.
Proof.
  intros Hperm Hne Hcl.
  set (reps := (fun px => colorAt img (hd (0, 0) px)) <$> pxs).
  replace (length pxs) with (length reps) by (subst reps; by rewrite length_fmap).
  apply submseteq_length, NoDup_submseteq.
  - subst reps. apply NoDup_alt. intros i j c Hi Hj.
    rewrite list_lookup_fmap in Hi, Hj.
    apply fmap_Some in Hi as (pxi & Ei & Hi).
    apply fmap_Some in Hj as (pxj & Ej & Hj).
    pose proof (Forall_lookup_1 _ _ _ _ Hne Ei) as Ni.
    pose proof (Forall_lookup_1 _ _ _ _ Hne Ej) as Nj.
    destruct pxi as [|pi pxi]; [done|]. destruct pxj as [|pj pxj]; [done|].
    cbn [hd] in Hi, Hj.
    apply (Hcl i j _ _ pi pj Ei Ej); [left | left | congruence].
  - intros c Hc. subst reps. apply list_elem_of_fmap in Hc as (px & -> & Hpx).
    unfold colours. rewrite elem_of_remove_dups. apply list_elem_of_fmap.
    rewrite Forall_forall in Hne. specialize (Hne px Hpx).
    destruct px as [|p0 px']; [done|]. cbn [hd].
    exists p0. split; [done|]. rewrite <- Hperm. apply elem_of_concat.
    exists (p0 :: px'). split; [done | left].
Qed.

Section MedianColours.
Variable img : Image.
Hypothesis Hok : img_ok img.
Variable P : list point.

(** The loop of median [cluster] never puts pixels of one colour into two
    clusters. *)
Lemma median_loop_colours (fuel : nat) :
  forall (q : Median.quantizer) (pq : Median.queue) (c : nat) (i : Z) (n : nat),
    Median.img q = img -> Median.ch q = len P ->
    clusters_inv img P (Median.cs q) pq [c] i ->
    Z.of_nat c < i -> i < len (Median.cs q) ->
    colour_closed img (Median.px <$> take (Z.to_nat i) (Median.cs q)) ->
    forall q' n',
      Median.cluster_loop fuel q pq c i n = Ret (q', n') ->
      colour_closed img (Median.px <$> Median.cs q').
Proof.
  induction fuel as [|fuel IH]; intros q pq c i n Himg Hch Inv Hc Hi Hcl q' n' E;
    [discriminate|].
  destruct q as [img' cs0 ch0]. cbn [Median.img Median.cs Median.ch] in *.
  subst img' ch0. cbn [Median.cluster_loop Median.img Median.cs Median.ch] in E.
  pose proof (analyze_step img Hok P cs0 pq c [] i Inv Hc (not_elem_of_nil c)) as Inv1.
  pose proof (px_insert_setWidestChannel img cs0 c) as Hpx1.
  destruct (Median.setWidestChannel img (cs0 !!! c)) as [cc ok]. cbn [fst snd] in Inv1, Hpx1.
  set (cs1 := <[c := cc]> cs0) in *.
  assert (Hlen1 : len cs1 = len cs0) by (unfold len; subst cs1; by rewrite length_insert).
  assert (Hcl1 : colour_closed img (Median.px <$> take (Z.to_nat i) cs1)).
  { rewrite fmap_take, Hpx1, <- fmap_take. done. }
  set (pq1 := Median.push_if ok cs1 pq c) in *.
  destruct (Z.eqb_spec (len pq1) 0) as [Hz|Hnz].
  - rewrite slice_to_ok in E by lia. cbn [mbind result_bind Go.bind] in E.
    injection E as <- _. cbn [Median.cs]. done.
  - assert (Hpq1 : pq1 <> []) by (intros E0; rewrite E0 in Hnz; done).
    destruct (split_step img Hok P cs1 pq1 i Inv1 ltac:(lia) Hpq1)
      as (s & pq2 & m & spx & cpx & Epop & Ecut & Esplit & Hsi & Inv2).
    rewrite Epop in E. cbn [mbind result_bind Go.bind] in E.
    rewrite Ecut in E. cbn [mbind result_bind Go.bind] in E.
    destruct (idx_lt cs1 i ltac:(lia)) as (ci & Ei & _). rewrite Ei in E.
    cbn [mbind result_bind Go.bind] in E.
    rewrite Esplit in E. cbn [mbind result_bind Go.bind] in E.
    set (l0 := <[s := Median.set_px (cs1 !!! s) spx]> cs1) in *.
    set (l := <[Z.to_nat i := Median.set_px (l0 !!! Z.to_nat i) cpx]> l0) in *.
    assert (Hlenl : len l = len cs0).
    { unfold len in *. subst l l0. by rewrite !length_insert. }
    (* the new family of pixel lists *)
    assert (Hcl2 : colour_closed img (Median.px <$> take (Z.to_nat (i + 1)) l)).
    { unfold Median.split in Esplit. cbn [Median.img] in Esplit.
      destruct (split_px_nonempty img _ _ _ _ _ Esplit) as (Hperm & Hlow & Hhigh & _).
      set (ni := Z.to_nat i).
      assert (Hsni : (s < ni)%nat) by lia.
      assert (Hnilt : (ni < length cs1)%nat) by (unfold len in *; lia).
      assert (Hls : cs1 !! s = Some (cs1 !!! s)) by (apply list_lookup_lookup_total_lt; lia).
      assert (Hlni : l !! ni = Some (Median.set_px (l0 !!! ni) cpx)).
      { subst l. apply list_lookup_insert_eq. subst l0. rewrite length_insert. lia. }
      replace (Z.to_nat (i + 1)) with (S ni) by lia.
      rewrite (take_S_r _ _ _ Hlni). subst l. rewrite take_insert_ge by lia.
      subst l0. rewrite take_insert_lt by lia.
      rewrite fmap_app, list_fmap_insert. cbn [fmap list_fmap Median.set_px Median.px].
      eapply colour_closed_split; [| exact Hperm | | exact Hcl1].
      - rewrite list_lookup_fmap, lookup_take_lt, Hls by lia. done.
      - intros p q Hp Hq Hcol.
        rewrite Forall_forall in Hlow, Hhigh.
        pose proof (Hlow p Hp) as H1. pose proof (Hhigh q Hq) as H2. cbn in H1, H2.
        unfold value in H1, H2. rewrite Hcol in H1. congruence. }
    rewrite Hlenl in E.
    destruct (Z.eqb_spec (i + 1) (len cs0)) as [Hlast|Hmore].
    + injection E as <- _. cbn [Median.cs].
      rewrite <- (take_ge l (Z.to_nat (i + 1))) by (unfold len in *; lia). done.
    + assert (Hsne : s ∉ [Z.to_nat i]).
      { intros Hin. apply list_elem_of_singleton in Hin. lia. }
      pose proof (analyze_step img Hok P l pq2 s [Z.to_nat i] (i + 1) Inv2 ltac:(lia) Hsne)
        as Inv3.
      pose proof (px_insert_setWidestChannel img l s) as Hpx3.
      destruct (Median.setWidestChannel img (l !!! s)) as [sc ok2].
      cbn [fst snd] in Inv3, Hpx3.
      assert (Hlen3 : len (<[s := sc]> l) = len cs0).
      { unfold len in *. rewrite length_insert. lia. }
      eapply (IH (Median.mkQuantizer img (<[s := sc]> l) (len P))
                 (Median.push_if ok2 (<[s := sc]> l) pq2 s) (Z.to_nat i) (i + 1) (S n)
                 eq_refl eq_refl); cbn [Median.cs].
      * exact Inv3.
      * lia.
      * lia.
      * rewrite fmap_take, Hpx3, <- fmap_take. done.
      * exact E.
Qed.

End MedianColours.

Lemma median_run_colours (img : Image) (n : Z) :
  rect_ok (Bounds img) -> img_ok img -> 2 <= n ->
  forall q k, median_clusters img n = Ret (q, k) ->
              colour_closed img (Median.px <$> Median.cs q).
Proof.
  intros Hb Hok Hn q k. unfold median_clusters.
  rewrite median_newQuantizer_ok by (done || lia).
  cbn [mbind result_bind Go.bind]. unfold Median.cluster_counted.
  cbn [Median.cs]. rewrite idx_0_cons. cbn [mbind result_bind Go.bind].
  set (P := pixels (Bounds img)).
  set (cs := Median.mkCluster P wr :: replicate (Z.to_nat (n - 1)) Median.cluster0).
  assert (Hlen : len cs = n).
  { unfold len. subst cs. cbn [length]. rewrite length_replicate. lia. }
  intros E.
  eapply (median_loop_colours img Hok P (length cs)
            (Median.mkQuantizer img cs (len P)) [] 0%nat 1 0%nat eq_refl eq_refl);
    cbn [Median.cs]; [| lia | lia | | exact E].
  - split; [lia|]. split.
    { subst cs. change (Z.to_nat 1) with 1%nat. cbn. by rewrite ?app_nil_r. }
    split; [constructor|]. split.
    { intros s Hs. by apply elem_of_nil in Hs. }
    split.
    { intros j Hj Hjp. exfalso. apply Hjp. replace j with 0%nat by lia. left. }
    intros HP j Hj. replace j with 0%nat by lia. done.
  - subst cs. change (Z.to_nat 1) with 1%nat. cbn [take fmap list_fmap].
    intros [|k1] [|k2] px1 px2 p q' H1 H2; cbn in H1, H2; done.
Qed.

(** [X18] The number of clusters median [cluster] returns.  Pixels of one
    colour always stay in one cluster, so on a non-empty image, asked for
    [n >= 2] colours, [cluster] returns exactly [min n c] clusters, [c]
    being the number of distinct colours of the image; and this is the
    size of the palette of the image [Quantize] returns. *)
Theorem median_cluster_count_exact (img : Image) (n : Z) :
  rect_ok (Bounds img) -> img_ok img -> pixels (Bounds img) <> [] -> 2 <= n ->
  (exists q k,
     median_clusters img n = Ret (q, k) /\
     colour_closed img (Median.px <$> Median.cs q) /\
     len (Median.cs q) = Z.min n (len (colours img))) /\
  (len (pixels (Bounds img)) < 2 ^ 47 ->
   exists pi,
     Median.Quantize img n = Ret pi /\
     len (Palette pi) = Z.min n (len (colours img))).
Proof.
  intros Hb Hok Hne Hn.
  destruct (median_run_spec img n Hb Hok Hn)
    as (q & k & E & Himg & Hl & Hk & Hperm & Hnonempty & Hs).
  pose proof (median_run_colours img n Hb Hok Hn q k E) as Hcl.
  assert (Hle : len (Median.cs q) <= len (colours img)).
  { unfold len. apply inj_le. rewrite <- (length_fmap Median.px).
    apply clusters_le_colours; [done | | done].
    apply Forall_fmap. by apply Hnonempty. }
  assert (Hcount : len (Median.cs q) = Z.min n (len (colours img))).
  { destruct (Z_lt_ge_dec (len (Median.cs q)) n) as [Hlt|Hge]; [|lia].
    assert (Hge : len (colours img) <= len (Median.cs q)).
    { unfold len. apply inj_le. rewrite <- (length_fmap Median.px).
      apply colours_le_clusters; [done|]. apply Forall_fmap. by apply Hs. }
    lia. }
  split.
  - exists q, k. done.
  - intros HP.
    rewrite (median_Quantize_clusters img n q k E). unfold Median.paletted.
    rewrite Himg.
    destruct (paletted_of_spec img (Median.px <$> Median.cs q) Hb Hok HP)
      as (pi & Epal & _ & _ & Hpal & _).
    { split; [done|]. rewrite Hperm. apply NoDup_pixels. }
    { apply Forall_fmap. by apply Hnonempty. }
    exists pi. split; [done|]. rewrite <- Hcount.
    unfold len. by rewrite Hpal, !length_fmap.
Qed.

Lemma median_cluster_count_exact_witness :
  exists q k,
    median_clusters img_rrgb 10 = Ret (q, k) /\
    len (Median.cs q) = Z.min 10 (len (colours img_rrgb)).
Proof.
  destruct img_rrgb_ok as [Hb Hok].
  destruct (median_cluster_count_exact img_rrgb 10 Hb Hok img_rrgb_pixels ltac:(lia))
    as [(q & k & E & _ & Hc) _].
  exists q, k. split; [exact E | exact Hc].
Defined.

Section MeanColours.
Variable img : Image.
Hypothesis Hok : img_ok img.
Variable P : list point.
Hypothesis HP : len P < 2 ^ 47.

(** The loop of mean [cluster] never puts pixels of one colour into two
    clusters. *)
Lemma mean_loop_colours (fuel : nat) :
  forall (cs : list Mean.cluster) (cx : Z) (n : nat),
    let half := Z.quot (len cs) 2 in
    mean_inv img P cs (cx <? half) [Z.to_nat cx] cx ->
    cx + 1 < len cs ->
    colour_closed img (Mean.px <$> take (Z.to_nat (cx + 1)) cs) ->
    forall l n',
      Mean.cluster_loop fuel img cs half cx n = Ret (l, n') ->
      colour_closed img (Mean.px <$> l).
Proof.
  induction fuel as [|fuel IH]; intros cs cx n half Inv Hlt Hcl l' n' E; [discriminate|].
  cbn [Mean.cluster_loop] in E. fold half in E.
  assert (Hcx0 : 0 <= cx) by (destruct Inv as [? _]; lia).
  pose proof (mean_analyze_step img P cs (cx <? half) (Z.to_nat cx) [] cx Inv ltac:(lia))
    as Inv1.
  set (cs1 := <[Z.to_nat cx := Mean.setPriority img (cs !!! Z.to_nat cx) (cx <? half)]> cs) in *.
  assert (Hlen1 : len cs1 = len cs) by (unfold len; subst cs1; by rewrite length_insert).
  assert (Hpx1 : Mean.px <$> cs1 = Mean.px <$> cs).
  { subst cs1. rewrite list_fmap_insert, mean_setPriority_px.
    apply list_insert_id. rewrite list_lookup_fmap.
    rewrite (list_lookup_lookup_total_lt cs (Z.to_nat cx)) by (unfold len in *; lia). done. }
  assert (Hcl1 : colour_closed img (Mean.px <$> take (Z.to_nat (cx + 1)) cs1)).
  { rewrite fmap_take, Hpx1, <- fmap_take. done. }
  destruct (Mean.select cs1 cx) as [sx mp] eqn:Esel.
  destruct (Z.ltb_spec sx 0) as [Hneg|Hpos].
  - rewrite slice_to_ok in E by lia. cbn [mbind result_bind Go.bind] in E.
    injection E as <- _. done.
  - destruct (mean_split_step img Hok P HP cs1 (cx <? half) (cx <? half) cx sx mp Inv1
                ltac:(lia) Esel Hpos)
      as (m & spx & cpx & Hsx & Eidx & Ecut & Esplit & Inv2).
    rewrite Eidx in E. cbn [mbind result_bind Go.bind] in E.
    rewrite Ecut in E. cbn [mbind result_bind Go.bind] in E.
    destruct (idx_lt cs1 (cx + 1) ltac:(lia)) as (ci & Eci & _). rewrite Eci in E.
    cbn [mbind result_bind Go.bind] in E.
    rewrite Esplit in E. cbn [mbind result_bind Go.bind] in E.
    set (l0 := <[Z.to_nat sx := Mean.set_px (cs1 !!! Z.to_nat sx) spx]> cs1) in *.
    set (l := <[Z.to_nat (cx + 1) := Mean.set_px (l0 !!! Z.to_nat (cx + 1)) cpx]> l0) in *.
    assert (Hlenl : len l = len cs).
    { unfold len in *. subst l l0. by rewrite !length_insert. }
    assert (Hcl2 : colour_closed img (Mean.px <$> take (Z.to_nat (cx + 1 + 1)) l)).
    { unfold Mean.split in Esplit.
      destruct (split_px_nonempty img _ _ _ _ _ Esplit) as (Hperm & Hlow & Hhigh & _).
      set (ns := Z.to_nat sx) in *. set (ni := Z.to_nat (cx + 1)) in *.
      assert (Hsni : (ns < ni)%nat) by lia.
      assert (Hnilt : (ni < length cs1)%nat) by (unfold len in *; lia).
      assert (Hls : cs1 !! ns = Some (cs1 !!! ns)) by (apply list_lookup_lookup_total_lt; lia).
      assert (Hlni : l !! ni = Some (Mean.set_px (l0 !!! ni) cpx)).
      { subst l. apply list_lookup_insert_eq. subst l0. rewrite length_insert. lia. }
      replace (Z.to_nat (cx + 1 + 1)) with (S ni) by lia.
      rewrite (take_S_r _ _ _ Hlni). subst l. rewrite take_insert_ge by lia.
      subst l0. rewrite take_insert_lt by lia.
      rewrite fmap_app, list_fmap_insert. cbn [fmap list_fmap Mean.set_px Mean.px].
      eapply colour_closed_split; [| exact Hperm | | exact Hcl1].
      - rewrite list_lookup_fmap, lookup_take_lt, Hls by lia. done.
      - intros p q Hp Hq Hcol.
        rewrite Forall_forall in Hlow, Hhigh.
        pose proof (Hlow p Hp) as H1. pose proof (Hhigh q Hq) as H2. cbn in H1, H2.
        unfold value in H1, H2. rewrite Hcol in H1. congruence. }
    rewrite Hlenl in E.
    destruct (Z.eqb_spec (cx + 1) (len cs - 1)) as [Hlast|Hmore].
    + injection E as <- _.
      rewrite <- (take_ge l (Z.to_nat (cx + 1 + 1))) by (unfold len in *; lia). done.
    + set (l1 := if cx + 1 =? half then Mean.reprioritize l (cx + 1) else l) in *.
      assert (Inv3 : mean_inv img P l1 (cx + 1 <? half)
                       [Z.to_nat sx; Z.to_nat (cx + 1)] (cx + 1)).
      { subst l1. destruct (Z.eqb_spec (cx + 1) half) as [Eh|Nh].
        - destruct (Z.ltb_spec cx half); [|lia].
          destruct (Z.ltb_spec (cx + 1) half); [lia|].
          apply mean_reprioritize_step; [done|]. right. left.
        - replace (cx + 1 <? half) with (cx <? half); [done|].
          destruct (Z.ltb_spec cx half), (Z.ltb_spec (cx + 1) half); (done || lia). }
      assert (Hpxl1 : Mean.px <$> l1 = Mean.px <$> l).
      { subst l1. destruct (cx + 1 =? half); [apply reprioritize_px | done]. }
      assert (Hlen3 : len l1 = len cs).
      { unfold len in *. rewrite <- (length_fmap Mean.px l1), Hpxl1, length_fmap. done. }
      pose proof (mean_analyze_step img P l1 (cx + 1 <? half) (Z.to_nat sx)
                    [Z.to_nat (cx + 1)] (cx + 1) Inv3 ltac:(lia)) as Inv4.
      set (l2 := <[Z.to_nat sx := Mean.setPriority img (l1 !!! Z.to_nat sx) (cx + 1 <? half)]> l1) in *.
      assert (Hlen4 : len l2 = len cs).
      { unfold len in *. subst l2. rewrite length_insert. lia. }
      assert (Hpxl2 : Mean.px <$> l2 = Mean.px <$> l1).
      { subst l2. rewrite list_fmap_insert, mean_setPriority_px.
        apply list_insert_id. rewrite list_lookup_fmap.
        rewrite (list_lookup_lookup_total_lt l1 (Z.to_nat sx)) by (unfold len in *; lia).
        done. }
      eapply (IH l2 (cx + 1) (S n)).
      * rewrite Hlen4. exact Inv4.
      * lia.
      * rewrite fmap_take, Hpxl2, Hpxl1, <- fmap_take. done.
      * rewrite Hlen4. exact E.
Qed.

End MeanColours.

Lemma mean_run_colours (img : Image) (n : Z) :
  rect_ok (Bounds img) -> img_ok img -> len (pixels (Bounds img)) < 2 ^ 47 -> 1 <= n ->
  forall q k, mean_clusters img n = Ret (q, k) ->
              colour_closed img (Mean.px <$> Mean.cs q).
Proof.
  intros Hb Hok HP Hn q k. unfold mean_clusters.
  rewrite mean_newQuantizer_ok by (done || lia).
  cbn [mbind result_bind Go.bind].
  set (P := pixels (Bounds img)) in *.
  set (cs := Mean.mkCluster P wr 0 0 0 0 :: replicate (Z.to_nat (n - 1)) Mean.cluster0).
  assert (Hlen : len cs = n).
  { unfold len. subst cs. cbn [length]. rewrite length_replicate. lia. }
  assert (Hcl0 : colour_closed img [P]).
  { intros [|k1] [|k2] px1 px2 p q' H1 H2; cbn in H1, H2; done. }
  destruct (Z.gtb_spec n 1) as [Hgt|Hle].
  - unfold Mean.cluster_counted. cbn [Mean.cs Mean.img].
    assert (E0 : idx cs 0 = Ret (Mean.mkCluster P wr 0 0 0 0)) by apply idx_0_cons.
    rewrite E0. cbn [mbind result_bind Go.bind].
    destruct (Mean.cluster_loop (length cs) img cs (Z.quot (len cs) 2) 0 0)
      as [[l k']| |] eqn:E; cbn [mbind result_bind Go.bind]; [|discriminate|discriminate].
    intros [= <- _]. cbn [Mean.cs].
    eapply (mean_loop_colours img Hok P HP (length cs) cs 0 0%nat); [| lia | | exact E].
    + split; [lia|]. split.
      { subst cs. change (Z.to_nat (0 + 1)) with 1%nat. cbn. by rewrite ?app_nil_r. }
      split.
      { intros j Hj Hjp. exfalso. apply Hjp. replace j with 0%nat by lia. left. }
      intros HPne j Hj. replace j with 0%nat by lia. done.
    + subst cs. change (Z.to_nat (0 + 1)) with 1%nat. cbn [take fmap list_fmap]. done.
  - intros [= <- _]. cbn [Mean.cs].
    assert (Ecs : cs = [Mean.mkCluster P wr 0 0 0 0]).
    { unfold cs. replace n with 1 by lia. reflexivity. }
    rewrite Ecs. done.
Qed.

(** [X19] Mean [cluster] never puts pixels of one colour into two
    clusters.  So on a non-empty image, asked for [n >= 1] colours, it
    returns at most [min n c] clusters, [c] being the number of distinct
    colours of the image, and exactly [c] when it stops in the first
    stage, with fewer than [n] and at most [n/2] clusters. *)
Theorem mean_cluster_count_colours (img : Image) (n : Z) :
  rect_ok (Bounds img) -> img_ok img ->
  pixels (Bounds img) <> [] -> len (pixels (Bounds img)) < 2 ^ 47 -> 1 <= n ->
  exists q k,
    mean_clusters img n = Ret (q, k) /\
    colour_closed img (Mean.px <$> Mean.cs q) /\
    1 <= len (Mean.cs q) <= Z.min n (len (colours img)) /\
    (len (Mean.cs q) < n -> len (Mean.cs q) <= Z.quot n 2 ->
     len (Mean.cs q) = len (colours img)).
Proof.
  intros Hb Hok Hne HP Hn.
  destruct (mean_run_spec img n Hb Hok HP Hn)
    as (q & k & E & Himg & Hl & Hk & Hperm & Hnonempty & Hs).
  pose proof (mean_run_colours img n Hb Hok HP Hn q k E) as Hcl.
  assert (Hle : len (Mean.cs q) <= len (colours img)).
  { unfold len. apply inj_le. rewrite <- (length_fmap Mean.px).
    apply clusters_le_colours; [done | | done].
    apply Forall_fmap. by apply Hnonempty. }
  exists q, k. split; [done|]. split; [done|]. split; [lia|].
  intros Hlt Hhalf.
  assert (Hge : len (colours img) <= len (Mean.cs q)).
  { unfold len. apply inj_le. rewrite <- (length_fmap Mean.px).
    apply colours_le_clusters; [done|]. apply Forall_fmap.
    eapply Forall_impl; [exact (Hs Hlt)|]. intros c [Ha Hnel]. cbn beta.
    destruct (not_eligible_cases img _ c Hok Ha Hnel) as [H1|[He _]]; [done|].
    apply Z.ltb_ge in He. lia. }
  lia.
Qed.

Lemma mean_cluster_count_colours_witness :
  exists q k,
    mean_clusters img_rrgb 3 = Ret (q, k) /\
    1 <= len (Mean.cs q) <= Z.min 3 (len (colours img_rrgb)).
Proof.
  destruct img_rrgb_ok as [Hb Hok].
  destruct (mean_cluster_count_colours img_rrgb 3 Hb Hok img_rrgb_pixels img_rrgb_small
              ltac:(lia)) as (q & k & E & _ & Hc & _).
  exists q, k. split; [exact E | exact Hc].
Defined.
